(** * Grease Burger analytics server: a shallow embedding and its properties

    The server (an Express application) ingests telemetry events through
    [POST /track], keeps four bounded logs in a JSON file and serves derived
    views through [GET /stats], [GET /spins] and [GET /bigwins].

    The embedding follows the JavaScript source function by function.
    JavaScript strings are sequences of UTF-16 code units, numbers are IEEE
    binary64 values (Rocq's executable [spec_float]), request bodies are
    JSON values, and an exception is an explicit outcome that the
    handler's [try]/[catch] turns into the generic 500 reply. *)

From Stdlib Require Import ZArith NArith QArith Qround List Bool Ascii String Lia.
From Stdlib Require Import SpecFloat DecimalString Permutation Sorted.
Import ListNotations.

Set Warnings "-register-all".
Local Open Scope string_scope.
Local Open Scope list_scope.
Local Open Scope Z_scope.

(* ================================================================== *)
(** ** Strings *)

(** A JavaScript string: its UTF-16 code units. *)
Definition jsstring := list N.

Definition js (s : string) : jsstring :=
  map N_of_ascii (list_ascii_of_string s).

Fixpoint jsstring_eqb (a b : jsstring) : bool :=
  match a, b with
  | [], [] => true
  | x :: a', y :: b' => N.eqb x y && jsstring_eqb a' b'
  | _, _ => false
  end.

(** [Array.prototype.includes] on an array of strings. *)
Definition includes (l : list jsstring) (k : jsstring) : bool :=
  existsb (jsstring_eqb k) l.

Fixpoint starts_with (p s : jsstring) : bool :=
  match p, s with
  | [], _ => true
  | x :: p', y :: s' => N.eqb x y && starts_with p' s'
  | _ :: _, [] => false
  end.

Fixpoint uint_chars (u : Decimal.uint) : jsstring :=
  match u with
  | Decimal.Nil => []
  | Decimal.D0 r => 48%N :: uint_chars r
  | Decimal.D1 r => 49%N :: uint_chars r
  | Decimal.D2 r => 50%N :: uint_chars r
  | Decimal.D3 r => 51%N :: uint_chars r
  | Decimal.D4 r => 52%N :: uint_chars r
  | Decimal.D5 r => 53%N :: uint_chars r
  | Decimal.D6 r => 54%N :: uint_chars r
  | Decimal.D7 r => 55%N :: uint_chars r
  | Decimal.D8 r => 56%N :: uint_chars r
  | Decimal.D9 r => 57%N :: uint_chars r
  end.

(** The decimal numeral of a natural number, without leading zeros. *)
Definition decimal (n : N) : jsstring := uint_chars (N.to_uint n).

Definition is_digit (c : N) : bool := ((48 <=? c) && (c <=? 57))%N.

(** Longest prefix of decimal digits, and the rest. *)
Fixpoint take_digits (s : jsstring) : jsstring * jsstring :=
  match s with
  | c :: r =>
      if is_digit c then let (d, t) := take_digits r in (c :: d, t)
      else ([], s)
  | [] => ([], [])
  end.

Definition digits_value (ds : jsstring) : Z :=
  fold_left (fun acc c => 10 * acc + (Z.of_N c - 48)) ds 0.

(** WhiteSpace and LineTerminator code units, as [TrimString] skips them. *)
Definition is_whitespace (c : N) : bool :=
  existsb (N.eqb c)
    [9; 10; 11; 12; 13; 32; 160; 5760; 8232; 8233; 8239; 8287; 12288; 65279]%N
  || ((8192 <=? c) && (c <=? 8202))%N.

Fixpoint trim_start (s : jsstring) : jsstring :=
  match s with
  | c :: r => if is_whitespace c then trim_start r else s
  | [] => []
  end.

(* ================================================================== *)
(** ** Numbers *)

Module Num.

Definition number := spec_float.

Definition prec : Z := 53.
Definition emax : Z := 1024.

Definition NaN : number := S754_nan.
Definition zero : number := S754_zero false.

Definition add : number -> number -> number := SFadd prec emax.
Definition sub : number -> number -> number := SFsub prec emax.
Definition mul : number -> number -> number := SFmul prec emax.
Definition div : number -> number -> number := SFdiv prec emax.
Definition ltb : number -> number -> bool := SFltb.
Definition gtb (x y : number) : bool := SFltb y x.

(** The number nearest to an integer. *)
Definition of_Z (z : Z) : number := binary_normalize prec emax z 0 false.
Definition of_nat (n : nat) : number := of_Z (Z.of_nat n).

Definition isNaN (x : number) : bool :=
  match x with S754_nan => true | _ => false end.

Definition isFinite (x : number) : bool :=
  match x with S754_nan | S754_infinity _ => false | _ => true end.

Definition is_zero (x : number) : bool :=
  match x with S754_zero _ => true | _ => false end.

Definition eqb_struct (x y : number) : bool :=
  match x, y with
  | S754_zero a, S754_zero b => Bool.eqb a b
  | S754_infinity a, S754_infinity b => Bool.eqb a b
  | S754_nan, S754_nan => true
  | S754_finite a m e, S754_finite b n f =>
      Bool.eqb a b && Pos.eqb m n && Z.eqb e f
  | _, _ => false
  end.

(** The exact rational value of a finite number. *)
Definition Qpow (b : Z) (e : Z) : Q := Qpower (inject_Z b) e.

Definition magnitude (x : number) : Q :=
  match x with
  | S754_finite _ m e => inject_Z (Zpos m) * Qpow 2 e
  | _ => 0
  end.

Definition is_negative (x : number) : bool :=
  match x with
  | S754_finite s _ _ | S754_infinity s => s
  | _ => false
  end.

(** Round a positive rational to the nearest number, ties to even.  The
    quotient is taken with more than [prec + 2] bits and the remainder is
    kept as a sticky bit, so the single rounding of [binary_normalize] is
    the rounding of the rational itself. *)
Definition round_Q (neg : bool) (q : Q) : number :=
  let p := Qnum q in
  let d := Zpos (Qden q) in
  if p <=? 0 then S754_zero neg
  else
    let k := Z.max 0 (64 + Z.log2 d - Z.log2 p) in
    let (quo, rem) := Z.div_eucl (Z.shiftl p k) d in
    let m := 2 * quo + (if rem =? 0 then 0 else 1) in
    binary_normalize prec emax (if neg then - m else m) (- k - 1) neg.

(** The number denoted by the decimal numeral [d * 10^e10]. *)
Definition of_decimal (neg : bool) (d : Z) (e10 : Z) : number :=
  round_Q neg (inject_Z d * Qpow 10 e10).

End Num.
Export Num.

(* ================================================================== *)
(** ** Number to string *)

Module NumberToString.

Definition Qltb (a b : Q) : bool := negb (Qle_bool b a).

Fixpoint adjust_up (fuel : nat) (q : Q) (n : Z) : Z :=
  match fuel with
  | O => n
  | S f => if Qle_bool (Qpow 10 n) q then adjust_up f q (n + 1) else n
  end.

Fixpoint adjust_down (fuel : nat) (q : Q) (n : Z) : Z :=
  match fuel with
  | O => n
  | S f => if Qltb q (Qpow 10 (n - 1)) then adjust_down f q (n - 1) else n
  end.

(** The integer [n] with [10^(n-1) <= q < 10^n], for a positive [q]. *)
Definition decimal_exponent (q : Q) : Z :=
  let est := (Z.log2 (Qnum q) - Z.log2 (Zpos (Qden q))) * 30103 / 100000 in
  adjust_down 4 q (adjust_up 4 q est).

(** A [k]-digit integer [s] such that [s * 10^(n-k)] reads back as [x], the
    one nearest to [x] when there are two. *)
Definition candidate (x : number) (q : Q) (n k : Z) : option Z :=
  let scaled := (q * Qpow 10 (k - n))%Q in
  let lo := Qfloor scaled in
  let hi := lo + 1 in
  let ok s := eqb_struct (of_decimal false s (n - k)) x in
  let dlo := (scaled - inject_Z lo)%Q in
  let dhi := (inject_Z hi - scaled)%Q in
  match ok lo, ok hi with
  | true, true =>
      Some (if Qltb dlo dhi then lo
            else if Qltb dhi dlo then hi
            else if Z.even lo then lo else hi)
  | true, false => Some lo
  | false, true => Some hi
  | false, false => None
  end.

(** Smallest number of digits that reads back as [x], tried from [k]. *)
Fixpoint shortest (fuel : nat) (x : number) (q : Q) (n k : Z) : Z * Z :=
  match fuel with
  | O => (Qfloor (q * Qpow 10 (k - n)), n - k)
  | S f =>
      match candidate x q n k with
      | Some s => (s, n - k)
      | None => shortest f x q n (k + 1)
      end
  end.

Fixpoint strip_zeros (fuel : nat) (s t : Z) : Z * Z :=
  match fuel with
  | O => (s, t)
  | S f => if (s mod 10 =? 0) && negb (s =? 0)
           then strip_zeros f (s / 10) (t + 1) else (s, t)
  end.

Definition zeros (n : Z) : jsstring := repeat 48%N (Z.to_nat n).

(** Steps 7 to 11 of Number::toString: lay out the digits [ds] of a
    number whose decimal point sits after the [n]th digit. *)
Definition layout (ds : jsstring) (n : Z) : jsstring :=
  let k := Z.of_nat (List.length ds) in
  if (k <=? n) && (n <=? 21) then ds ++ zeros (n - k)
  else if (0 <? n) && (n <=? 21) then
    firstn (Z.to_nat n) ds ++ js "." ++ skipn (Z.to_nat n) ds
  else if (-6 <? n) && (n <=? 0) then js "0." ++ zeros (- n) ++ ds
  else
    let e := n - 1 in
    let sign := if e <? 0 then js "-" else js "+" in
    let expo := js "e" ++ sign ++ decimal (Z.to_N (Z.abs e)) in
    match ds with
    | [d] => [d] ++ expo
    | d :: r => [d] ++ js "." ++ r ++ expo
    | [] => expo
    end.

Definition positive_to_string (x : number) : jsstring :=
  let q := magnitude x in
  let n := decimal_exponent q in
  let (s0, t0) := shortest 17 x q n 1 in
  let (s, t) := strip_zeros 30 s0 t0 in
  let ds := decimal (Z.to_N s) in
  layout ds (t + Z.of_nat (List.length ds)).

(** Number::toString in radix 10. *)
Definition to_string (x : number) : jsstring :=
  match x with
  | S754_nan => js "NaN"
  | S754_zero _ => js "0"
  | S754_infinity false => js "Infinity"
  | S754_infinity true => js "-Infinity"
  | S754_finite false m e => positive_to_string x
  | S754_finite true m e => js "-" ++ positive_to_string (S754_finite false m e)
  end.

(** [Number.prototype.toFixed(fd)]. *)
Definition toFixed (x : number) (fd : nat) : jsstring :=
  match x with
  | S754_nan | S754_infinity _ => to_string x
  | _ =>
      let q := magnitude x in
      if Qle_bool (Qpow 10 21) q then to_string x
      else
        let n := Qfloor (q * Qpow 10 (Z.of_nat fd) + (1 # 2))%Q in
        let m := decimal (Z.to_N n) in
        let m := repeat 48%N (S fd - List.length m) ++ m in
        let k := List.length m in
        let body :=
          match fd with
          | O => m
          | _ => firstn (k - fd) m ++ js "." ++ skipn (k - fd) m
          end in
        if is_negative x then js "-" ++ body else body
  end.

End NumberToString.

(* ================================================================== *)
(** ** String to number *)

Module StringToNumber.

Definition strip_sign (s : jsstring) : bool * jsstring :=
  match s with
  | 45%N :: r => (true, r)
  | 43%N :: r => (false, r)
  | _ => (false, s)
  end.

(** An ExponentPart at the head of [s]: its value, or 0 when [s] does not
    start with one. *)
Definition exponent_part (s : jsstring) : Z :=
  match s with
  | c :: r =>
      if (c =? 101)%N || (c =? 69)%N then
        let (neg, r') := strip_sign r in
        let (ds, _) := take_digits r' in
        match ds with
        | [] => 0
        | _ => if neg then - digits_value ds else digits_value ds
        end
      else 0
  | [] => 0
  end.

(** [parseFloat] on a string: the longest prefix of the trimmed string that
    is a StrDecimalLiteral, or NaN. *)
Definition parseFloat_string (input : jsstring) : number :=
  let (neg, s) := strip_sign (trim_start input) in
  if starts_with (js "Infinity") s then S754_infinity neg
  else
    let (ip, r1) := take_digits s in
    let (fp, r2) :=
      match r1 with
      | 46%N :: r => take_digits r
      | _ => ([], r1)
      end in
    match ip ++ fp with
    | [] => NaN
    | ds => of_decimal neg (digits_value ds)
              (exponent_part r2 - Z.of_nat (List.length fp))
    end.

Definition hex_digit (c : N) : option Z :=
  if is_digit c then Some (Z.of_N c - 48)
  else if ((97 <=? c) && (c <=? 102))%N then Some (Z.of_N c - 87)
  else if ((65 <=? c) && (c <=? 70))%N then Some (Z.of_N c - 55)
  else None.

Fixpoint hex_value (s : jsstring) (seen : bool) (acc : Z) : option Z :=
  match s with
  | c :: r =>
      match hex_digit c with
      | Some d => hex_value r true (16 * acc + d)
      | None => if seen then Some acc else None
      end
  | [] => if seen then Some acc else None
  end.

(** The mathematical integer [parseInt] reads (radix argument absent), and
    its sign; [None] when there is no digit. *)
Definition parseInt_math (input : jsstring) : option (bool * Z) :=
  let (neg, s) := strip_sign (trim_start input) in
  match s with
  | 48%N :: x :: r =>
      if (x =? 120)%N || (x =? 88)%N then
        option_map (pair neg) (hex_value r false 0)
      else
        let (ds, _) := take_digits s in Some (neg, digits_value ds)
  | _ =>
      let (ds, _) := take_digits s in
      match ds with
      | [] => None
      | _ => Some (neg, digits_value ds)
      end
  end.

Definition parseInt_string (input : jsstring) : number :=
  match parseInt_math input with
  | None => NaN
  | Some (neg, z) => binary_normalize prec emax (if neg then - z else z) 0 neg
  end.

End StringToNumber.

(* ================================================================== *)
(** ** Values *)

(** What [express.json()] and the query parser hand to a handler: JSON
    values, and [undefined] for what is absent. *)
Inductive value : Type :=
  | VUndefined
  | VNull
  | VBool (b : bool)
  | VNum (x : number)
  | VStr (s : jsstring)
  | VArr (elems : list value)
  | VObj (props : list (jsstring * value)).

(** An operation that may throw: [None] is the exception. *)
Definition throws (A : Type) := option A.

Fixpoint own_property (props : list (jsstring * value)) (k : jsstring)
  : option value :=
  match props with
  | (k', v) :: r => if jsstring_eqb k k' then Some v else own_property r k
  | [] => None
  end.

(** [v.k] for the field names this server reads ([eventType], [data],
    [sessionId], [bet], ...): none of them is defined by a built-in
    prototype, so the access yields the own property or [undefined]. *)
Definition get (v : value) (k : string) : value :=
  match v with
  | VObj props =>
      match own_property props (js k) with
      | Some x => x
      | None => VUndefined
      end
  | _ => VUndefined
  end.

(** ToBoolean. *)
Definition truthy (v : value) : bool :=
  match v with
  | VUndefined | VNull => false
  | VBool b => b
  | VNum x => negb (is_zero x || isNaN x)
  | VStr s => match s with [] => false | _ => true end
  | VArr _ | VObj _ => true
  end.

(** [typeof v === 'object'] *)
Definition typeof_object (v : value) : bool :=
  match v with
  | VNull | VArr _ | VObj _ => true
  | _ => false
  end.

(** [typeof v === 'string'] *)
Definition typeof_string (v : value) : bool :=
  match v with VStr _ => true | _ => false end.

Fixpoint join_with (sep : jsstring) (parts : list jsstring) : jsstring :=
  match parts with
  | [] => []
  | [p] => p
  | p :: r => p ++ sep ++ join_with sep r
  end.

Fixpoint sequence {A : Type} (l : list (throws A)) : throws (list A) :=
  match l with
  | [] => Some []
  | None :: _ => None
  | Some x :: r => option_map (cons x) (sequence r)
  end.

(** ToString.  An array is joined with commas, [null] and [undefined]
    elements giving the empty string.  A plain object goes through
    [Object.prototype.toString], unless an own [toString] property shadows
    it: a JSON value is never callable, [Object.prototype.valueOf] returns
    the object itself, and OrdinaryToPrimitive throws a TypeError. *)
Fixpoint ToString (v : value) : throws jsstring :=
  match v with
  | VUndefined => Some (js "undefined")
  | VNull => Some (js "null")
  | VBool true => Some (js "true")
  | VBool false => Some (js "false")
  | VNum x => Some (NumberToString.to_string x)
  | VStr s => Some s
  | VArr elems =>
      option_map (join_with (js ","))
        (sequence
           (map (fun e => match e with
                          | VUndefined | VNull => Some []
                          | _ => ToString e
                          end) elems))
  | VObj props =>
      match own_property props (js "toString") with
      | Some _ => None
      | None => Some (js "[object Object]")
      end
  end.

Definition parseFloat (v : value) : throws number :=
  option_map StringToNumber.parseFloat_string (ToString v).

Definition parseInt (v : value) : throws number :=
  option_map StringToNumber.parseInt_string (ToString v).

Fixpoint index_keys (n : nat) (from : N) : list jsstring :=
  match n with
  | O => []
  | S n' => decimal from :: index_keys n' (N.succ from)
  end.

(** [Object.keys] on an object or an array. *)
Definition Object_keys (v : value) : list jsstring :=
  match v with
  | VObj props => map fst props
  | VArr elems => index_keys (List.length elems) 0%N
  | _ => []
  end.

(* ================================================================== *)
(** ** Arrays *)

(** An integer or an infinity, as ToIntegerOrInfinity returns. *)
Inductive extint := NegInf | Fin (z : Z) | PosInf.

Definition ToIntegerOrInfinity (x : number) : extint :=
  match x with
  | S754_nan | S754_zero _ => Fin 0
  | S754_infinity true => NegInf
  | S754_infinity false => PosInf
  | S754_finite s m e =>
      let t := match e with
               | Zneg p => Z.shiftr (Zpos m) (Zpos p)
               | _ => Z.shiftl (Zpos m) e
               end in
      Fin (if s then - t else t)
  end.

Definition relative_index (len : Z) (i : extint) : Z :=
  match i with
  | NegInf => 0
  | Fin z => if z <? 0 then Z.max (len + z) 0 else Z.min z len
  | PosInf => len
  end.

(** [Array.prototype.slice(start, end)]; an absent [end] is the length. *)
Definition slice {A : Type} (start : extint) (stop : option extint)
  (l : list A) : list A :=
  let len := Z.of_nat (List.length l) in
  let k := relative_index len start in
  let final := match stop with
               | None => len
               | Some e => relative_index len e
               end in
  firstn (Z.to_nat (final - k)) (skipn (Z.to_nat k) l).

(* ================================================================== *)
(** ** Helpers of the server *)

Definition is_special (c : N) : bool :=
  existsb (N.eqb c) [60; 62; 39; 34; 38; 92]%N.

Definition is_control (c : N) : bool := (c <=? 31)%N || (c =? 127)%N.

(** [sanitize(str, maxLength)]: every call passes a literal length (50,
    300, 20, 200), and the default is 500. *)
Definition sanitize (str : value) (maxLength : nat) : jsstring :=
  match str with
  | VStr s =>
      filter (fun c => negb (is_control c))
        (filter (fun c => negb (is_special c))
           (slice (Fin 0) (Some (Fin (Z.of_nat maxLength))) s))
  | _ => []
  end.

(** [validateNumber(val, min, max)]: [None] inside [throws] is the
    function's [null]. *)
Definition validateNumber (val : value) (min max : number)
  : throws (option number) :=
  match parseFloat val with
  | None => None
  | Some num =>
      if isNaN num || negb (isFinite num) || ltb num min || gtb num max
      then Some None
      else Some (Some num)
  end.

(** What [allowedKeys] can be at a call of [validateKeys]: one of the
    arrays of the source, or a value without an [includes] method. *)
Inductive allowed :=
  | KeyList (keys : list jsstring)
  | NotAnArray.

(** [validateKeys(obj, allowedKeys)].  [every] calls
    [allowedKeys.includes] once per key, so a value that is not an array
    throws as soon as there is a key, and only then. *)
Definition validateKeys (obj : value) (allowedKeys : allowed) : throws bool :=
  if negb (truthy obj) || negb (typeof_object obj) then Some false
  else
    match allowedKeys with
    | KeyList keys => Some (forallb (includes keys) (Object_keys obj))
    | NotAnArray =>
        match Object_keys obj with
        | [] => Some true
        | _ :: _ => None
        end
    end.

Definition visit_fields := map js ["sessionId"; "userAgent"; "screenSize"; "referrer"].
Definition spin_fields := map js ["sessionId"; "bet"; "win"; "symbols"].
Definition freeSpins_fields := map js ["sessionId"; "mode"; "totalWin"; "spinsCount"].
Definition bigWin_fields := map js ["sessionId"; "tier"; "amount"].

(** The members of [Object.prototype], which every object literal
    inherits, with the string each one converts to (V8's rendering of a
    native function; [__proto__] is the prototype object itself). *)
Definition Object_prototype : list (jsstring * jsstring) :=
  map (fun p => (js (fst p),
                 js ("function " ++ snd p ++ "() { [native code] }"))%string)
    [("constructor", "Object");
     ("__defineGetter__", "__defineGetter__");
     ("__defineSetter__", "__defineSetter__");
     ("hasOwnProperty", "hasOwnProperty");
     ("__lookupGetter__", "__lookupGetter__");
     ("__lookupSetter__", "__lookupSetter__");
     ("isPrototypeOf", "isPrototypeOf");
     ("propertyIsEnumerable", "propertyIsEnumerable");
     ("toString", "toString");
     ("valueOf", "valueOf");
     ("toLocaleString", "toLocaleString")]
  ++ [(js "__proto__", js "[object Object]")].

Fixpoint assoc {A : Type} (k : jsstring) (l : list (jsstring * A)) : option A :=
  match l with
  | (k', v) :: r => if jsstring_eqb k k' then Some v else assoc k r
  | [] => None
  end.

(** [EVENT_SCHEMAS[eventType]]: an own entry, an inherited member (truthy,
    but not an array), or [undefined]. *)
Definition EVENT_SCHEMAS (eventType : jsstring) : option allowed :=
  if jsstring_eqb eventType (js "visit") then Some (KeyList visit_fields)
  else if jsstring_eqb eventType (js "spin") then Some (KeyList spin_fields)
  else if jsstring_eqb eventType (js "freeSpins") then Some (KeyList freeSpins_fields)
  else if jsstring_eqb eventType (js "bigWin") then Some (KeyList bigWin_fields)
  else match assoc eventType Object_prototype with
       | Some _ => Some NotAnArray
       | None => None
       end.

(* ================================================================== *)
(** ** The event store and its file *)

Record Visit := mkVisit {
  visit_timestamp : jsstring;
  visit_sessionId : jsstring;
  userAgent : jsstring;
  screenSize : jsstring;
  referrer : jsstring }.

Record Spin := mkSpin {
  spin_timestamp : jsstring;
  spin_sessionId : jsstring;
  bet : number;
  win : number;
  symbols : list jsstring }.

Record FreeSpins := mkFreeSpins {
  freeSpins_timestamp : jsstring;
  freeSpins_sessionId : jsstring;
  mode : jsstring;
  totalWin : number;
  spinsCount : number }.

Record BigWin := mkBigWin {
  bigWin_timestamp : jsstring;
  bigWin_sessionId : jsstring;
  tier : jsstring;
  amount : number }.

(** The document kept in [data/analytics.json]. *)
Record analytics := mkAnalytics {
  visits : list Visit;
  spins : list Spin;
  freeSpins : list FreeSpins;
  bigWins : list BigWin }.

Definition empty_analytics : analytics := mkAnalytics [] [] [] [].

(** A finite number after [JSON.stringify] and [JSON.parse]: the sign of
    a zero is not written.  The handler stores finite numbers only; a NaN
    or an infinity, which only a file written by hand can bring in (as
    [1e999]), is written as [null], and that no field of the typed
    document can hold: for such a number this definition does not say what
    is read back. *)
Definition json_number (x : number) : number :=
  match x with
  | S754_zero _ => zero
  | _ => x
  end.

Definition json_spin (s : Spin) : Spin :=
  mkSpin (spin_timestamp s) (spin_sessionId s)
    (json_number (bet s)) (json_number (win s)) (symbols s).

Definition json_freeSpins (f : FreeSpins) : FreeSpins :=
  mkFreeSpins (freeSpins_timestamp f) (freeSpins_sessionId f) (mode f)
    (json_number (totalWin f)) (json_number (spinsCount f)).

Definition json_bigWin (w : BigWin) : BigWin :=
  mkBigWin (bigWin_timestamp w) (bigWin_sessionId w) (tier w)
    (json_number (amount w)).

(** The document a reader gets back from what [JSON.stringify] wrote. *)
Definition json_roundtrip (a : analytics) : analytics :=
  mkAnalytics (visits a) (map json_spin (spins a))
    (map json_freeSpins (freeSpins a)) (map json_bigWin (bigWins a)).

(** The data file: absent, unreadable, holding text that [JSON.parse]
    rejects, or holding a document in the shape this server writes. *)
Inductive file_state :=
  | Missing
  | Unreadable
  | Corrupt
  | Document (a : analytics).

Record filesystem := mkFilesystem {
  file : file_state;
  writable : bool }.

(** [readData()]: every exception of [readFileSync] or [JSON.parse] is
    caught and answered with the empty document. *)
Definition readData (fs : filesystem) : analytics :=
  match file fs with
  | Document a => a
  | Missing | Unreadable | Corrupt => empty_analytics
  end.

(** [writeData(data)]: [true] and the new file, or [false] when
    [writeFileSync] throws (the file is then taken to be left as it was). *)
Definition writeData (fs : filesystem) (data : analytics) : bool * filesystem :=
  if writable fs
  then (true, mkFilesystem (Document (json_roundtrip data)) true)
  else (false, fs).

(* ================================================================== *)
(** ** POST /track *)

Inductive reply :=
  | Success
  | Error (status : Z) (error : jsstring).

(** A handler body: it either [return]s an error reply early or goes on. *)
Inductive step (A : Type) :=
  | Return (status : Z) (error : jsstring)
  | Continue (a : A).
Arguments Return {A} status error.
Arguments Continue {A} a.

Definition bind {A B : Type} (m : step A) (k : A -> step B) : step B :=
  match m with
  | Return status error => Return status error
  | Continue a => k a
  end.

Notation "x <- m ;; k" := (bind m (fun x => k))
  (at level 61, m at next level, right associativity).
Notation "m ;;; k" := (bind m (fun _ => k))
  (at level 61, right associativity).

(** [return res.status(400).json({ error: msg })] *)
Definition bad_request {A : Type} (msg : string) : step A :=
  Return 400 (js msg).

(** [if (c) return res.status(400).json({ error: msg })] *)
Definition reject_if (c : bool) (msg : string) : step unit :=
  if c then bad_request msg else Continue tt.

(** An exception reaches the handler's [catch], which replies 500. *)
Definition try {A : Type} (t : throws A) : step A :=
  match t with
  | None => Return 500 (js "Server error")
  | Some a => Continue a
  end.

(** [arr.push(r); if (arr.length > cap) arr = arr.slice(-cap);] *)
Definition push_capped {A : Type} (cap : Z) (arr : list A) (r : A) : list A :=
  let arr' := arr ++ [r] in
  if cap <? Z.of_nat (List.length arr')
  then slice (Fin (- cap)) None arr'
  else arr'.

(** [x || 0] on the result of [validateNumber]. *)
Definition or_zero (x : option number) : number :=
  match x with
  | None => zero
  | Some n => if is_zero n || isNaN n then zero else n
  end.

(** The [switch (eventType)] of the handler. *)
Definition append_event (eventType : jsstring) (data : value)
  (timestamp : jsstring) (a : analytics) : step analytics :=
  if jsstring_eqb eventType (js "visit") then
    reject_if (negb (truthy (get data "sessionId")))
      "Missing sessionId" ;;;
    let r := mkVisit timestamp
               (sanitize (get data "sessionId") 50)
               (sanitize (get data "userAgent") 300)
               (sanitize (get data "screenSize") 20)
               (sanitize (get data "referrer") 200) in
    Continue (mkAnalytics (push_capped 10000 (visits a) r)
                (spins a) (freeSpins a) (bigWins a))
  else if jsstring_eqb eventType (js "spin") then
    bet <- try (validateNumber (get data "bet") zero (of_Z 10000)) ;;
    win <- try (validateNumber (get data "win") zero (of_Z 10000000)) ;;
    match bet, win with
    | Some bet, Some win =>
        syms <- try (match get data "symbols" with
                     | VArr elems =>
                         sequence
                           (map (fun s => option_map
                                            (fun t => sanitize (VStr t) 20)
                                            (ToString s))
                              (slice (Fin 0) (Some (Fin 18)) elems))
                     | _ => Some []
                     end) ;;
        let r := mkSpin timestamp (sanitize (get data "sessionId") 50)
                   bet win syms in
        Continue (mkAnalytics (visits a) (push_capped 50000 (spins a) r)
                    (freeSpins a) (bigWins a))
    | _, _ => bad_request "Invalid bet or win"
    end
  else if jsstring_eqb eventType (js "freeSpins") then
    fsWin <- try (validateNumber (get data "totalWin") zero (of_Z 10000000)) ;;
    match fsWin with
    | Some fsWin =>
        count <- try (validateNumber (get data "spinsCount") zero (of_Z 100)) ;;
        let r := mkFreeSpins timestamp (sanitize (get data "sessionId") 50)
                   (sanitize (get data "mode") 20) fsWin (or_zero count) in
        Continue (mkAnalytics (visits a) (spins a)
                    (push_capped 5000 (freeSpins a) r) (bigWins a))
    | None => bad_request "Invalid totalWin"
    end
  else if jsstring_eqb eventType (js "bigWin") then
    bigWinAmount <- try (validateNumber (get data "amount") zero (of_Z 10000000)) ;;
    match bigWinAmount with
    | Some bigWinAmount =>
        let validTiers := map js ["big"; "mega"; "epic"] in
        let tier := match get data "tier" with
                    | VStr t => if includes validTiers t then t else js "big"
                    | _ => js "big"
                    end in
        let r := mkBigWin timestamp (sanitize (get data "sessionId") 50)
                   tier bigWinAmount in
        Continue (mkAnalytics (visits a) (spins a) (freeSpins a)
                    (push_capped 5000 (bigWins a) r))
    | None => bad_request "Invalid amount"
    end
  else Continue a.

(** The body of the handler, up to the final [res.json({success: true})].
    [timestamp] is what [new Date().toISOString()] returns. *)
Definition track_body (body : value) (timestamp : jsstring)
  (fs : filesystem) : step filesystem :=
  (* const { eventType, data } = req.body; *)
  try (match body with
       | VUndefined | VNull => None
       | _ => Some tt
       end) ;;;
  let eventType := get body "eventType" in
  let data := get body "data" in
  reject_if (negb (truthy body) || negb (typeof_object body))
    "Invalid request" ;;;
  ok <- try (validateKeys body (KeyList (map js ["eventType"; "data"]))) ;;
  reject_if (negb ok) "Invalid request" ;;;
  reject_if (negb (truthy eventType) || negb (typeof_string eventType))
    "Invalid event type" ;;;
  reject_if (negb (truthy data) || negb (typeof_object data))
    "Invalid data" ;;;
  match eventType with
  | VStr name =>
      match EVENT_SCHEMAS name with
      | None => bad_request "Unknown event type"
      | Some schema =>
          ok <- try (validateKeys data schema) ;;
          reject_if (negb ok) "Invalid data fields" ;;;
          let analytics := readData fs in
          analytics' <- append_event name data timestamp analytics ;;
          Continue (snd (writeData fs analytics'))
      end
  | _ => bad_request "Invalid event type"
  end.

(** [app.post('/track', ...)]: the reply and the file system afterwards. *)
Definition track (body : value) (timestamp : jsstring) (fs : filesystem)
  : reply * filesystem :=
  match track_body body timestamp fs with
  | Return status error => (Error status error, fs)
  | Continue fs' => (Success, fs')
  end.

(* ================================================================== *)
(** ** Math *)

(** [Math.max(a, b)] and [Math.min(a, b)]. *)
Definition Math_max (a b : number) : number :=
  match a, b with
  | S754_nan, _ | _, S754_nan => NaN
  | S754_zero sa, S754_zero sb => S754_zero (sa && sb)
  | _, _ => if ltb a b then b else a
  end.

Definition Math_min (a b : number) : number :=
  match a, b with
  | S754_nan, _ | _, S754_nan => NaN
  | S754_zero sa, S754_zero sb => S754_zero (sa || sb)
  | _, _ => if ltb b a then b else a
  end.

(** [Math.ceil(x)]. *)
Definition Math_ceil (x : number) : number :=
  match x with
  | S754_finite s m e =>
      if 0 <=? e then x
      else
        let c := Qceiling (magnitude x) in
        if s then binary_normalize prec emax (- (Qfloor (magnitude x))) 0 true
        else of_Z c
  | _ => x
  end.

(** [x || d] for a number [x]. *)
Definition or_default (x d : number) : number :=
  if is_zero x || isNaN x then d else x.

(* ================================================================== *)
(** ** GET /stats *)

(** A value held by [symbolCounts]: a number, or the string that [+ 1]
    makes of an inherited member.  Counts stay far below 2^53, where
    [n + 1] is exact, and are kept as natural numbers. *)
Inductive count :=
  | Count (n : N)
  | Text (s : jsstring).

(** An ordinary object as [Object.entries] lists it: the keys that are
    array indices first, in ascending numeric order, then the other keys
    in the order of their creation. *)
Definition object := list (jsstring * count).

(** The array index a key denotes: a canonical numeral below 2^32 - 1. *)
Definition array_index (k : jsstring) : option N :=
  match k with
  | [] => None
  | _ =>
      if forallb is_digit k then
        let n := Z.to_N (digits_value k) in
        if jsstring_eqb (decimal n) k && (n <? 4294967295)%N
        then Some n else None
      else None
  end.

Fixpoint update (k : jsstring) (v : count) (o : object) : object :=
  match o with
  | (k', v') :: r =>
      if jsstring_eqb k k' then (k', v) :: r else (k', v') :: update k v r
  | [] => []
  end.

Fixpoint insert_index (i : N) (k : jsstring) (v : count) (o : object) : object :=
  match o with
  | (k', v') :: r =>
      match array_index k' with
      | Some j => if (j <? i)%N then (k', v') :: insert_index i k v r
                  else (k, v) :: o
      | None => (k, v) :: o
      end
  | [] => [(k, v)]
  end.

(** [o[k] = v].  Assigning a primitive to [__proto__] runs the inherited
    setter, which ignores it. *)
Definition set_property (k : jsstring) (v : count) (o : object) : object :=
  if jsstring_eqb k (js "__proto__") then o
  else
    match assoc k o with
    | Some _ => update k v o
    | None =>
        match array_index k with
        | Some i => insert_index i k v o
        | None => o ++ [(k, v)]
        end
    end.

(** [o[k]]: the own property, else the member inherited from
    [Object.prototype], else [undefined]. *)
Definition get_property (k : jsstring) (o : object) : option count :=
  match assoc k o with
  | Some v => Some v
  | None => option_map Text (assoc k Object_prototype)
  end.

(** [symbolCounts[sym] = (symbolCounts[sym] || 0) + 1] *)
Definition count_symbol (o : object) (sym : jsstring) : object :=
  let next :=
    match get_property sym o with
    | None => Count 1
    | Some (Count n) => Count (n + 1)
    | Some (Text []) => Count 1
    | Some (Text s) => Text (s ++ js "1")
    end in
  set_property sym next o.

Definition symbolCounts (a : analytics) : object :=
  fold_left (fun o spin => fold_left count_symbol (symbols spin) o)
    (spins a) [].

(** [b[1] - a[1]], as the sort reads it: its sign, a NaN counting as 0.
    A string that [+ 1] built never converts to a number. *)
Definition by_count_desc (a b : jsstring * count) : Z :=
  match snd a, snd b with
  | Count x, Count y => Z.of_N y - Z.of_N x
  | _, _ => 0
  end.

(** [Array.prototype.sort(comparefn)]: a stable sort.  (For a [comparefn]
    that is not a consistent order the language leaves the result to the
    engine; insertion is what this model does then.) *)
Fixpoint insert_sorted {A : Type} (cmp : A -> A -> Z) (x : A) (l : list A)
  : list A :=
  match l with
  | [] => [x]
  | y :: r => if 0 <? cmp x y then y :: insert_sorted cmp x r else x :: l
  end.

Definition sort {A : Type} (cmp : A -> A -> Z) (l : list A) : list A :=
  fold_right (insert_sorted cmp) [] l.

Definition topSymbols (a : analytics) : list (jsstring * count) :=
  slice (Fin 0) (Some (Fin 10)) (sort by_count_desc (symbolCounts a)).

(** The distinct strings of a list, in the order of their first
    occurrence: the elements of [new Set(l)]. *)
Fixpoint distinct_from (seen l : list jsstring) : list jsstring :=
  match l with
  | [] => []
  | x :: r => if includes seen x then distinct_from seen r
              else x :: distinct_from (x :: seen) r
  end.

Definition distinct (l : list jsstring) : list jsstring := distinct_from [] l.

Definition totalWagered (a : analytics) : number :=
  fold_left (fun sum s => add sum (bet s)) (spins a) zero.

Definition totalWon (a : analytics) : number :=
  fold_left (fun sum s => add sum (win s)) (spins a) zero.

Definition totalSpins (a : analytics) : nat := List.length (spins a).

Definition hundred : number := of_Z 100.

(** [totalWagered > 0 ? (...).toFixed(2) : 0] *)
Definition houseEdge (a : analytics) : value :=
  if gtb (totalWagered a) zero
  then VStr (NumberToString.toFixed
               (mul (div (sub (totalWagered a) (totalWon a)) (totalWagered a))
                  hundred) 2)
  else VNum zero.

Definition avgBet (a : analytics) : value :=
  if (0 <? totalSpins a)%nat
  then VStr (NumberToString.toFixed
               (div (totalWagered a) (of_nat (totalSpins a))) 2)
  else VNum zero.

Definition fsTriggerRate (a : analytics) : value :=
  if (0 <? totalSpins a)%nat
  then VStr (NumberToString.toFixed
               (mul (div (of_nat (List.length (freeSpins a)))
                       (of_nat (totalSpins a))) hundred) 2)
  else VNum zero.

(** The reply of [GET /stats], without [bigWinCounts], [spinsByHour] and
    [lastUpdated], which no property below reads. *)
Record stats_reply := mkStats {
  stats_totalVisits : nat;
  stats_uniqueSessions : nat;
  stats_totalSpins : nat;
  stats_totalWagered : jsstring;
  stats_totalWon : jsstring;
  stats_houseEdge : value;
  stats_avgBet : value;
  stats_topSymbols : list (jsstring * count);
  stats_fsTriggerRate : value }.

Definition stats (fs : filesystem) : stats_reply :=
  let analytics := readData fs in
  mkStats
    (List.length (visits analytics))
    (List.length (distinct (map visit_sessionId (visits analytics))))
    (totalSpins analytics)
    (NumberToString.toFixed (totalWagered analytics) 2)
    (NumberToString.toFixed (totalWon analytics) 2)
    (houseEdge analytics)
    (avgBet analytics)
    (topSymbols analytics)
    (fsTriggerRate analytics).

(* ================================================================== *)
(** ** GET /spins, GET /bigwins, GET /sessions *)

(** [Math.min(Math.max(1, parseInt(req.query.limit) || 50), 200)], the
    same expression in the three handlers. *)
Definition query_limit (q : value) : throws number :=
  option_map
    (fun n => Math_min (Math_max (of_Z 1) (or_default n (of_Z 50))) (of_Z 200))
    (parseInt q).

(** [Math.max(1, parseInt(req.query.page) || 1)] *)
Definition query_page (q : value) : throws number :=
  option_map (fun n => Math_max (of_Z 1) (or_default n (of_Z 1))) (parseInt q).

Record spins_page := mkSpinsPage {
  page_spins : list Spin;
  page_page : number;
  page_limit : number;
  page_total : nat;
  page_totalPages : number }.

Inductive answer (A : Type) :=
  | Json (a : A)
  | Failed (status : Z) (error : jsstring).
Arguments Json {A} a.
Arguments Failed {A} status error.

Definition catch {A : Type} (t : throws A) : answer A :=
  match t with
  | Some a => Json a
  | None => Failed 500 (js "Server error")
  end.

Definition bind_throws {A B : Type} (t : throws A) (k : A -> throws B)
  : throws B :=
  match t with
  | Some a => k a
  | None => None
  end.

(** [app.get('/spins', ...)] with [req.query.page] and [req.query.limit]. *)
Definition get_spins (page limit : value) (fs : filesystem)
  : answer spins_page :=
  catch
    (let analytics := readData fs in
     bind_throws (query_page page) (fun page =>
     bind_throws (query_limit limit) (fun limit =>
     let offset := mul (sub page (of_Z 1)) limit in
     let recentSpins :=
       slice (ToIntegerOrInfinity offset)
         (Some (ToIntegerOrInfinity (add offset limit)))
         (rev (slice (Fin 0) None (spins analytics))) in
     Some (mkSpinsPage recentSpins page limit
             (List.length (spins analytics))
             (Math_ceil (div (of_nat (List.length (spins analytics))) limit)))))).

(** [app.get('/bigwins', ...)] with [req.query.limit]. *)
Definition get_bigwins (limit : value) (fs : filesystem)
  : answer (list BigWin) :=
  catch
    (let analytics := readData fs in
     bind_throws (query_limit limit) (fun limit =>
     Some (slice (Fin 0) (Some (ToIntegerOrInfinity limit))
             (rev (slice (Fin 0) None (bigWins analytics)))))).

(** The limit of [app.get('/sessions', ...)]. *)
Definition sessions_limit (limit : value) : throws number := query_limit limit.

(* ================================================================== *)
(** ** GET /stats: the win tiers *)

(** A counter of [bigWinCounts]: a number, or the NaN that [++] makes of
    an inherited member. *)
Inductive tier_count :=
  | Wins (n : N)
  | NotANumber.

Definition increment (c : tier_count) : tier_count :=
  match c with
  | Wins n => Wins (n + 1)
  | NotANumber => NotANumber
  end.

Fixpoint replace {A : Type} (k : jsstring) (v : A) (o : list (jsstring * A))
  : list (jsstring * A) :=
  match o with
  | (k', v') :: r =>
      if jsstring_eqb k k' then (k', v) :: r else (k', v') :: replace k v r
  | [] => []
  end.

(** [if (bigWinCounts[w.tier] !== undefined) bigWinCounts[w.tier]++].  A
    tier that names a member of [Object.prototype] is not [undefined]: the
    increment stores NaN under that name (none of these names is an array
    index, so the key goes last; the setter of [__proto__] ignores it). *)
Definition count_tier (o : list (jsstring * tier_count)) (tier : jsstring)
  : list (jsstring * tier_count) :=
  match assoc tier o with
  | Some c => replace tier (increment c) o
  | None =>
      match assoc tier Object_prototype with
      | Some _ =>
          if jsstring_eqb tier (js "__proto__") then o
          else o ++ [(tier, NotANumber)]
      | None => o
      end
  end.

Definition bigWinCounts (a : analytics) : list (jsstring * tier_count) :=
  fold_left (fun o w => count_tier o (tier w)) (bigWins a)
    [(js "big", Wins 0); (js "mega", Wins 0); (js "epic", Wins 0)].

(* ================================================================== *)
(** ** GET /sessions: the roll-up *)

(** An entry of [sessionMap]. *)
Record Session := mkSession {
  session_sessionId : jsstring;
  startTime : jsstring;
  session_userAgent : jsstring;
  session_screenSize : jsstring;
  session_spins : number;
  wagered : number;
  won : number }.

(** A new key of an object: an array index takes its place among the
    indices, in ascending order; any other key goes last. *)
Fixpoint insert_property {A : Type} (i : N) (k : jsstring) (v : A)
  (o : list (jsstring * A)) : list (jsstring * A) :=
  match o with
  | (k', v') :: r =>
      match array_index k' with
      | Some j => if (j <? i)%N then (k', v') :: insert_property i k v r
                  else (k, v) :: o
      | None => (k, v) :: o
      end
  | [] => [(k, v)]
  end.

(** The object literal a visit opens a session with. *)
Definition new_session (v : Visit) : Session :=
  mkSession (visit_sessionId v) (visit_timestamp v) (userAgent v)
    (screenSize v) zero zero zero.

(** [if (!sessionMap[v.sessionId]) sessionMap[v.sessionId] = {...}].  An
    entry is an object, and so is every member of [Object.prototype]
    ([__proto__] included): both are truthy, and the visit is passed
    over. *)
Definition open_session (sessionMap : list (jsstring * Session)) (v : Visit)
  : list (jsstring * Session) :=
  let id := visit_sessionId v in
  match assoc id sessionMap, assoc id Object_prototype with
  | None, None =>
      match array_index id with
      | Some i => insert_property i id (new_session v) sessionMap
      | None => sessionMap ++ [(id, new_session v)]
      end
  | _, _ => sessionMap
  end.

(** [spins++; wagered += s.bet; won += s.win] *)
Definition add_to_session (x : Session) (s : Spin) : Session :=
  mkSession (session_sessionId x) (startTime x) (session_userAgent x)
    (session_screenSize x)
    (add (session_spins x) (of_Z 1))
    (add (wagered x) (bet s))
    (add (won x) (win s)).

(** [if (sessionMap[s.sessionId]) { ... }].  For a session id that names a
    member of [Object.prototype] the three updates land on that member,
    which is no entry of [sessionMap]. *)
Definition add_spin (sessionMap : list (jsstring * Session)) (s : Spin)
  : list (jsstring * Session) :=
  match assoc (spin_sessionId s) sessionMap with
  | Some x => replace (spin_sessionId s) (add_to_session x s) sessionMap
  | None => sessionMap
  end.

Definition sessionMap (a : analytics) : list (jsstring * Session) :=
  fold_left add_spin (spins a) (fold_left open_session (visits a) []).

(** [String.prototype.includes] *)
Fixpoint String_includes (s sub : jsstring) : bool :=
  starts_with sub s
  || match s with
     | [] => false
     | _ :: r => String_includes r sub
     end.

(** A session as the reply lists it. *)
Record session_row := mkRow {
  row_session : Session;
  netResult : jsstring;
  device : jsstring }.

(** [{...s, netResult: (s.won - s.wagered).toFixed(2), device: ...}] *)
Definition finish (s : Session) : session_row :=
  mkRow s
    (NumberToString.toFixed (sub (won s) (wagered s)) 2)
    (if truthy (VStr (session_userAgent s))
        && String_includes (session_userAgent s) (js "Mobile")
     then js "Mobile" else js "Desktop").

(** [new Date(b.startTime) - new Date(a.startTime)], as the sort reads it:
    its sign, a NaN counting as 0.  [time] is the time value of
    [new Date(s)]: a whole number of milliseconds of at most 8.64e15 in
    magnitude, or none for an invalid date; which strings are dates, and
    which, is the engine's matter and, without a zone, the host's.  Two
    time values differ by less than 2^55, so in double precision their
    difference has the sign of the exact one. *)
Definition by_startTime_desc (time : jsstring -> option Z) (a b : Session)
  : Z :=
  match time (startTime b), time (startTime a) with
  | Some tb, Some ta => tb - ta
  | _, _ => 0
  end.

(** [app.get('/sessions', ...)] with [req.query.limit]. *)
Definition get_sessions (time : jsstring -> option Z) (limit : value)
  (fs : filesystem) : answer (list session_row) :=
  catch
    (let analytics := readData fs in
     bind_throws (sessions_limit limit) (fun limit =>
     Some (map finish
             (slice (Fin 0) (Some (ToIntegerOrInfinity limit))
                (sort (by_startTime_desc time)
                   (map snd (sessionMap analytics))))))).

(* ================================================================== *)
(** * Vocabulary of the properties *)

(** The last [n] elements of a list. *)
Definition lastn {A : Type} (n : Z) (l : list A) : list A :=
  skipn (List.length l - Z.to_nat n) l.

(** The characters that [sanitize] removes. *)
Definition denylisted (c : N) : Prop :=
  In c [60; 62; 39; 34; 38; 92]%N \/ (c <= 31)%N \/ c = 127%N.

Definition clean (c : N) : bool := negb (is_special c) && negb (is_control c).

(** The four event kinds, their retention caps and their logs. *)
Inductive kind := KVisit | KSpin | KFreeSpins | KBigWin.

Definition cap (k : kind) : Z :=
  match k with
  | KVisit => 10000
  | KSpin => 50000
  | KFreeSpins => 5000
  | KBigWin => 5000
  end.

Definition kind_name (k : kind) : jsstring :=
  match k with
  | KVisit => js "visit"
  | KSpin => js "spin"
  | KFreeSpins => js "freeSpins"
  | KBigWin => js "bigWin"
  end.

Inductive record :=
  | RVisit (v : Visit)
  | RSpin (s : Spin)
  | RFreeSpins (f : FreeSpins)
  | RBigWin (w : BigWin).

Definition record_timestamp (r : record) : jsstring :=
  match r with
  | RVisit v => visit_timestamp v
  | RSpin s => spin_timestamp s
  | RFreeSpins f => freeSpins_timestamp f
  | RBigWin w => bigWin_timestamp w
  end.

(** The stored sequence of a kind, oldest first. *)
Definition log (k : kind) (a : analytics) : list record :=
  match k with
  | KVisit => map RVisit (visits a)
  | KSpin => map RSpin (spins a)
  | KFreeSpins => map RFreeSpins (freeSpins a)
  | KBigWin => map RBigWin (bigWins a)
  end.

(** A stored record as the next reader of the file sees it. *)
Definition json_record (r : record) : record :=
  match r with
  | RVisit v => RVisit v
  | RSpin s => RSpin (json_spin s)
  | RFreeSpins f => RFreeSpins (json_freeSpins f)
  | RBigWin w => RBigWin (json_bigWin w)
  end.

(** A run of accepted ingestion requests of one kind: each request, with
    the time it arrives at, is answered with the success acknowledgment. *)
Inductive appends (k : kind)
  : filesystem -> list (value * jsstring) -> filesystem -> Prop :=
  | appends_nil fs : appends k fs [] fs
  | appends_cons fs body timestamp fs1 rest fs' :
      track body timestamp fs = (Success, fs1) ->
      get body "eventType" = VStr (kind_name k) ->
      appends k fs1 rest fs' ->
      appends k fs ((body, timestamp) :: rest) fs'.

(** The fields a kind's [data] may carry. *)
Definition allowed_fields (k : kind) : list jsstring :=
  match k with
  | KVisit => map js ["sessionId"; "userAgent"; "screenSize"; "referrer"]
  | KSpin => map js ["sessionId"; "bet"; "win"; "symbols"]
  | KFreeSpins => map js ["sessionId"; "mode"; "totalWin"; "spinsCount"]
  | KBigWin => map js ["sessionId"; "tier"; "amount"]
  end.

(** A field that converts and parses to a finite number of [[lo, hi]]. *)
Definition parses_within (v : value) (lo hi : number) : Prop :=
  exists x, parseFloat v = Some x
            /\ isNaN x = false /\ isFinite x = true
            /\ SFleb lo x = true /\ SFleb x hi = true.

(** A field that converts and parses, but to NaN, to an infinity or to a
    number outside [[lo, hi]]. *)
Definition parses_badly (v : value) (lo hi : number) : Prop :=
  exists x, parseFloat v = Some x
            /\ (isNaN x = true \/ isFinite x = false
                \/ SFltb x lo = true \/ SFltb hi x = true).

(** The envelope and the keys of [data] pass the checks made before the
    [switch], for an event of kind [k]. *)
Definition well_formed (k : kind) (body : value) : Prop :=
  validateKeys body (KeyList (map js ["eventType"; "data"])) = Some true
  /\ get body "eventType" = VStr (kind_name k)
  /\ truthy (get body "data") = true
  /\ typeof_object (get body "data") = true
  /\ validateKeys (get body "data") (KeyList (allowed_fields k)) = Some true.

(** A number clamped to [[lo, hi]]. *)
Definition clamp (lo hi x : number) : number := Math_min (Math_max lo x) hi.

(** The limit as the interface describes it: the supplied limit clamped to
    [[1, 200]], and 50 when there is none. *)
Definition limit_as_described (q : value) : throws number :=
  match q with
  | VUndefined => Some (of_Z 50)
  | _ => option_map (clamp (of_Z 1) (of_Z 200)) (parseInt q)
  end.

(** The decimal numeral of an integer, as a query string carries it. *)
Definition numeral (z : Z) : value :=
  VStr (if z <? 0 then js "-" ++ decimal (Z.to_N (- z)) else decimal (Z.to_N z)).

Definition Zrange (lo : Z) (n : nat) : list Z :=
  map (fun i => lo + Z.of_nat i) (seq 0 n).

(** The symbols of all spins, in the order the stats handler visits them. *)
Definition all_symbols (a : analytics) : list jsstring :=
  flat_map symbols (spins a).

(** How often a symbol occurs. *)
Fixpoint occurrences (sym : jsstring) (l : list jsstring) : N :=
  match l with
  | [] => 0
  | x :: r => (if jsstring_eqb sym x then 1 else 0) + occurrences sym r
  end.

(** The (symbol, frequency) pairs of the given symbols, in their order. *)
Definition tally (keys l : list jsstring) : list (jsstring * count) :=
  map (fun k => (k, Count (occurrences k l))) keys.

Definition is_index (k : jsstring) : bool :=
  match array_index k with
  | Some _ => true
  | None => false
  end.

(** Insertion of the index [i], written [k], into keys in ascending order
    of the index they denote. *)
Fixpoint insert_key (i : N) (k : jsstring) (keys : list jsstring)
  : list jsstring :=
  match keys with
  | [] => [k]
  | k' :: r =>
      match array_index k' with
      | Some j => if (j <? i)%N then k' :: insert_key i k r else k :: keys
      | None => k :: keys
      end
  end.

Definition index_sorted (keys : list jsstring) : list jsstring :=
  fold_left (fun acc k => match array_index k with
                          | Some i => insert_key i k acc
                          | None => acc
                          end) keys [].

(** The order in which an object lists keys created in the order [keys]:
    the integer-like ones first, ascending, then the others as created. *)
Definition key_order (keys : list jsstring) : list jsstring :=
  index_sorted (filter is_index keys)
  ++ filter (fun k => negb (is_index k)) keys.

Definition count_of (e : jsstring * count) : N :=
  match snd e with
  | Count n => n
  | Text _ => 0
  end.

Definition descending (l : list (jsstring * count)) : Prop :=
  Sorted (fun x y => (count_of y <= count_of x)%N) l.

Definition has_count (c : N) (e : jsstring * count) : bool :=
  (count_of e =? c)%N.

(** The ten most frequent symbols, for symbols listed in the order [keys]:
    descending by count, equal counts in the order of [keys]. *)
Definition ranking (keys l : list jsstring) : list (jsstring * count) :=
  firstn 10 (sort by_count_desc (tally keys l)).

(** [topSymbols] as the interface describes it: ties between equal counts
    in the order in which the symbols were first seen. *)
Definition topSymbols_as_described (a : analytics) : list (jsstring * count) :=
  ranking (distinct (all_symbols a)) (all_symbols a).

(** The index an integer-like key denotes. *)
Definition index_of (k : jsstring) : N :=
  match array_index k with
  | Some i => i
  | None => 0
  end.

Definition is_count (e : jsstring * count) : Prop :=
  exists n, snd e = Count n.

(** No symbol names a member of [Object.prototype]. *)
Definition plain_symbols (a : analytics) : Prop :=
  Forall (fun sym => assoc sym Object_prototype = None) (all_symbols a).

(** For a page [P] and a limit [L] given as integers: the handler's page,
    limit and slice bounds are the exact ones. *)
Definition exact_page (P L : Z) : bool :=
  match query_page (numeral P), query_limit (numeral L) with
  | Some p, Some l =>
      eqb_struct p (of_Z P) && eqb_struct l (of_Z L)
      && match ToIntegerOrInfinity (mul (sub p (of_Z 1)) l),
               ToIntegerOrInfinity (add (mul (sub p (of_Z 1)) l) l) with
         | Fin a, Fin b => (a =? (P - 1) * L) && (b =? P * L)
         | _, _ => false
         end
  | _, _ => false
  end.

(** Every log within its cap. *)
Definition within_caps (a : analytics) : Prop :=
  forall k, Z.of_nat (List.length (log k a)) <= cap k.

(** Sample requests and disks, for concrete runs of the handlers. *)
Definition request (eventType : string) (data : list (string * value)) : value :=
  VObj [(js "eventType", VStr (js eventType));
        (js "data", VObj (map (fun p => (js (fst p), snd p)) data))].

Definition fresh_disk : filesystem := mkFilesystem Missing true.
Definition noon : jsstring := js "2024-05-01T12:00:00.000Z".
Definition sample_visit : value := request "visit" [("sessionId", VStr (js "s1"))].

Definition visit_with_extra_field : value :=
  request "visit" [("sessionId", VStr (js "s1")); ("admin", VBool true)].

Definition visit_with_numeric_session : value :=
  request "visit" [("sessionId", VNum (of_Z 123))].

Definition spin_with_text_bet : value :=
  request "spin" [("bet", VStr (js "abc"))].

Definition spin_with_opaque_bet : value :=
  request "spin" [("bet", VObj [(js "toString", VNum zero)]);
                  ("win", VNum (of_Z 1))].

Definition spin_with_empty_bet : value :=
  request "spin" [("bet", VObj []); ("win", VNum (of_Z 1))].

(** Requests served one after the other, all arriving at [noon]: the
    replies, and the file system at the end. *)
Fixpoint serve (bodies : list value) (fs : filesystem)
  : list reply * filesystem :=
  match bodies with
  | [] => ([], fs)
  | body :: rest =>
      let (r, fs1) := track body noon fs in
      let (rs, fs') := serve rest fs1 in
      (r :: rs, fs')
  end.

Definition spin_of (bet win : Z) : value :=
  request "spin" [("bet", VNum (of_Z bet)); ("win", VNum (of_Z win))].

(** Three losing spins of 10 and one spin of 10 that wins 100. *)
Definition four_spins : list value :=
  [spin_of 10 0; spin_of 10 0; spin_of 10 0; spin_of 10 100].

Definition one_spin (syms : list string) : analytics :=
  mkAnalytics [] [mkSpin noon [] (of_Z 1) zero (map js syms)] [] [].

(* ------------------------------------------------------------------ *)
(** ** Vocabulary of the further properties *)

(** A stored text field: at most [max] code units, none denylisted. *)
Definition tidy (max : nat) (s : jsstring) : Prop :=
  (List.length s <= max)%nat /\ forall c, In c s -> ~ denylisted c.

(** A stored amount: a finite number of [[0, hi]]. *)
Definition amount_within (hi : Z) (x : number) : Prop :=
  isFinite x = true /\ SFleb zero x = true /\ SFleb x (of_Z hi) = true.

(** What the ingestion handler guarantees of every record it stores. *)
Definition valid_record (r : record) : Prop :=
  match r with
  | RVisit v =>
      tidy 50 (visit_sessionId v) /\ tidy 300 (userAgent v)
      /\ tidy 20 (screenSize v) /\ tidy 200 (referrer v)
  | RSpin s =>
      tidy 50 (spin_sessionId s)
      /\ amount_within 10000 (bet s) /\ amount_within 10000000 (win s)
      /\ (List.length (symbols s) <= 18)%nat
      /\ Forall (tidy 20) (symbols s)
  | RFreeSpins f =>
      tidy 50 (freeSpins_sessionId f) /\ tidy 20 (mode f)
      /\ amount_within 10000000 (totalWin f)
      /\ amount_within 100 (spinsCount f)
  | RBigWin w =>
      tidy 50 (bigWin_sessionId w)
      /\ In (tier w) (map js ["big"; "mega"; "epic"])
      /\ amount_within 10000000 (amount w)
  end.

Definition valid_store (a : analytics) : Prop :=
  forall k r, In r (log k a) -> valid_record r.

Definition record_sessionId (r : record) : jsstring :=
  match r with
  | RVisit v => visit_sessionId v
  | RSpin s => spin_sessionId s
  | RFreeSpins f => freeSpins_sessionId f
  | RBigWin w => bigWin_sessionId w
  end.

(** A record pushed on the log of its kind, under that log's cap. *)
Definition push_record (r : record) (a : analytics) : analytics :=
  match r with
  | RVisit v =>
      mkAnalytics (push_capped 10000 (visits a) v) (spins a) (freeSpins a)
        (bigWins a)
  | RSpin s =>
      mkAnalytics (visits a) (push_capped 50000 (spins a) s) (freeSpins a)
        (bigWins a)
  | RFreeSpins f =>
      mkAnalytics (visits a) (spins a) (push_capped 5000 (freeSpins a) f)
        (bigWins a)
  | RBigWin w =>
      mkAnalytics (visits a) (spins a) (freeSpins a)
        (push_capped 5000 (bigWins a) w)
  end.

(** A stream of ingestion requests, each with the time it arrives at,
    served one after the other whatever the replies. *)
Definition ingest (reqs : list (value * jsstring)) (fs : filesystem)
  : filesystem :=
  fold_left (fun fs r => snd (track (fst r) (snd r) fs)) reqs fs.

(** The data file cannot be loaded. *)
Definition unloadable (fs : filesystem) : Prop :=
  file fs = Missing \/ file fs = Unreadable \/ file fs = Corrupt.

(** The tiers of the stored big wins. *)
Definition tiers (a : analytics) : list jsstring := map tier (bigWins a).

(** The spins on page [P] of the spins query, for a limit [L]. *)
Definition page_of (P L : Z) (fs : filesystem) : list Spin :=
  match get_spins (numeral P) (numeral L) fs with
  | Json r => page_spins r
  | Failed _ _ => []
  end.

(** [Math.ceil(n / L)] is the exact number of pages. *)
Definition exact_page_count (n L : Z) : bool :=
  eqb_struct (Math_ceil (div (of_Z n) (of_Z L))) (of_Z ((n + L - 1) / L)).

(** The limit [c] of [1, 200] is read back as the integer [c]. *)
Definition exact_limit (c : Z) : bool :=
  match ToIntegerOrInfinity (of_Z c) with
  | Fin z => z =? c
  | _ => false
  end.

Definition big_win_of (sessionId : string) (tier : value) (amount : Z) : value :=
  request "bigWin" [("sessionId", VStr (js sessionId)); ("tier", tier);
                    ("amount", VNum (of_Z amount))].

(** A name that every object inherits from [Object.prototype]. *)
Definition inherited (k : jsstring) : bool :=
  match assoc k Object_prototype with
  | Some _ => true
  | None => false
  end.

(** The keys of [sessionMap], in the order [Object.values] follows: the
    distinct session ids of the visits, but for inherited names. *)
Definition session_ids (vs : list Visit) : list jsstring :=
  key_order
    (distinct (filter (fun k => negb (inherited k)) (map visit_sessionId vs))).

(** The first visit of a session. *)
Definition first_visit (vs : list Visit) (id : jsstring) : option Visit :=
  find (fun v => jsstring_eqb (visit_sessionId v) id) vs.

(** The spins of a session. *)
Definition spins_of (a : analytics) (id : jsstring) : list Spin :=
  filter (fun s => jsstring_eqb (spin_sessionId s) id) (spins a).

(** A sum as [+=] accumulates it, from 0 and in the order of the list. *)
Definition running_sum (l : list number) : number := fold_left add l zero.

(** The session a visit opens, with the count of its spins and the sums of
    their bets and wins. *)
Definition rollup (a : analytics) (v : Visit) : Session :=
  let mine := spins_of a (visit_sessionId v) in
  mkSession (visit_sessionId v) (visit_timestamp v) (userAgent v)
    (screenSize v)
    (of_nat (List.length mine))
    (running_sum (map bet mine))
    (running_sum (map win mine)).

(** Counting one more is exact: [n + 1] in double precision is the
    integer [n + 1]. *)
Definition exact_successor (n : Z) : bool :=
  eqb_struct (add (of_Z n) (of_Z 1)) (of_Z (n + 1)).

(** [exact_successor] for the [k] integers from [n] on. *)
Fixpoint exact_successors (k : nat) (n : Z) : bool :=
  match k with
  | O => true
  | S k => exact_successor n && exact_successors k (n + 1)
  end.

(** The time value of a session's start, 0 for an invalid date. *)
Definition started (time : jsstring -> option Z) (x : Session) : Z :=
  match time (startTime x) with
  | Some t => t
  | None => 0
  end.

Definition by_started_desc (time : jsstring -> option Z) (a b : Session) : Z :=
  started time b - started time a.

(** A clock for examples: the digits of a timestamp read as one number,
    which orders timestamps of one shape as their dates. *)
Definition digits_clock (s : jsstring) : option Z :=
  Some (digits_value (filter is_digit s)).

Definition visit_of (session agent : string) : value :=
  request "visit" [("sessionId", VStr (js session));
                   ("userAgent", VStr (js agent))].

(** A session whose start is a date. *)
Definition dated (time : jsstring -> option Z) (x : Session) : Prop :=
  time (startTime x) <> None.

(** Sessions in the order of their start, the most recent first. *)
Definition most_recent_first (time : jsstring -> option Z) (l : list Session)
  : Prop :=
  Sorted (fun x y => started time y <= started time x) l.

Definition started_at (time : jsstring -> option Z) (t : Z) (x : Session)
  : bool :=
  started time x =? t.

Definition spin_in (session : string) (bet win : Z) : value :=
  request "spin" [("sessionId", VStr (js session));
                  ("bet", VNum (of_Z bet)); ("win", VNum (of_Z win))].

(** Two visitors, the second on a phone, and three spins of the first. *)
Definition two_sessions : list (value * jsstring) :=
  [(visit_of "s1" "Mozilla/5.0 (X11; Linux x86_64)",
    js "2024-05-01T12:00:00.000Z");
   (visit_of "7" "Mozilla/5.0 (iPhone) Mobile/15E148",
    js "2024-05-01T12:05:00.000Z");
   (spin_in "s1" 10 0, js "2024-05-01T12:06:00.000Z");
   (spin_in "s1" 10 25, js "2024-05-01T12:07:00.000Z");
   (visit_of "s1" "curl/8.0", js "2024-05-01T12:08:00.000Z");
   (spin_in "s1" 5 0, js "2024-05-01T12:09:00.000Z")].

(* ================================================================== *)
(** * Properties *)

(** ** Strings and slices *)

Lemma jsstring_eqb_eq (a b : jsstring) : jsstring_eqb a b = true <-> a = b.
Proof.
  revert b; induction a as [|x a IH]; intros [|y b]; simpl; split;
    try discriminate; try reflexivity.
  - intros H. apply andb_true_iff in H as [Hx Hr].
    apply N.eqb_eq in Hx. apply IH in Hr. now subst.
  - intros H. injection H as -> ->.
    rewrite N.eqb_refl. simpl. now apply IH.
Qed.

Lemma jsstring_eqb_refl (a : jsstring) : jsstring_eqb a a = true.
Proof. now apply jsstring_eqb_eq. Qed.

Lemma jsstring_eqb_neq (a b : jsstring) : jsstring_eqb a b = false <-> a <> b.
Proof.
  split.
  - intros H E. apply jsstring_eqb_eq in E. congruence.
  - intros H. destruct (jsstring_eqb a b) eqn:E; [|reflexivity].
    apply jsstring_eqb_eq in E. contradiction.
Qed.

Lemma includes_In (l : list jsstring) (k : jsstring) :
  includes l k = true <-> In k l.
Proof.
  unfold includes. rewrite existsb_exists. split.
  - intros (x & Hx & E). apply jsstring_eqb_eq in E. now subst.
  - intros H. exists k. split; [assumption | apply jsstring_eqb_refl].
Qed.

Lemma slice_prefix {A : Type} (n : nat) (l : list A) :
  slice (Fin 0) (Some (Fin (Z.of_nat n))) l = firstn n l.
Proof.
  unfold slice, relative_index.
  replace (0 <? 0) with false by reflexivity.
  replace (Z.of_nat n <? 0) with false by (symmetry; apply Z.ltb_ge; lia).
  rewrite (Z.min_l 0) by lia. simpl skipn.
  destruct (Nat.le_ge_cases n (List.length l)) as [H|H].
  - f_equal. lia.
  - rewrite Z.min_r by lia.
    replace (Z.to_nat (Z.of_nat (List.length l) - 0)) with (List.length l) by lia.
    rewrite firstn_all. symmetry. now apply firstn_all2.
Qed.

Lemma slice_copy {A : Type} (l : list A) : slice (Fin 0) None l = l.
Proof.
  unfold slice, relative_index.
  replace (0 <? 0) with false by reflexivity.
  rewrite Z.min_l by lia. simpl skipn.
  replace (Z.to_nat (Z.of_nat (List.length l) - 0)) with (List.length l) by lia.
  apply firstn_all.
Qed.

Lemma slice_suffix {A : Type} (n : Z) (l : list A) :
  0 < n -> slice (Fin (- n)) None l = lastn n l.
Proof.
  intros Hn. unfold slice, relative_index, lastn.
  replace (- n <? 0) with true by (symmetry; apply Z.ltb_lt; lia).
  set (len := List.length l).
  replace (Z.to_nat (Z.max (Z.of_nat len + - n) 0)) with (len - Z.to_nat n)%nat by lia.
  apply firstn_all2. rewrite length_skipn. fold len. lia.
Qed.

Lemma lastn_length {A : Type} (n : Z) (l : list A) :
  List.length (lastn n l) = Nat.min (Z.to_nat n) (List.length l).
Proof. unfold lastn. rewrite length_skipn. lia. Qed.

Lemma lastn_all {A : Type} (n : Z) (l : list A) :
  Z.of_nat (List.length l) <= n -> lastn n l = l.
Proof.
  intros H. unfold lastn.
  replace (List.length l - Z.to_nat n)%nat with 0%nat by lia. reflexivity.
Qed.

Lemma lastn_app {A : Type} (n : Z) (l l' : list A) :
  lastn n (lastn n l ++ l') = lastn n (l ++ l').
Proof.
  unfold lastn. rewrite !length_app, length_skipn.
  set (len := List.length l). set (c := Z.to_nat n).
  destruct (Nat.le_ge_cases len c) as [H|H].
  - replace (len - c)%nat with 0%nat by lia. simpl skipn. fold len.
    f_equal. lia.
  - rewrite !skipn_app, length_skipn. fold len.
    rewrite skipn_skipn.
    replace (len - (len - c) + List.length l' - c + (len - c))%nat
      with (len + List.length l' - c)%nat by lia.
    f_equal. f_equal. lia.
Qed.

Lemma lastn_map {A B : Type} (f : A -> B) (n : Z) (l : list A) :
  lastn n (map f l) = map f (lastn n l).
Proof. unfold lastn. now rewrite length_map, skipn_map. Qed.

(** [push_capped] keeps the last [cap] elements. *)
Lemma push_capped_lastn {A : Type} (cap : Z) (arr : list A) (r : A) :
  0 < cap -> push_capped cap arr r = lastn cap (arr ++ [r]).
Proof.
  intros Hc. unfold push_capped.
  destruct (cap <? Z.of_nat (List.length (arr ++ [r]))) eqn:E.
  - now apply slice_suffix.
  - apply Z.ltb_ge in E. symmetry. now apply lastn_all.
Qed.

(* ------------------------------------------------------------------ *)
(** ** Sanitization *)

Lemma clean_denylisted (c : N) : clean c = true <-> ~ denylisted c.
Proof.
  unfold clean, denylisted, is_special, is_control.
  rewrite andb_true_iff, !negb_true_iff. split.
  - intros [Hs Hc] [H|H].
    + assert (existsb (N.eqb c) [60; 62; 39; 34; 38; 92]%N = true); [|congruence].
      apply existsb_exists. exists c. split; [assumption | apply N.eqb_refl].
    + apply orb_false_iff in Hc as [H1 H2].
      apply N.leb_gt in H1. apply N.eqb_neq in H2. lia.
  - intros H. split.
    + destruct (existsb _ _) eqn:E; [|reflexivity].
      apply existsb_exists in E as (x & Hx & E). apply N.eqb_eq in E. subst x.
      exfalso. apply H. now left.
    + apply orb_false_iff. split.
      * apply N.leb_gt. destruct (N.le_gt_cases c 31); [|lia].
        exfalso. apply H. right. now left.
      * apply N.eqb_neq. intros E. apply H. right. now right.
Qed.

Lemma sanitize_string (s : jsstring) (m : nat) :
  sanitize (VStr s) m = filter clean (firstn m s).
Proof.
  unfold sanitize. rewrite slice_prefix.
  induction (firstn m s) as [|c l IH]; [reflexivity|].
  simpl. unfold clean at 1.
  destruct (is_special c); simpl; [assumption|].
  destruct (is_control c); simpl; [assumption|]. now f_equal.
Qed.

Lemma filter_idempotent {A : Type} (f : A -> bool) (l : list A) :
  filter f (filter f l) = filter f l.
Proof.
  induction l as [|x l IH]; [reflexivity|].
  simpl. destruct (f x) eqn:E; simpl; [rewrite E; now f_equal | assumption].
Qed.

Lemma filter_length_le {A : Type} (f : A -> bool) (l : list A) :
  (List.length (filter f l) <= List.length l)%nat.
Proof.
  induction l as [|x l IH]; [reflexivity|].
  simpl. destruct (f x); simpl; lia.
Qed.

Lemma sanitize_length (v : value) (m : nat) :
  (List.length (sanitize v m) <= m)%nat.
Proof.
  destruct v; try (simpl; lia).
  rewrite sanitize_string.
  etransitivity; [apply filter_length_le|]. rewrite length_firstn. lia.
Qed.

(** C3. Sanitization is idempotent, its output holds no denylisted character
    (angle brackets, quotes, ampersand, backslash, the control characters
    0x00-0x1F and 0x7F), and its output is at most [m] code units long. *)
Theorem sanitize_idempotent_clean_bounded (x : jsstring) (m : nat) :
  sanitize (VStr (sanitize (VStr x) m)) m = sanitize (VStr x) m
  /\ (forall c, In c (sanitize (VStr x) m) -> ~ denylisted c)
  /\ (List.length (sanitize (VStr x) m) <= m)%nat.
Proof.
  split; [|split].
  - rewrite (sanitize_string (sanitize (VStr x) m)).
    rewrite firstn_all2 by apply sanitize_length.
    rewrite sanitize_string. apply filter_idempotent.
  - intros c H. rewrite sanitize_string in H.
    apply filter_In in H as [_ H]. now apply clean_denylisted.
  - apply sanitize_length.
Qed.

(* ------------------------------------------------------------------ *)
(** ** The ingestion handler, case by case *)

Ltac destruct_match_in H :=
  match type of H with
  | context [match ?x with _ => _ end] =>
      let E := fresh "E" in destruct x eqn:E
  end.

Ltac step_inv H :=
  repeat (first
    [ discriminate H
    | progress (unfold bind, try, reject_if, bad_request in H)
    | destruct_match_in H ]).

(** What an accepted request went through. *)
Lemma track_body_continue (body : value) (timestamp : jsstring)
  (fs fs' : filesystem) :
  track_body body timestamp fs = Continue fs' ->
  exists name schema a',
    get body "eventType" = VStr name
    /\ validateKeys body (KeyList (map js ["eventType"; "data"])) = Some true
    /\ EVENT_SCHEMAS name = Some schema
    /\ validateKeys (get body "data") schema = Some true
    /\ append_event name (get body "data") timestamp (readData fs) = Continue a'
    /\ fs' = snd (writeData fs a').
Proof.
  unfold track_body. intros H.
  unfold bind at 1, try at 1 in H.
  destruct body; try discriminate H;
    unfold bind at 1, reject_if at 1 in H;
    (destruct (negb _ || negb _); [discriminate H|]);
    unfold bind at 1, try at 1 in H;
    (destruct (validateKeys _ _) as [[|]|] eqn:Eb; try discriminate H);
    unfold bind at 1, reject_if at 1 in H; simpl negb in H; cbv iota in H;
    unfold bind at 1, reject_if at 1 in H;
    (destruct (negb _ || negb _); [discriminate H|]);
    unfold bind at 1, reject_if at 1 in H;
    (destruct (negb _ || negb _); [discriminate H|]);
    (destruct (get _ "eventType") as [| | | |name| |] eqn:En; try discriminate H);
    (destruct (EVENT_SCHEMAS name) as [schema|] eqn:Es; [|discriminate H]);
    unfold bind at 1, try at 1 in H;
    (destruct (validateKeys _ schema) as [[|]|] eqn:Ed; try discriminate H);
    unfold bind at 1, reject_if at 1 in H; simpl negb in H; cbv iota in H;
    unfold bind at 1 in H;
    (destruct (append_event _ _ _ _) as [|a'] eqn:Ea; [discriminate H|]);
    injection H as <-;
    exists name, schema, a'; repeat split; assumption.
Qed.

Ltac eval_eqb_in H :=
  repeat match type of H with
  | context [jsstring_eqb (js ?a) (js ?b)] =>
      let v := eval vm_compute in (jsstring_eqb (js a) (js b)) in
      change (jsstring_eqb (js a) (js b)) with v in H
  end.

Lemma log_json_roundtrip (k : kind) (a : analytics) :
  log k (json_roundtrip a) = map json_record (log k a).
Proof.
  destruct k; simpl; rewrite !map_map; reflexivity.
Qed.

Lemma json_number_idempotent (x : number) :
  json_number (json_number x) = json_number x.
Proof. now destruct x. Qed.

Lemma json_record_idempotent (r : record) :
  json_record (json_record r) = json_record r.
Proof.
  destruct r as [v|s|f|w]; simpl; try reflexivity; f_equal.
  - unfold json_spin; simpl. now rewrite !json_number_idempotent.
  - unfold json_freeSpins; simpl. now rewrite !json_number_idempotent.
  - unfold json_bigWin; simpl. now rewrite !json_number_idempotent.
Qed.

Lemma json_record_timestamp (r : record) :
  record_timestamp (json_record r) = record_timestamp r.
Proof. now destruct r. Qed.

(** The [switch] appends one record to the log of the event's kind, keeps
    the last [cap] records of that log, and leaves the other logs alone. *)
Lemma append_event_log (k : kind) (data : value) (timestamp : jsstring)
  (a a' : analytics) :
  append_event (kind_name k) data timestamp a = Continue a' ->
  exists r,
    record_timestamp r = timestamp
    /\ log k a' = lastn (cap k) (log k a ++ [r])
    /\ forall k', k' <> k -> log k' a' = log k' a.
Proof.
  intros H. unfold append_event in H.
  destruct k; unfold kind_name in H; eval_eqb_in H; cbv iota in H.
  - unfold bind, reject_if in H.
    destruct (negb _); [discriminate H|]. injection H as <-.
    eexists (RVisit (mkVisit timestamp _ _ _ _)). split; [reflexivity|]. split.
    + simpl. rewrite push_capped_lastn by lia.
      now rewrite <- lastn_map, map_app.
    + intros [| | |] Hk; try reflexivity. contradiction.
  - unfold bind at 1, try at 1 in H.
    destruct (validateNumber _ _ _) as [bet|]; [|discriminate H].
    unfold bind at 1, try at 1 in H.
    destruct (validateNumber _ _ _) as [win|]; [|discriminate H].
    destruct bet as [bet|]; [|discriminate H].
    destruct win as [win|]; [|discriminate H].
    unfold bind, try in H.
    match type of H with
    | match match ?x with _ => _ end with _ => _ end = _ =>
        destruct x as [syms|]; [|discriminate H]
    end.
    injection H as <-.
    eexists (RSpin (mkSpin timestamp _ _ _ _)). split; [reflexivity|]. split.
    + simpl. rewrite push_capped_lastn by lia.
      now rewrite <- lastn_map, map_app.
    + intros [| | |] Hk; try reflexivity. contradiction.
  - unfold bind at 1, try at 1 in H.
    destruct (validateNumber _ _ _) as [fsWin|]; [|discriminate H].
    destruct fsWin as [fsWin|]; [|discriminate H].
    unfold bind, try in H.
    destruct (validateNumber _ _ _) as [count|]; [|discriminate H].
    injection H as <-.
    eexists (RFreeSpins (mkFreeSpins timestamp _ _ _ _)). split; [reflexivity|]. split.
    + simpl. rewrite push_capped_lastn by lia.
      now rewrite <- lastn_map, map_app.
    + intros [| | |] Hk; try reflexivity. contradiction.
  - unfold bind, try in H.
    destruct (validateNumber _ _ _) as [amount|]; [|discriminate H].
    destruct amount as [amount|]; [|discriminate H].
    injection H as <-.
    eexists (RBigWin (mkBigWin timestamp _ _ _)). split; [reflexivity|]. split.
    + simpl. rewrite push_capped_lastn by lia.
      now rewrite <- lastn_map, map_app.
    + intros [| | |] Hk; try reflexivity. contradiction.
Qed.

Lemma readData_writeData (fs : filesystem) (a : analytics) :
  writable fs = true ->
  readData (snd (writeData fs a)) = json_roundtrip a
  /\ writable (snd (writeData fs a)) = true.
Proof. intros H. unfold writeData. rewrite H. now split. Qed.

(** One accepted request of kind [k], on a writable disk. *)
Lemma track_append (k : kind) (body : value) (timestamp : jsstring)
  (fs fs' : filesystem) :
  track body timestamp fs = (Success, fs') ->
  get body "eventType" = VStr (kind_name k) ->
  writable fs = true ->
  writable fs' = true
  /\ exists r,
       record_timestamp r = timestamp
       /\ json_record r = r
       /\ log k (readData fs')
          = lastn (cap k) (map json_record (log k (readData fs)) ++ [r])
       /\ forall k', k' <> k ->
            log k' (readData fs') = map json_record (log k' (readData fs)).
Proof.
  intros H Hk Hw. unfold track in H.
  destruct (track_body body timestamp fs) as [|fs1] eqn:E; [discriminate H|].
  injection H as <-.
  apply track_body_continue in E
    as (name & schema & a' & Hn & _ & _ & _ & Ha & ->).
  rewrite Hk in Hn. injection Hn as <-.
  destruct (readData_writeData fs a' Hw) as [Hr Hw'].
  split; [assumption|].
  apply append_event_log in Ha as (r & Ht & Hl & Ho).
  exists (json_record r). rewrite Hr, !log_json_roundtrip, Hl.
  split; [now rewrite json_record_timestamp|].
  split; [apply json_record_idempotent|]. split.
  - now rewrite <- lastn_map, map_app.
  - intros k' Hk'. rewrite log_json_roundtrip. f_equal. now apply Ho.
Qed.

Lemma map_json_record_fixed (l : list record) :
  map json_record (map json_record l) = map json_record l.
Proof.
  rewrite map_map. apply map_ext. intros r. apply json_record_idempotent.
Qed.

(** A run of accepted requests of kind [k] leaves the last [cap k] records
    of the old log followed by the new records. *)
Lemma appends_window (k : kind) (fs : filesystem)
  (reqs : list (value * jsstring)) (fs' : filesystem) :
  appends k fs reqs fs' ->
  writable fs = true ->
  reqs <> [] ->
  exists rs,
    map record_timestamp rs = map snd reqs
    /\ log k (readData fs')
       = lastn (cap k) (map json_record (log k (readData fs)) ++ rs).
Proof.
  induction 1 as [fs|fs body timestamp fs1 rest fs' Ht Hk Hrest IH];
    intros Hw Hne; [contradiction|].
  destruct (track_append k _ _ _ _ Ht Hk Hw) as (Hw1 & r & Hr & Hj & Hl & _).
  destruct rest as [|req rest].
  - inversion Hrest; subst. exists [r]. now split.
  - destruct (IH Hw1) as (rs & Hts & Hlog); [discriminate|].
    exists (r :: rs). split.
    + simpl. now rewrite Hr, Hts.
    + rewrite Hlog, Hl, <- lastn_map, map_app, map_json_record_fixed.
      simpl map. rewrite Hj, lastn_app, <- app_assoc. reflexivity.
Qed.

(** C1. For each of the four kinds (Visit 10000, Spin 50000, FreeSpinsRound
    5000, BigWin 5000) and every run of accepted appends of that kind, the
    stored sequence is within its cap afterwards; it is the last [cap]
    records of the old sequence (as the file gives it back) followed by the
    appended records, one per request and in the order of the requests, so
    the oldest records are the ones dropped and exactly [cap] records
    remain when the appends overflow the cap. *)
Theorem retention_window (k : kind) (fs : filesystem)
  (reqs : list (value * jsstring)) (fs' : filesystem) :
  writable fs = true ->
  reqs <> [] ->
  appends k fs reqs fs' ->
  let before := map json_record (log k (readData fs)) in
  let after := log k (readData fs') in
  Z.of_nat (List.length after) <= cap k
  /\ (exists rs, map record_timestamp rs = map snd reqs
                 /\ after = lastn (cap k) (before ++ rs))
  /\ (cap k < Z.of_nat (List.length before + List.length reqs) ->
      Z.of_nat (List.length after) = cap k).
Proof.
  intros Hw Hne Happ before after.
  destruct (appends_window k fs reqs fs' Happ Hw Hne) as (rs & Hts & Hlog).
  fold before after in Hlog.
  assert (Hlen : List.length rs = List.length reqs).
  { rewrite <- (length_map record_timestamp), Hts. apply length_map. }
  assert (Hcap : 0 < cap k) by (destruct k; reflexivity).
  assert (Hafter : List.length after
                   = Nat.min (Z.to_nat (cap k))
                       (List.length before + List.length reqs)).
  { rewrite Hlog, lastn_length, length_app. now rewrite Hlen. }
  split; [lia|]. split; [|lia].
  exists rs. now split.
Qed.

Lemma retention_window_witness :
  Z.of_nat (List.length (log KVisit
    (readData (snd (track sample_visit noon fresh_disk))))) <= cap KVisit.
Proof.
  refine (proj1 (retention_window KVisit fresh_disk [(sample_visit, noon)]
                   (snd (track sample_visit noon fresh_disk)) eq_refl _ _)).
  - discriminate.
  - eapply appends_cons.
    + vm_compute. reflexivity.
    + reflexivity.
    + apply appends_nil.
Defined.

(** Whatever the request and its outcome, logs that were within their caps
    stay within them. *)
Lemma append_event_other (name : jsstring) (data : value)
  (timestamp : jsstring) (a a' : analytics) :
  append_event name data timestamp a = Continue a' ->
  (exists k, name = kind_name k) \/ a' = a.
Proof.
  intros H. unfold append_event in H.
  destruct (jsstring_eqb name (js "visit")) eqn:E1;
    [left; exists KVisit; now apply jsstring_eqb_eq|].
  destruct (jsstring_eqb name (js "spin")) eqn:E2;
    [left; exists KSpin; now apply jsstring_eqb_eq|].
  destruct (jsstring_eqb name (js "freeSpins")) eqn:E3;
    [left; exists KFreeSpins; now apply jsstring_eqb_eq|].
  destruct (jsstring_eqb name (js "bigWin")) eqn:E4;
    [left; exists KBigWin; now apply jsstring_eqb_eq|].
  right. now injection H.
Qed.

Lemma kind_eq_dec (k k' : kind) : {k = k'} + {k <> k'}.
Proof. decide equality. Qed.

Lemma within_caps_json (a : analytics) :
  within_caps a -> within_caps (json_roundtrip a).
Proof.
  intros H k. rewrite log_json_roundtrip, length_map. apply H.
Qed.

Lemma track_within_caps (body : value) (timestamp : jsstring)
  (fs : filesystem) :
  within_caps (readData fs) ->
  within_caps (readData (snd (track body timestamp fs))).
Proof.
  intros H. unfold track.
  destruct (track_body body timestamp fs) as [|fs1] eqn:E; [exact H|].
  apply track_body_continue in E
    as (name & schema & a' & _ & _ & _ & _ & Ha & ->).
  unfold writeData. destruct (writable fs); [|exact H].
  simpl snd. change (within_caps (json_roundtrip a')).
  apply within_caps_json.
  destruct (append_event_other _ _ _ _ _ Ha) as [[k ->]| ->]; [|exact H].
  apply append_event_log in Ha as (r & _ & Hl & Ho).
  intros k'. destruct (kind_eq_dec k' k) as [->|Hk].
  - rewrite Hl, lastn_length. destruct k; simpl cap; lia.
  - rewrite (Ho k' Hk). apply H.
Qed.

(** The handler once the envelope itself has passed: what is left are the
    check of the data keys, the [switch] and the write. *)
Lemma track_body_envelope (body : value) (timestamp : jsstring)
  (fs : filesystem) (name : jsstring) (schema : allowed) :
  validateKeys body (KeyList (map js ["eventType"; "data"])) = Some true ->
  get body "eventType" = VStr name ->
  name <> [] ->
  truthy (get body "data") = true ->
  typeof_object (get body "data") = true ->
  EVENT_SCHEMAS name = Some schema ->
  track_body body timestamp fs
  = (ok <- try (validateKeys (get body "data") schema) ;;
     reject_if (negb ok) "Invalid data fields" ;;;
     analytics' <- append_event name (get body "data") timestamp (readData fs) ;;
     Continue (snd (writeData fs analytics'))).
Proof.
  intros Hv Hn Hne Ht Ho Hs.
  destruct body as [| | | | | |props]; try discriminate Hn.
  unfold track_body. cbn [try bind truthy typeof_object negb orb reject_if].
  rewrite Hv. cbn [try bind negb reject_if].
  rewrite Hn, Ht, Ho.
  destruct name as [|c name]; [contradiction|].
  cbn [truthy typeof_string negb orb reject_if bind].
  now rewrite Hs.
Qed.

Lemma kind_name_nonempty (k : kind) : kind_name k <> [].
Proof. destruct k; discriminate. Qed.

Lemma forallb_false_witness {A : Type} (f : A -> bool) (l : list A) (x : A) :
  In x l -> f x = false -> forallb f l = false.
Proof.
  intros Hin Hf. destruct (forallb f l) eqn:E; [|reflexivity].
  rewrite forallb_forall in E. rewrite (E x Hin) in Hf. discriminate.
Qed.

(** An object or array with a key outside the list fails [validateKeys]. *)
Lemma validateKeys_unknown_key (obj : value) (keys : list jsstring)
  (k : jsstring) :
  In k (Object_keys obj) -> ~ In k keys ->
  validateKeys obj (KeyList keys) = Some false.
Proof.
  intros Hin Hout. unfold validateKeys.
  destruct obj; try contradiction; cbn [truthy typeof_object negb orb];
    f_equal; apply (forallb_false_witness _ _ k Hin);
    destruct (includes keys k) eqn:E; try reflexivity;
    apply includes_In in E; contradiction.
Qed.

Lemma has_key_object (obj : value) (k : jsstring) :
  In k (Object_keys obj) ->
  truthy obj = true /\ typeof_object obj = true.
Proof. destruct obj; try contradiction; now split. Qed.

Lemma EVENT_SCHEMAS_kind (k : kind) :
  EVENT_SCHEMAS (kind_name k) = Some (KeyList (allowed_fields k)).
Proof. now destruct k. Qed.

Lemma validateKeys_list_total (obj : value) (keys : list jsstring) :
  exists b, validateKeys obj (KeyList keys) = Some b.
Proof.
  unfold validateKeys. destruct (negb _ || negb _); eexists; reflexivity.
Qed.

(** C2. A request whose envelope has a top-level key other than
    [eventType] and [data], or whose [data] has a key outside the allowed
    fields of its event kind, is rejected with a client error (400), and the
    stored document is left as it was. *)
Theorem unknown_keys_rejected (body : value) (timestamp : jsstring)
  (fs : filesystem) :
  (exists key, In key (Object_keys body)
               /\ ~ In key (map js ["eventType"; "data"]))
  \/ (exists k key, get body "eventType" = VStr (kind_name k)
                    /\ In key (Object_keys (get body "data"))
                    /\ ~ In key (allowed_fields k)) ->
  exists msg, track body timestamp fs = (Error 400 msg, fs).
Proof.
  assert (Hextra : validateKeys body (KeyList (map js ["eventType"; "data"]))
                   = Some false ->
                   Object_keys body <> [] ->
                   track body timestamp fs
                   = (Error 400 (js "Invalid request"), fs)).
  { intros Hv Hk. unfold track, track_body.
    destruct body; try (exfalso; now apply Hk);
      cbn [try bind truthy typeof_object negb orb reject_if];
      rewrite Hv; reflexivity. }
  intros [(key & Hin & Hout) | (k & key & Hn & Hin & Hout)].
  - exists (js "Invalid request"). apply Hextra.
    + now apply validateKeys_unknown_key with key.
    + intros E. rewrite E in Hin. contradiction.
  - destruct (validateKeys_list_total body (map js ["eventType"; "data"]))
      as [[|] Hv].
    + exists (js "Invalid data fields").
      destruct (has_key_object _ _ Hin) as [Ht Ho].
      unfold track.
      rewrite (track_body_envelope body timestamp fs _ _ Hv Hn
                 (kind_name_nonempty k) Ht Ho (EVENT_SCHEMAS_kind k)).
      now rewrite (validateKeys_unknown_key _ _ _ Hin Hout).
    + exists (js "Invalid request"). apply Hextra; [assumption|].
      destruct body; try discriminate Hn.
      destruct props; [discriminate Hn | discriminate].
Qed.

Lemma unknown_keys_rejected_witness :
  exists msg, track visit_with_extra_field noon fresh_disk
              = (Error 400 msg, fresh_disk).
Proof.
  apply unknown_keys_rejected. right. exists KVisit, (js "admin").
  split; [reflexivity|]. split.
  - vm_compute. tauto.
  - vm_compute. intuition discriminate.
Defined.

(* ------------------------------------------------------------------ *)
(** ** Persistence failures *)

(** Up to the write, the handler does not look at whether the disk can be
    written: it replies the same, and a failed write leaves the file. *)
Lemma track_body_write_failure (body : value) (timestamp : jsstring)
  (f : file_state) :
  match track_body body timestamp (mkFilesystem f true),
        track_body body timestamp (mkFilesystem f false) with
  | Return s e, Return s' e' => s = s' /\ e = e'
  | Continue _, Continue fs2 => fs2 = mkFilesystem f false
  | _, _ => False
  end.
Proof.
  unfold track_body.
  change (readData (mkFilesystem f false)) with (readData (mkFilesystem f true)).
  set (a := readData (mkFilesystem f true)).
  destruct body; cbn [try bind]; try (now split);
    cbn [truthy typeof_object negb orb reject_if bind];
    try (destruct is_zero, isNaN; cbn; now split);
    try (destruct s; cbn; now split);
    try (destruct b; cbn; now split).
  - destruct (validateKeys _ _) as [[|]|]; cbn [try bind negb reject_if];
      try (now split).
  - destruct (validateKeys _ _) as [[|]|]; cbn [try bind negb reject_if];
      try (now split).
    destruct (negb _ || negb _); cbn [reject_if bind bad_request]; [now split|].
    destruct (negb _ || negb _); cbn [reject_if bind bad_request]; [now split|].
    destruct (get _ "eventType"); try (now split).
    destruct (EVENT_SCHEMAS s); [|now split].
    destruct (validateKeys _ _) as [[|]|]; cbn [try bind negb reject_if];
      try (now split).
    destruct (append_event _ _ _ _); cbn [bind]; [now split|reflexivity].
Qed.

(** C5. When the data file is missing, unreadable or does not parse,
    [readData] returns the empty document (four empty sequences) instead of
    failing; and when the write after a validated append fails, the client
    still receives the success acknowledgment: the reply is the one a
    working disk gives. *)
Theorem storage_failures_absorbed :
  (forall w,
     readData (mkFilesystem Missing w) = mkAnalytics [] [] [] []
     /\ readData (mkFilesystem Unreadable w) = mkAnalytics [] [] [] []
     /\ readData (mkFilesystem Corrupt w) = mkAnalytics [] [] [] [])
  /\ (forall a f, writeData (mkFilesystem f false) a
                  = (false, mkFilesystem f false))
  /\ (forall body timestamp f,
        fst (track body timestamp (mkFilesystem f false))
        = fst (track body timestamp (mkFilesystem f true)))
  /\ (forall body timestamp f fs',
        track body timestamp (mkFilesystem f true) = (Success, fs') ->
        track body timestamp (mkFilesystem f false)
        = (Success, mkFilesystem f false)).
Proof.
  split; [now intros w|]. split; [reflexivity|].
  split; intros body timestamp f; [|intros fs'];
    pose proof (track_body_write_failure body timestamp f) as H; unfold track;
    destruct (track_body body timestamp (mkFilesystem f true));
    destruct (track_body body timestamp (mkFilesystem f false));
    try contradiction.
  - destruct H as [-> ->]. reflexivity.
  - reflexivity.
  - discriminate.
  - intros _. now subst.
Qed.

Lemma storage_failures_absorbed_witness :
  track sample_visit noon (mkFilesystem Missing false)
  = (Success, mkFilesystem Missing false).
Proof.
  eapply (proj2 (proj2 (proj2 storage_failures_absorbed))).
  vm_compute. reflexivity.
Defined.

(* ------------------------------------------------------------------ *)
(** ** Well-formed requests *)

(** A well-formed request reaches the [switch]. *)
Lemma track_body_well_formed (k : kind) (body : value)
  (timestamp : jsstring) (fs : filesystem) :
  well_formed k body ->
  track_body body timestamp fs
  = (analytics' <- append_event (kind_name k) (get body "data") timestamp
                     (readData fs) ;;
     Continue (snd (writeData fs analytics'))).
Proof.
  intros (Hv & Hn & Ht & Ho & Hd).
  rewrite (track_body_envelope body timestamp fs _ _ Hv Hn
             (kind_name_nonempty k) Ht Ho (EVENT_SCHEMAS_kind k)).
  now rewrite Hd.
Qed.

(** C10. A Visit request whose [sessionId] is truthy but not a string (a
    number, an array, an object) is accepted, and the Visit record it
    stores has the empty string as [sessionId]: [sanitize] maps every
    non-string to the empty string. *)
Theorem visit_nonstring_session_blank (body : value) (timestamp : jsstring)
  (fs : filesystem) :
  well_formed KVisit body ->
  truthy (get (get body "data") "sessionId") = true ->
  typeof_string (get (get body "data") "sessionId") = false ->
  writable fs = true ->
  exists fs' v,
    track body timestamp fs = (Success, fs')
    /\ visits (readData fs') = lastn 10000 (visits (readData fs) ++ [v])
    /\ visit_timestamp v = timestamp
    /\ visit_sessionId v = [].
Proof.
  intros Hwf Ht Hs Hw. unfold track.
  rewrite (track_body_well_formed KVisit body timestamp fs Hwf).
  unfold append_event, kind_name.
  rewrite jsstring_eqb_refl, Ht. cbn [negb reject_if bind].
  unfold writeData. rewrite Hw. cbn [snd].
  eexists. eexists (mkVisit timestamp (sanitize _ 50) _ _ _).
  split; [reflexivity|].
  cbn [readData file json_roundtrip visits visit_timestamp visit_sessionId].
  rewrite push_capped_lastn by lia.
  split; [reflexivity|]. split; [reflexivity|].
  destruct (get (get body "data") "sessionId"); try reflexivity.
  discriminate Hs.
Qed.

Lemma visit_nonstring_session_blank_witness :
  exists fs' v,
    track visit_with_numeric_session noon fresh_disk = (Success, fs')
    /\ visits (readData fs') = lastn 10000 (visits (readData fresh_disk) ++ [v])
    /\ visit_timestamp v = noon
    /\ visit_sessionId v = [].
Proof.
  apply visit_nonstring_session_blank; try reflexivity.
  repeat split; reflexivity.
Defined.

(* ------------------------------------------------------------------ *)
(** ** Numeric fields *)

Lemma SFcompare_antisym (x y : number) :
  SFcompare y x = option_map CompOpp (SFcompare x y).
Proof.
  destruct x as [sx|sx| |sx mx ex], y as [sy|sy| |sy my ey]; simpl;
    try reflexivity;
    try (destruct sx; reflexivity); try (destruct sy; reflexivity);
    try (destruct sx, sy; reflexivity).
  rewrite (Z.compare_antisym ex ey).
  change (Pos.compare_cont Eq my mx) with (Pos.compare my mx).
  change (Pos.compare_cont Eq mx my) with (Pos.compare mx my).
  rewrite (Pos.compare_antisym mx my).
  destruct sx, sy; try reflexivity;
    destruct (ex ?= ey); simpl; try reflexivity;
    destruct (mx ?= my)%positive; reflexivity.
Qed.

(** For numbers that compare, "not below" is "at least". *)
Lemma not_ltb_leb (x y : number) :
  isNaN x = false -> isNaN y = false ->
  SFltb x y = false -> SFleb y x = true.
Proof.
  intros Hx Hy H. unfold SFltb in H. unfold SFleb.
  rewrite SFcompare_antisym.
  destruct (SFcompare x y) as [[| |]|] eqn:E; try reflexivity;
    try discriminate H.
  destruct x, y; try discriminate; simpl in E;
    repeat match type of E with
           | context [if ?b then _ else _] => destruct b
           end; discriminate E.
Qed.

Lemma validateNumber_some (v : value) (lo hi x : number) :
  isNaN lo = false -> isNaN hi = false ->
  validateNumber v lo hi = Some (Some x) -> parses_within v lo hi.
Proof.
  intros Hlo Hhi H. unfold validateNumber in H.
  destruct (parseFloat v) as [n|] eqn:E; [|discriminate H].
  destruct (isNaN n) eqn:E1; [discriminate H|].
  destruct (isFinite n) eqn:E2; [|discriminate H].
  destruct (ltb n lo) eqn:E3; [discriminate H|].
  destruct (gtb n hi) eqn:E4; [discriminate H|].
  exists n. repeat split; try assumption.
  - now apply not_ltb_leb.
  - now apply not_ltb_leb.
Qed.

Lemma validateNumber_null (v : value) (lo hi : number) :
  parses_badly v lo hi -> validateNumber v lo hi = Some None.
Proof.
  intros (x & E & H). unfold validateNumber. rewrite E.
  unfold ltb, gtb.
  destruct (isNaN x), (isFinite x), (SFltb x lo), (SFltb hi x); simpl;
    try reflexivity; destruct H as [H|[H|[H|H]]]; discriminate H.
Qed.

Lemma validateNumber_throws (v : value) (lo hi : number) :
  validateNumber v lo hi = None <-> parseFloat v = None.
Proof.
  unfold validateNumber. destruct (parseFloat v) as [n|]; [|tauto].
  destruct (_ || _); split; discriminate.
Qed.

Lemma validateNumber_cases (v : value) (lo hi : number) :
  parseFloat v <> None ->
  exists r, validateNumber v lo hi = Some r.
Proof.
  intros H. destruct (validateNumber v lo hi) as [r|] eqn:E.
  - now exists r.
  - apply validateNumber_throws in E. contradiction.
Qed.

(** The reply is an error exactly when the file is left alone. *)
Lemma track_outcome (body : value) (timestamp : jsstring) (fs : filesystem) :
  (exists fs', track body timestamp fs = (Success, fs'))
  \/ (exists status msg, track body timestamp fs = (Error status msg, fs)).
Proof.
  unfold track. destruct (track_body body timestamp fs) as [s e|fs'].
  - right. now exists s, e.
  - left. now exists fs'.
Qed.

(** An accepted spin went through both numeric checks. *)
Lemma spin_accepted_numbers (body : value) (timestamp : jsstring)
  (fs fs' : filesystem) :
  get body "eventType" = VStr (js "spin") ->
  track body timestamp fs = (Success, fs') ->
  parses_within (get (get body "data") "bet") zero (of_Z 10000)
  /\ parses_within (get (get body "data") "win") zero (of_Z 10000000).
Proof.
  intros Hk H. unfold track in H.
  destruct (track_body body timestamp fs) as [|fs1] eqn:E; [discriminate H|].
  apply track_body_continue in E
    as (name & schema & a' & Hn & _ & _ & _ & Ha & _).
  rewrite Hk in Hn. injection Hn as <-.
  unfold append_event in Ha. eval_eqb_in Ha. cbv iota in Ha.
  unfold bind at 1, try at 1 in Ha.
  destruct (validateNumber _ _ _) as [[bet|]|] eqn:Eb; try discriminate Ha.
  - unfold bind at 1, try at 1 in Ha.
    destruct (validateNumber (get _ "win") _ _) as [[win|]|] eqn:Ew;
      try discriminate Ha.
    split; eapply validateNumber_some; try eassumption; reflexivity.
  - unfold bind at 1, try at 1 in Ha.
    destruct (validateNumber (get _ "win") _ _) as [[win|]|];
      discriminate Ha.
Qed.

(** What the spin branch does with [bet] and [win].  A Spin request is
    accepted only if both convert and parse to a finite number, within
    [0, 10000] and [0, 10000000]; otherwise it is rejected and nothing is
    appended.  When the request is well formed, a field that parses to
    NaN, to an infinity or out of range is answered with 400 "Invalid bet
    or win", as [validateNumber] and its caller set out to do; where the
    conversion of a field to a string throws, the exception passes through
    [validateNumber] and the reply is the generic 500 "Server error". *)
Theorem spin_amounts_checked (body : value) (timestamp : jsstring)
  (fs : filesystem) :
  get body "eventType" = VStr (js "spin") ->
  let bet := get (get body "data") "bet" in
  let win := get (get body "data") "win" in
  (forall fs', track body timestamp fs = (Success, fs') ->
     parses_within bet zero (of_Z 10000)
     /\ parses_within win zero (of_Z 10000000))
  /\ (~ (parses_within bet zero (of_Z 10000)
         /\ parses_within win zero (of_Z 10000000)) ->
      exists status msg, track body timestamp fs = (Error status msg, fs))
  /\ (well_formed KSpin body ->
      ((parses_badly bet zero (of_Z 10000) /\ parseFloat win <> None)
       \/ (parseFloat bet <> None /\ parses_badly win zero (of_Z 10000000)) ->
       track body timestamp fs = (Error 400 (js "Invalid bet or win"), fs))
      /\ (parseFloat bet = None \/ parseFloat win = None ->
          track body timestamp fs = (Error 500 (js "Server error"), fs))).
Proof.
  intros Hk bet win. split; [|split].
  - intros fs'. now apply spin_accepted_numbers.
  - intros Hbad.
    destruct (track_outcome body timestamp fs) as [[fs' H]|H]; [|exact H].
    exfalso. apply Hbad. eapply spin_accepted_numbers; eassumption.
  - intros Hwf. unfold track.
    rewrite (track_body_well_formed KSpin body timestamp fs Hwf).
    unfold append_event, kind_name.
    match goal with
    | |- context [jsstring_eqb (js "spin") (js "visit")] =>
        change (jsstring_eqb (js "spin") (js "visit")) with false
    end.
    rewrite jsstring_eqb_refl. cbv iota. fold bet win.
    split.
    + intros [[Hb Hw]|[Hb Hw]].
      * rewrite (validateNumber_null _ _ _ Hb).
        destruct (validateNumber_cases win zero (of_Z 10000000) Hw) as [r ->].
        reflexivity.
      * rewrite (validateNumber_null win _ _ Hw).
        destruct (validateNumber_cases bet zero (of_Z 10000) Hb) as [[r|] ->];
          reflexivity.
    + intros [H|H].
      * apply (validateNumber_throws bet zero (of_Z 10000)) in H.
        rewrite H. reflexivity.
      * apply (validateNumber_throws win zero (of_Z 10000000)) in H.
        rewrite H.
        destruct (validateNumber bet zero (of_Z 10000)); reflexivity.
Qed.

Lemma spin_amounts_checked_witness :
  track spin_with_text_bet noon fresh_disk
  = (Error 400 (js "Invalid bet or win"), fresh_disk).
Proof.
  refine (proj1 (proj2 (proj2 (spin_amounts_checked spin_with_text_bet noon
                                 fresh_disk eq_refl)) _) _).
  - repeat split; reflexivity.
  - left. split.
    + exists NaN. split; [reflexivity|]. left. reflexivity.
    + discriminate.
Defined.

(** C4. A Spin request whose [bet] does not parse to a number is to be
    rejected as an invalid numeric field, and for a text or for an object
    without members it is: the reply is 400 "Invalid bet or win".  For a
    [bet] that is an object with an own [toString] member that is no
    function, which does not parse either, the reply is the generic 500
    "Server error": [parseFloat] throws inside [validateNumber], which was
    to return [null].  Nothing is appended in any of the three cases. *)
Theorem opaque_bet_is_server_error :
  well_formed KSpin spin_with_opaque_bet
  /\ parseFloat (get (get spin_with_opaque_bet "data") "bet") = None
  /\ track spin_with_text_bet noon fresh_disk
     = (Error 400 (js "Invalid bet or win"), fresh_disk)
  /\ track spin_with_empty_bet noon fresh_disk
     = (Error 400 (js "Invalid bet or win"), fresh_disk)
  /\ track spin_with_opaque_bet noon fresh_disk
     = (Error 500 (js "Server error"), fresh_disk)
  /\ fst (track spin_with_opaque_bet noon fresh_disk)
     <> Error 400 (js "Invalid bet or win").
Proof.
  split; [repeat split; reflexivity|]. split; [reflexivity|].
  split; [vm_compute; reflexivity|]. split; [vm_compute; reflexivity|].
  split; [reflexivity|]. discriminate.
Qed.

(* ------------------------------------------------------------------ *)
(** ** Statistics *)

(** C7. From an empty store, three Spin events with bet 10 and win 0 and
    one with bet 10 and win 100 are accepted, and the stats query then
    reports a total wagered of 40 (printed "40.00"), a total won of 100
    (printed "100.00") and a house edge of (40-100)/40*100, printed
    "-150.00". *)
Theorem four_spins_house_edge :
  let (replies, fs) := serve four_spins fresh_disk in
  replies = [Success; Success; Success; Success]
  /\ totalWagered (readData fs) = of_Z 40
  /\ totalWon (readData fs) = of_Z 100
  /\ stats_totalSpins (stats fs) = 4%nat
  /\ stats_totalWagered (stats fs) = js "40.00"
  /\ stats_totalWon (stats fs) = js "100.00"
  /\ stats_houseEdge (stats fs) = VStr (js "-150.00")
  /\ mul (div (sub (of_Z 40) (of_Z 100)) (of_Z 40)) (of_Z 100) = of_Z (-150).
Proof. vm_compute. repeat split; reflexivity. Qed.

Lemma totalWagered_positive_zero (x : number) :
  is_zero x = true -> gtb x zero = false.
Proof. now destruct x. Qed.

(** C8. The derived metrics are the number 0, not NaN or an infinity,
    when their denominator is 0: [houseEdge] when the total wagered is 0,
    [avgBet] and [fsTriggerRate] when there is no spin. *)
Theorem zero_denominator_metrics (fs : filesystem) :
  (is_zero (totalWagered (readData fs)) = true ->
   stats_houseEdge (stats fs) = VNum zero)
  /\ (stats_totalSpins (stats fs) = 0%nat ->
      stats_avgBet (stats fs) = VNum zero
      /\ stats_fsTriggerRate (stats fs) = VNum zero).
Proof.
  unfold stats; cbn [stats_houseEdge stats_totalSpins stats_avgBet
                     stats_fsTriggerRate].
  split.
  - intros H. unfold houseEdge. now rewrite totalWagered_positive_zero.
  - intros H. unfold avgBet, fsTriggerRate. now rewrite H.
Qed.

Lemma zero_denominator_metrics_witness :
  stats_houseEdge (stats fresh_disk) = VNum zero
  /\ stats_avgBet (stats fresh_disk) = VNum zero
  /\ stats_fsTriggerRate (stats fresh_disk) = VNum zero.
Proof.
  split.
  - apply (proj1 (zero_denominator_metrics fresh_disk)). reflexivity.
  - apply (proj2 (zero_denominator_metrics fresh_disk)). reflexivity.
Defined.

(* ------------------------------------------------------------------ *)
(** ** Limits and pages *)

Lemma SFcompare_Eq_finite (m : positive) (e : Z) (n : number) :
  SFcompare (S754_finite false m e) n = Some Eq -> n = S754_finite false m e.
Proof.
  destruct n as [s|s| |s m' e']; simpl; try destruct s; try discriminate.
  destruct (Z.compare_spec e e') as [He|He|He]; try discriminate.
  intros Hm. injection Hm as Hm. apply Pos.compare_eq in Hm. now subst.
Qed.

Lemma above_200_above_1 (n : number) :
  SFltb (of_Z 200) n = true -> SFltb (of_Z 1) n = true.
Proof.
  change (of_Z 200) with (S754_finite false 7036874417766400 (-45)).
  change (of_Z 1) with (S754_finite false 4503599627370496 (-52)).
  unfold SFltb, SFcompare.
  destruct n as [s|s| |s m e]; try destruct s;
    try discriminate; try reflexivity.
  destruct (Z.compare_spec (-45) e) as [<-|H|H]; try discriminate.
  - reflexivity.
  - intros _. destruct (Z.compare_spec (-52) e); try lia; reflexivity.
Qed.

Lemma ltb_leb_exclusive (x y : number) :
  SFltb x y = true -> SFleb y x = false.
Proof.
  unfold SFltb, SFleb. rewrite (SFcompare_antisym x y).
  destruct (SFcompare x y) as [[| |]|]; try discriminate. reflexivity.
Qed.

Lemma leb_not_ltb (x y : number) :
  SFleb x y = true -> SFltb y x = false.
Proof.
  unfold SFltb, SFleb. rewrite (SFcompare_antisym x y).
  destruct (SFcompare x y) as [[| |]|]; try discriminate; reflexivity.
Qed.

Lemma Math_max_1 (n : number) :
  isNaN n = false ->
  Math_max (of_Z 1) n = if SFltb (of_Z 1) n then n else of_Z 1.
Proof. destruct n; try discriminate; reflexivity. Qed.

Lemma Math_min_200 (n : number) :
  isNaN n = false -> is_zero n = false ->
  Math_min n (of_Z 200) = if SFltb (of_Z 200) n then of_Z 200 else n.
Proof. destruct n; try discriminate; reflexivity. Qed.

(** The clamp of a number that is neither NaN nor a zero. *)
Lemma clamp_cases (n : number) :
  isNaN n = false -> is_zero n = false ->
  let l := clamp (of_Z 1) (of_Z 200) n in
  SFleb (of_Z 1) l = true /\ SFleb l (of_Z 200) = true
  /\ (SFltb n (of_Z 1) = true -> l = of_Z 1)
  /\ (SFleb (of_Z 1) n = true -> SFleb n (of_Z 200) = true -> l = n)
  /\ (SFltb (of_Z 200) n = true -> l = of_Z 200).
Proof.
  intros Hn Hz l. unfold l, clamp. rewrite (Math_max_1 n Hn).
  destruct (SFltb (of_Z 1) n) eqn:E1.
  - rewrite (Math_min_200 n Hn Hz).
    destruct (SFltb (of_Z 200) n) eqn:E2.
    + repeat split; try reflexivity.
      * intros H. apply ltb_leb_exclusive in H.
        unfold SFltb in E1. unfold SFleb in H.
        destruct (SFcompare (of_Z 1) n) as [[| |]|]; discriminate.
      * intros _ H. apply leb_not_ltb in H. congruence.
    + repeat split; try reflexivity.
      * unfold SFltb in E1. unfold SFleb.
        destruct (SFcompare (of_Z 1) n) as [[| |]|]; try discriminate.
        reflexivity.
      * apply not_ltb_leb; [reflexivity | assumption | assumption].
      * intros H. apply ltb_leb_exclusive in H.
        unfold SFltb in E1. unfold SFleb in H.
        destruct (SFcompare (of_Z 1) n) as [[| |]|]; discriminate.
      * discriminate.
  - repeat split; try reflexivity.
    + intros H _. unfold SFleb in H. unfold SFltb in E1.
      destruct (SFcompare (of_Z 1) n) as [[| |]|] eqn:E; try discriminate.
      symmetry. now apply SFcompare_Eq_finite in E.
    + intros H. apply above_200_above_1 in H. congruence.
Qed.

Lemma or_default_cases (n d : number) :
  (is_zero n || isNaN n = true /\ or_default n d = d)
  \/ (is_zero n = false /\ isNaN n = false /\ or_default n d = n).
Proof.
  unfold or_default. destruct (is_zero n) eqn:Ez; [left; now split|].
  destruct (isNaN n) eqn:En; [left; now split|]. right. now repeat split.
Qed.

Lemma query_limit_parsed (q : value) (n : number) :
  parseInt q = Some n ->
  exists l,
    query_limit q = Some l
    /\ SFleb (of_Z 1) l = true /\ SFleb l (of_Z 200) = true
    /\ (is_zero n || isNaN n = true -> l = of_Z 50)
    /\ (is_zero n || isNaN n = false ->
        l = clamp (of_Z 1) (of_Z 200) n
        /\ (SFltb n (of_Z 1) = true -> l = of_Z 1)
        /\ (SFleb (of_Z 1) n = true -> SFleb n (of_Z 200) = true -> l = n)
        /\ (SFltb (of_Z 200) n = true -> l = of_Z 200)).
Proof.
  intros Hq. unfold query_limit. rewrite Hq. cbn [option_map].
  eexists. split; [reflexivity|].
  fold (clamp (of_Z 1) (of_Z 200) (or_default n (of_Z 50))).
  destruct (or_default_cases n (of_Z 50)) as [[Hz ->]|(Hz & Hn & ->)].
  - rewrite Hz. split; [reflexivity|]. split; [reflexivity|].
    split; [reflexivity | discriminate].
  - rewrite Hz, Hn. cbn [orb].
    destruct (clamp_cases n Hn Hz) as (H1 & H2 & H3 & H4 & H5).
    split; [assumption|]. split; [assumption|].
    split; [discriminate|]. intros _. now repeat split.
Qed.

Lemma query_page_parsed (q : value) (n : number) :
  parseInt q = Some n ->
  exists p,
    query_page q = Some p
    /\ SFleb (of_Z 1) p = true
    /\ (is_zero n || isNaN n = true -> p = of_Z 1)
    /\ (SFleb (of_Z 1) n = true -> p = n).
Proof.
  intros Hq. unfold query_page. rewrite Hq. cbn [option_map].
  eexists. split; [reflexivity|].
  destruct (or_default_cases n (of_Z 1)) as [[Hz ->]|(Hz & Hn & ->)].
  - rewrite Hz. split; [reflexivity|]. split; [reflexivity|].
    intros H. destruct n as [s|s| |s m e]; discriminate.
  - rewrite (Math_max_1 n Hn), Hz, Hn. cbn [orb].
    destruct (SFltb (of_Z 1) n) eqn:E1.
    + split; [|split; [discriminate | reflexivity]].
      unfold SFltb in E1. unfold SFleb.
      destruct (SFcompare (of_Z 1) n) as [[| |]|]; try discriminate.
      reflexivity.
    + split; [reflexivity|]. split; [discriminate|].
      intros H. unfold SFleb in H. unfold SFltb in E1.
      destruct (SFcompare (of_Z 1) n) as [[| |]|] eqn:E; try discriminate.
      symmetry. now apply SFcompare_Eq_finite in E.
Qed.

Lemma get_spins_parsed (page limit : value) (fs : filesystem)
  (p l : number) :
  query_page page = Some p ->
  query_limit limit = Some l ->
  get_spins page limit fs
  = Json (mkSpinsPage
            (slice (ToIntegerOrInfinity (mul (sub p (of_Z 1)) l))
               (Some (ToIntegerOrInfinity (add (mul (sub p (of_Z 1)) l) l)))
               (rev (spins (readData fs))))
            p l (List.length (spins (readData fs)))
            (Math_ceil (div (of_nat (List.length (spins (readData fs)))) l))).
Proof.
  intros Hp Hl. unfold get_spins.
  rewrite Hp, Hl. cbn [bind_throws catch]. now rewrite slice_copy.
Qed.

(** C9 (amended). In the spins, sessions and big-wins queries the effective
    limit is 50 when the limit is absent, does not parse, or parses to 0;
    otherwise it is the parsed limit clamped to [1, 200].  The effective
    page of the spins query is at least 1, and 1 when the page is absent,
    does not parse or parses to 0.  The spins query returns the slice
    [offset, offset + limit) of the spins in most-recent-first order, with
    offset = (page - 1) * limit, together with the page, the limit, the
    number of spins and [ceil (number / limit)]. *)
Theorem query_limit_and_page :
  (forall handler_limit,
     In handler_limit [query_limit; sessions_limit] ->
     handler_limit VUndefined = Some (of_Z 50)
     /\ forall q n, parseInt q = Some n ->
        exists l,
          handler_limit q = Some l
          /\ SFleb (of_Z 1) l = true /\ SFleb l (of_Z 200) = true
          /\ (is_zero n || isNaN n = true -> l = of_Z 50)
          /\ (is_zero n || isNaN n = false ->
              l = clamp (of_Z 1) (of_Z 200) n
              /\ (SFltb n (of_Z 1) = true -> l = of_Z 1)
              /\ (SFleb (of_Z 1) n = true -> SFleb n (of_Z 200) = true ->
                  l = n)
              /\ (SFltb (of_Z 200) n = true -> l = of_Z 200)))
  /\ (query_page VUndefined = Some (of_Z 1)
      /\ forall q n, parseInt q = Some n ->
         exists p,
           query_page q = Some p
           /\ SFleb (of_Z 1) p = true
           /\ (is_zero n || isNaN n = true -> p = of_Z 1)
           /\ (SFleb (of_Z 1) n = true -> p = n))
  /\ (forall page limit fs p l,
        query_page page = Some p ->
        query_limit limit = Some l ->
        let all := spins (readData fs) in
        let offset := mul (sub p (of_Z 1)) l in
        get_spins page limit fs
        = Json (mkSpinsPage
                  (slice (ToIntegerOrInfinity offset)
                     (Some (ToIntegerOrInfinity (add offset l))) (rev all))
                  p l (List.length all)
                  (Math_ceil (div (of_nat (List.length all)) l))))
  /\ (forall limit fs l,
        query_limit limit = Some l ->
        get_bigwins limit fs
        = Json (slice (Fin 0) (Some (ToIntegerOrInfinity l))
                  (rev (bigWins (readData fs))))).
Proof.
  split; [|split; [|split]].
  - intros h [<-|[<-|[]]]; (split; [reflexivity|]); intros q n Hq;
      now apply query_limit_parsed.
  - split; [reflexivity|]. intros q n Hq. now apply query_page_parsed.
  - intros page limit fs p l Hp Hl all offset.
    now apply get_spins_parsed.
  - intros limit fs l Hl. unfold get_bigwins. rewrite Hl.
    cbn [bind_throws catch]. now rewrite slice_copy.
Qed.

Lemma query_limit_and_page_witness :
  exists l, query_limit (VStr (js "1000")) = Some l /\ l = of_Z 200.
Proof.
  destruct (proj1 query_limit_and_page query_limit (or_introl eq_refl))
    as [_ H].
  destruct (H (VStr (js "1000")) (of_Z 1000) eq_refl)
    as (l & Hl & _ & _ & _ & Hc).
  exists l. split; [exact Hl|].
  exact (proj2 (proj2 (proj2 (Hc eq_refl))) eq_refl).
Defined.

(** Counterexample to C9 as stated: the limit 0; clamped to [1, 200] it would be
    1, and the handlers use 50. *)
Lemma zero_limit_is_default :
  parseInt (VStr (js "0")) = Some zero
  /\ limit_as_described (VStr (js "0")) = Some (of_Z 1)
  /\ query_limit (VStr (js "0")) = Some (of_Z 50)
  /\ query_limit (VStr (js "0")) <> limit_as_described (VStr (js "0")).
Proof. repeat split; try reflexivity. discriminate. Qed.

Lemma eqb_struct_eq (x y : number) : eqb_struct x y = true -> x = y.
Proof.
  destruct x as [a|a| |a m e], y as [b|b| |b n f]; simpl;
    try discriminate; try reflexivity.
  - intros H. apply Bool.eqb_prop in H. now subst.
  - intros H. apply Bool.eqb_prop in H. now subst.
  - intros H. apply andb_true_iff in H as [H He].
    apply andb_true_iff in H as [Hs Hm].
    apply Bool.eqb_prop in Hs. apply Pos.eqb_eq in Hm. apply Z.eqb_eq in He.
    now subst.
Qed.

Lemma Zrange_In (lo : Z) (n : nat) (z : Z) :
  lo <= z < lo + Z.of_nat n -> In z (Zrange lo n).
Proof.
  intros H. unfold Zrange. apply in_map_iff.
  exists (Z.to_nat (z - lo)). split; [lia|]. apply in_seq. lia.
Qed.

(** The limit for every integer of [-1000, 1000] written in decimal. *)
Lemma query_limit_small_integers (z : Z) :
  -1000 <= z <= 1000 ->
  query_limit (numeral z)
  = Some (of_Z (if z =? 0 then 50 else Z.max 1 (Z.min z 200))).
Proof.
  intros H.
  assert (Hall : forallb
            (fun z => match query_limit (numeral z) with
                      | Some l =>
                          eqb_struct l
                            (of_Z (if z =? 0 then 50
                                   else Z.max 1 (Z.min z 200)))
                      | None => false
                      end) (Zrange (-1000) 2001) = true)
    by (vm_compute; reflexivity).
  rewrite forallb_forall in Hall.
  specialize (Hall z (Zrange_In (-1000) 2001 z ltac:(lia))).
  destruct (query_limit (numeral z)); [|discriminate Hall].
  f_equal. now apply eqb_struct_eq.
Qed.

Lemma slice_window {A : Type} (a b : nat) (l : list A) :
  (a <= b)%nat ->
  slice (Fin (Z.of_nat a)) (Some (Fin (Z.of_nat b))) l
  = firstn (b - a) (skipn a l).
Proof.
  intros Hab. unfold slice, relative_index.
  replace (Z.of_nat a <? 0) with false by (symmetry; apply Z.ltb_ge; lia).
  replace (Z.of_nat b <? 0) with false by (symmetry; apply Z.ltb_ge; lia).
  set (len := List.length l).
  destruct (Nat.le_gt_cases len a) as [H|H].
  - rewrite !Z.min_r by lia. rewrite Nat2Z.id.
    rewrite (skipn_all2 l (n:=a)) by (fold len; lia).
    rewrite (skipn_all2 l (n:=len)) by (fold len; lia).
    now rewrite !firstn_nil.
  - rewrite (Z.min_l (Z.of_nat a)) by lia. rewrite Nat2Z.id.
    destruct (Nat.le_gt_cases len b) as [H'|H'].
    + rewrite Z.min_r by lia.
      rewrite !firstn_all2; try reflexivity; rewrite length_skipn; fold len; lia.
    + rewrite Z.min_l by lia. f_equal. lia.
Qed.

(** The second page of three: the fourth to sixth most recent spins. *)
Lemma second_page_of_three (fs : filesystem) :
  let all := spins (readData fs) in
  get_spins (VStr (js "2")) (VStr (js "3")) fs
  = Json (mkSpinsPage (firstn 3 (skipn 3 (rev all))) (of_Z 2) (of_Z 3)
            (List.length all)
            (Math_ceil (div (of_nat (List.length all)) (of_Z 3)))).
Proof.
  intros all.
  rewrite (get_spins_parsed (VStr (js "2")) (VStr (js "3")) fs
             (of_Z 2) (of_Z 3) eq_refl eq_refl).
  fold all.
  change (ToIntegerOrInfinity (mul (sub (of_Z 2) (of_Z 1)) (of_Z 3)))
    with (Fin (Z.of_nat 3)).
  change (ToIntegerOrInfinity
            (add (mul (sub (of_Z 2) (of_Z 1)) (of_Z 3)) (of_Z 3)))
    with (Fin (Z.of_nat 6)).
  now rewrite slice_window by lia.
Qed.

(* ------------------------------------------------------------------ *)
(** ** Symbol frequencies *)

Lemma includes_cons (y : jsstring) (l : list jsstring) (x : jsstring) :
  includes (y :: l) x = jsstring_eqb x y || includes l x.
Proof. reflexivity. Qed.

Lemma distinct_from_snoc (p seen : list jsstring) (x : jsstring) :
  distinct_from seen (p ++ [x])
  = distinct_from seen p
    ++ (if includes seen x || includes p x then [] else [x]).
Proof.
  revert seen. induction p as [|y p IH]; intros seen; cbn [app distinct_from].
  - change (includes [] x) with false. rewrite orb_false_r.
    destruct (includes seen x); reflexivity.
  - rewrite (includes_cons y p x).
    destruct (includes seen y) eqn:Ey.
    + rewrite IH. f_equal.
      destruct (jsstring_eqb x y) eqn:Exy; [|reflexivity].
      apply jsstring_eqb_eq in Exy. subst y. now rewrite Ey.
    + cbn [app]. rewrite IH, (includes_cons y seen x). do 2 f_equal.
      destruct (jsstring_eqb x y), (includes seen x); reflexivity.
Qed.

Lemma distinct_snoc (p : list jsstring) (x : jsstring) :
  distinct (p ++ [x])
  = if includes p x then distinct p else distinct p ++ [x].
Proof.
  unfold distinct. rewrite distinct_from_snoc.
  change (includes [] x) with false. cbn [orb].
  destruct (includes p x); [apply app_nil_r | reflexivity].
Qed.

Lemma distinct_from_In (p seen : list jsstring) (x : jsstring) :
  In x (distinct_from seen p) <-> In x p /\ ~ In x seen.
Proof.
  revert seen. induction p as [|y p IH]; intros seen; simpl; [tauto|].
  destruct (includes seen y) eqn:Ey.
  - apply includes_In in Ey. rewrite IH. split.
    + intros [H1 H2]. split; [now right | assumption].
    + intros [[->|H1] H2]; [contradiction | now split].
  - assert (Hy : ~ In y seen).
    { intros H. apply includes_In in H. congruence. }
    simpl. rewrite IH. simpl. split.
    + intros [->|[H1 H2]]; [split; [now left | assumption]|].
      split; [now right | tauto].
    + intros [[->|H1] H2]; [now left|].
      destruct (list_eq_dec N.eq_dec y x) as [->|Hne]; [now left|].
      right. split; [assumption|]. intros [H|H]; [congruence | contradiction].
Qed.

Lemma distinct_from_NoDup (p seen : list jsstring) :
  NoDup (distinct_from seen p).
Proof.
  revert seen. induction p as [|y p IH]; intros seen; simpl; [constructor|].
  destruct (includes seen y); [apply IH|].
  constructor; [|apply IH].
  intros H. apply distinct_from_In in H as [_ H]. apply H. now left.
Qed.

Lemma distinct_In (p : list jsstring) (x : jsstring) :
  In x (distinct p) <-> In x p.
Proof. unfold distinct. rewrite distinct_from_In. simpl. tauto. Qed.

Lemma distinct_NoDup (p : list jsstring) : NoDup (distinct p).
Proof. apply distinct_from_NoDup. Qed.

Lemma occurrences_snoc (k x : jsstring) (p : list jsstring) :
  occurrences k (p ++ [x])
  = (occurrences k p + (if jsstring_eqb k x then 1 else 0))%N.
Proof.
  induction p as [|y p IH]; simpl; [lia|]. rewrite IH. lia.
Qed.

Lemma occurrences_absent (k : jsstring) (p : list jsstring) :
  ~ In k p -> occurrences k p = 0%N.
Proof.
  induction p as [|y p IH]; simpl; [reflexivity|]. intros H.
  destruct (jsstring_eqb k y) eqn:E.
  - apply jsstring_eqb_eq in E. subst. exfalso. apply H. now left.
  - rewrite IH; [reflexivity|]. intros Hin. apply H. now right.
Qed.

Lemma assoc_tally_In (K p : list jsstring) (x : jsstring) :
  In x K -> assoc x (tally K p) = Some (Count (occurrences x p)).
Proof.
  induction K as [|k K IH]; simpl; [contradiction|].
  destruct (jsstring_eqb x k) eqn:E.
  - apply jsstring_eqb_eq in E. now subst.
  - intros [->|H]; [now rewrite jsstring_eqb_refl in E | now apply IH].
Qed.

Lemma assoc_tally_absent (K p : list jsstring) (x : jsstring) :
  ~ In x K -> assoc x (tally K p) = None.
Proof.
  induction K as [|k K IH]; simpl; [reflexivity|]. intros H.
  destruct (jsstring_eqb x k) eqn:E.
  - apply jsstring_eqb_eq in E. subst. exfalso. apply H. now left.
  - apply IH. intros Hin. apply H. now right.
Qed.

Lemma tally_snoc_other (K p : list jsstring) (x : jsstring) :
  ~ In x K -> tally K (p ++ [x]) = tally K p.
Proof.
  intros H. unfold tally. apply map_ext_in. intros k Hk.
  rewrite occurrences_snoc.
  destruct (jsstring_eqb k x) eqn:E.
  - apply jsstring_eqb_eq in E. subst. contradiction.
  - now rewrite N.add_0_r.
Qed.

(** Counting one more occurrence of a key that is already there. *)
Lemma update_tally (K p : list jsstring) (x : jsstring) :
  NoDup K ->
  update x (Count (occurrences x p + 1)) (tally K p) = tally K (p ++ [x]).
Proof.
  induction K as [|k K IH]; simpl; [reflexivity|]. intros Hnd.
  inversion Hnd as [|? ? Hk HK]; subst.
  destruct (jsstring_eqb x k) eqn:E.
  - apply jsstring_eqb_eq in E. subst k.
    rewrite occurrences_snoc, jsstring_eqb_refl.
    now rewrite (tally_snoc_other K p x Hk).
  - rewrite occurrences_snoc.
    assert (Ekx : jsstring_eqb k x = false).
    { apply jsstring_eqb_neq. apply jsstring_eqb_neq in E. congruence. }
    rewrite Ekx, N.add_0_r. f_equal. now apply IH.
Qed.

Lemma is_index_array_index (k : jsstring) :
  is_index k = true <-> exists i, array_index k = Some i.
Proof.
  unfold is_index. destruct (array_index k) as [i|]; split;
    try discriminate; try reflexivity.
  - intros _. now exists i.
  - intros [i H]. discriminate H.
Qed.

Lemma insert_key_In (i : N) (k : jsstring) (J : list jsstring) (x : jsstring) :
  In x (insert_key i k J) <-> x = k \/ In x J.
Proof.
  induction J as [|k' J IH]; simpl; [intuition congruence|].
  destruct (array_index k') as [j|]; [destruct (j <? i)%N|]; simpl;
    try rewrite IH; intuition congruence.
Qed.

Lemma insert_key_NoDup (i : N) (k : jsstring) (J : list jsstring) :
  ~ In k J -> NoDup J -> NoDup (insert_key i k J).
Proof.
  induction J as [|k' J IH]; simpl; intros Hk Hnd.
  - constructor; [tauto | constructor].
  - inversion Hnd as [|? ? Hk' HJ]; subst.
    destruct (array_index k') as [j|]; [destruct (j <? i)%N|].
    + constructor.
      * rewrite insert_key_In. intros [->|H]; [apply Hk; now left | contradiction].
      * apply IH; [tauto | assumption].
    + constructor; assumption.
    + constructor; assumption.
Qed.

Lemma index_sorted_snoc (l : list jsstring) (x : jsstring) :
  index_sorted (l ++ [x])
  = match array_index x with
    | Some i => insert_key i x (index_sorted l)
    | None => index_sorted l
    end.
Proof. unfold index_sorted. now rewrite fold_left_app. Qed.

Lemma index_sorted_In (l : list jsstring) (x : jsstring) :
  In x (index_sorted l) <-> In x l /\ is_index x = true.
Proof.
  induction l as [|y l IH] using rev_ind; [simpl; tauto|].
  rewrite index_sorted_snoc, in_app_iff. simpl.
  destruct (array_index y) as [i|] eqn:E.
  - rewrite insert_key_In, IH. split.
    + intros [->|[H1 H2]].
      * split; [tauto|]. apply is_index_array_index. now exists i.
      * tauto.
    + intros [[H|[->|[]]] H2]; tauto.
  - rewrite IH. split; [tauto|].
    intros [[H|[->|[]]] H2]; [tauto|].
    unfold is_index in H2. rewrite E in H2. discriminate.
Qed.

Lemma index_sorted_NoDup (l : list jsstring) :
  NoDup l -> NoDup (index_sorted l).
Proof.
  induction l as [|y l IH] using rev_ind; intros Hnd; [constructor|].
  rewrite index_sorted_snoc.
  apply NoDup_remove in Hnd as [Hl Hy]. rewrite app_nil_r in Hl, Hy.
  destruct (array_index y) as [i|]; [|now apply IH].
  apply insert_key_NoDup; [|now apply IH].
  rewrite index_sorted_In. tauto.
Qed.

Lemma index_sorted_Forall (l : list jsstring) :
  Forall (fun x => is_index x = true) (index_sorted l).
Proof.
  apply Forall_forall. intros x H. now apply index_sorted_In in H.
Qed.

Lemma key_order_In (K : list jsstring) (x : jsstring) :
  In x (key_order K) <-> In x K.
Proof.
  unfold key_order. rewrite in_app_iff, index_sorted_In, !filter_In.
  destruct (is_index x); simpl; intuition congruence.
Qed.

Lemma key_order_NoDup (K : list jsstring) : NoDup K -> NoDup (key_order K).
Proof.
  intros H. unfold key_order. apply NoDup_app.
  - apply index_sorted_NoDup. now apply NoDup_filter.
  - now apply NoDup_filter.
  - intros x H1 H2. apply index_sorted_In in H1 as [_ H1].
    apply filter_In in H2 as [_ H2]. rewrite H1 in H2. discriminate.
Qed.

Lemma key_order_snoc (K : list jsstring) (x : jsstring) :
  key_order (K ++ [x])
  = match array_index x with
    | Some i => insert_key i x (index_sorted (filter is_index K))
                ++ filter (fun k => negb (is_index k)) K
    | None => key_order K ++ [x]
    end.
Proof.
  unfold key_order. rewrite !filter_app. cbn [filter]. unfold is_index at 2 4.
  destruct (array_index x) as [i|] eqn:E; cbn [negb].
  - rewrite index_sorted_snoc, E. now rewrite app_nil_r.
  - rewrite !app_nil_r. now rewrite app_assoc.
Qed.

(** Creating an index key in an object whose keys are [J], all indices,
    followed by [S], none an index. *)
Lemma insert_index_map (g : jsstring -> count) (i : N) (x : jsstring)
  (J S : list jsstring) :
  Forall (fun k => is_index k = true) J ->
  Forall (fun k => is_index k = false) S ->
  insert_index i x (g x) (map (fun k => (k, g k)) (J ++ S))
  = map (fun k => (k, g k)) (insert_key i x J ++ S).
Proof.
  intros HJ HS. induction J as [|k J IH]; cbn [app].
  - destruct S as [|s S]; [reflexivity|].
    inversion HS as [|? ? Hs _]; subst. cbn [map insert_index insert_key app].
    unfold is_index in Hs. destruct (array_index s); [discriminate|reflexivity].
  - inversion HJ as [|? ? Hk HJ']; subst.
    cbn [map insert_index insert_key].
    destruct (array_index k) as [j|]; [|reflexivity].
    destruct (j <? i)%N; [|reflexivity].
    cbn [app map]. f_equal. now apply IH.
Qed.

Lemma not_proto_name (x : jsstring) :
  assoc x Object_prototype = None -> jsstring_eqb x (js "__proto__") = false.
Proof.
  intros H. destruct (jsstring_eqb x (js "__proto__")) eqn:E; [|reflexivity].
  apply jsstring_eqb_eq in E. subst x. discriminate H.
Qed.

(** What the counting loop builds, when no symbol names a member of
    [Object.prototype]: the frequency of every distinct symbol, the keys in
    the object's order. *)
Lemma counts_tally (l : list jsstring) :
  Forall (fun sym => assoc sym Object_prototype = None) l ->
  fold_left count_symbol l [] = tally (key_order (distinct l)) l.
Proof.
  induction l as [|x p IH] using rev_ind; intros H; [reflexivity|].
  apply Forall_app in H as [Hp Hx]. inversion Hx as [|? ? Hx' _]; subst.
  rewrite fold_left_app. cbn [fold_left]. rewrite (IH Hp).
  set (K := key_order (distinct p)).
  assert (HK : NoDup K) by apply key_order_NoDup, distinct_NoDup.
  unfold count_symbol, get_property, set_property.
  rewrite (not_proto_name x Hx'), Hx'. cbn [option_map].
  rewrite distinct_snoc.
  destruct (includes p x) eqn:Ein.
  - apply includes_In in Ein.
    assert (HxK : In x K) by now apply key_order_In, distinct_In.
    rewrite (assoc_tally_In K p x HxK). fold K.
    now apply update_tally.
  - assert (Hnin : ~ In x p).
    { intros Hin. apply includes_In in Hin. congruence. }
    assert (HxK : ~ In x K).
    { unfold K. rewrite key_order_In, distinct_In. exact Hnin. }
    rewrite (assoc_tally_absent K p x HxK).
    assert (Hone : Count 1 = Count (occurrences x (p ++ [x]))).
    { rewrite occurrences_snoc, jsstring_eqb_refl.
      now rewrite (occurrences_absent x p Hnin). }
    rewrite <- (tally_snoc_other K p x HxK).
    rewrite key_order_snoc.
    destruct (array_index x) as [i|] eqn:Ei.
    + rewrite Hone. unfold K, key_order, tally.
      apply (insert_index_map (fun k => Count (occurrences k (p ++ [x])))).
      * apply index_sorted_Forall.
      * apply Forall_forall. intros k Hk. apply filter_In in Hk as [_ Hk].
        now destruct (is_index k).
    + unfold tally. rewrite map_app. cbn [map]. now rewrite <- Hone.
Qed.

Lemma symbolCounts_flat (a : analytics) :
  symbolCounts a = fold_left count_symbol (all_symbols a) [].
Proof.
  unfold symbolCounts, all_symbols. generalize (@nil (jsstring * count)).
  induction (spins a) as [|s l IH]; intros o; [reflexivity|].
  cbn [fold_left flat_map]. now rewrite fold_left_app, IH.
Qed.

Lemma tally_is_count (K p : list jsstring) : Forall is_count (tally K p).
Proof.
  apply Forall_forall. intros e H. apply in_map_iff in H as (k & <- & _).
  now exists (occurrences k p).
Qed.

Lemma by_count_desc_counts (x y : jsstring * count) :
  is_count x -> is_count y ->
  by_count_desc x y = Z.of_N (count_of y) - Z.of_N (count_of x).
Proof.
  intros [n Hx] [m Hy]. unfold by_count_desc, count_of. now rewrite Hx, Hy.
Qed.

Lemma insert_sorted_In {A : Type} (cmp : A -> A -> Z) (x : A) (l : list A)
  (e : A) :
  In e (insert_sorted cmp x l) <-> e = x \/ In e l.
Proof.
  induction l as [|y l IH]; simpl; [intuition congruence|].
  destruct (0 <? cmp x y); simpl; [rewrite IH|]; intuition congruence.
Qed.

Lemma sort_In {A : Type} (cmp : A -> A -> Z) (l : list A) (e : A) :
  In e (sort cmp l) <-> In e l.
Proof.
  induction l as [|x l IH]; simpl; [tauto|].
  rewrite insert_sorted_In, IH. intuition congruence.
Qed.

Lemma insert_sorted_HdRel {A : Type} (R : A -> A -> Prop)
  (cmp : A -> A -> Z) (y x : A) (l : list A) :
  R y x -> HdRel R y l -> HdRel R y (insert_sorted cmp x l).
Proof.
  intros Hx Hl. destruct l as [|z l]; simpl; [now constructor|].
  inversion Hl; subst. destruct (0 <? cmp x z); now constructor.
Qed.

(** Inserting into a list that descends by count keeps it descending. *)
Lemma insert_sorted_descending (x : jsstring * count)
  (l : list (jsstring * count)) :
  is_count x -> Forall is_count l ->
  descending l -> descending (insert_sorted by_count_desc x l).
Proof.
  intros Hx Hl Hs. induction l as [|y l IH]; simpl.
  - repeat constructor.
  - inversion Hl as [|? ? Hy Hl']; subst.
    inversion Hs as [|? ? Hs' Hd]; subst.
    rewrite (by_count_desc_counts x y Hx Hy).
    destruct (0 <? Z.of_N (count_of y) - Z.of_N (count_of x)) eqn:E.
    + apply Z.ltb_lt in E. constructor; [now apply IH|].
      apply insert_sorted_HdRel; [lia | assumption].
    + apply Z.ltb_ge in E. constructor; [assumption|].
      constructor. lia.
Qed.

Lemma sort_descending (l : list (jsstring * count)) :
  Forall is_count l -> descending (sort by_count_desc l).
Proof.
  induction l as [|x l IH]; intros H; [constructor|].
  inversion H as [|? ? Hx Hl]; subst. simpl.
  apply insert_sorted_descending; [assumption| |now apply IH].
  apply Forall_forall. intros e He. apply sort_In in He.
  rewrite Forall_forall in Hl. now apply Hl.
Qed.

Lemma firstn_Sorted {A : Type} (R : A -> A -> Prop) (n : nat) (l : list A) :
  Sorted R l -> Sorted R (firstn n l).
Proof.
  revert n. induction l as [|x l IH]; intros n H;
    [rewrite firstn_nil; constructor|].
  destruct n as [|n]; [constructor|]. simpl.
  inversion H as [|? ? Hs Hd]; subst. constructor; [now apply IH|].
  destruct l as [|y l]; [rewrite firstn_nil; constructor|].
  destruct n as [|n]; [constructor|]. simpl.
  inversion Hd; subst. now constructor.
Qed.

(** The sort is stable: entries of equal count keep their order. *)
Lemma insert_sorted_stable (c : N) (x : jsstring * count)
  (l : list (jsstring * count)) :
  is_count x -> Forall is_count l ->
  filter (has_count c) (insert_sorted by_count_desc x l)
  = filter (has_count c) (x :: l).
Proof.
  intros Hx Hl. induction l as [|y l IH]; [reflexivity|].
  inversion Hl as [|? ? Hy Hl']; subst.
  cbn [insert_sorted]. rewrite (by_count_desc_counts x y Hx Hy).
  destruct (0 <? Z.of_N (count_of y) - Z.of_N (count_of x)) eqn:E;
    [|reflexivity].
  apply Z.ltb_lt in E. cbn [filter]. rewrite (IH Hl'). cbn [filter].
  unfold has_count.
  destruct (count_of x =? c)%N eqn:Ex; [|reflexivity].
  apply N.eqb_eq in Ex.
  destruct (count_of y =? c)%N eqn:Ey; [|reflexivity].
  apply N.eqb_eq in Ey. lia.
Qed.

Lemma sort_stable (c : N) (l : list (jsstring * count)) :
  Forall is_count l ->
  filter (has_count c) (sort by_count_desc l) = filter (has_count c) l.
Proof.
  induction l as [|x l IH]; intros H; [reflexivity|].
  inversion H as [|? ? Hx Hl]; subst. cbn [sort fold_right].
  fold (sort by_count_desc l).
  rewrite insert_sorted_stable; [| assumption |].
  - cbn [filter]. now rewrite (IH Hl).
  - apply Forall_forall. intros e He. apply sort_In in He.
    rewrite Forall_forall in Hl. now apply Hl.
Qed.

Lemma topSymbols_firstn (a : analytics) :
  topSymbols a = firstn 10 (sort by_count_desc (symbolCounts a)).
Proof. unfold topSymbols. apply (slice_prefix 10). Qed.

(** At most ten pairs, whatever the symbols. *)
Lemma topSymbols_length (a : analytics) :
  (List.length (topSymbols a) <= 10)%nat.
Proof. rewrite topSymbols_firstn. apply firstn_le_length. Qed.

Lemma filter_none {A : Type} (f : A -> bool) (l : list A) :
  Forall (fun x => f x = false) l -> filter f l = [].
Proof.
  induction 1 as [|x l Hx _ IH]; [reflexivity|]. simpl. now rewrite Hx.
Qed.

Lemma filter_all {A : Type} (f : A -> bool) (l : list A) :
  Forall (fun x => f x = true) l -> filter f l = l.
Proof.
  induction 1 as [|x l Hx _ IH]; [reflexivity|]. simpl. rewrite Hx.
  now f_equal.
Qed.

Lemma key_order_plain (K : list jsstring) :
  Forall (fun k => is_index k = false) K -> key_order K = K.
Proof.
  intros H. unfold key_order.
  rewrite (filter_none is_index K H). rewrite filter_all; [reflexivity|].
  apply Forall_forall. intros k Hk. rewrite Forall_forall in H.
  now rewrite (H k Hk).
Qed.

(** The integer-like keys come out in ascending numeric order. *)
Lemma insert_key_ascending (i : N) (k : jsstring) (J : list jsstring) :
  array_index k = Some i ->
  Forall (fun x => is_index x = true) J ->
  Sorted (fun a b => (index_of a <= index_of b)%N) J ->
  Sorted (fun a b => (index_of a <= index_of b)%N) (insert_key i k J).
Proof.
  intros Hk HJ Hs. induction J as [|k' J IH]; cbn [insert_key];
    [repeat constructor|].
  inversion Hs as [|? ? Hs' Hd]; subst.
  inversion HJ as [|? ? Hk' HJ']; subst.
  assert (Hi : index_of k = i) by (unfold index_of; now rewrite Hk).
  unfold is_index in Hk'.
  destruct (array_index k') as [j|] eqn:Ej; [|discriminate Hk'].
  assert (Hj : index_of k' = j) by (unfold index_of; now rewrite Ej).
  destruct (j <? i)%N eqn:E.
  - apply N.ltb_lt in E. constructor; [now apply IH|].
    destruct J as [|z J]; cbn [insert_key].
    + constructor. lia.
    + pose proof (HdRel_inv Hd) as Hz. cbv beta in Hz.
      destruct (array_index z) as [jz|]; [destruct (jz <? i)%N|];
        constructor; lia.
  - apply N.ltb_ge in E. constructor; [assumption|]. constructor. lia.
Qed.

Lemma index_sorted_ascending (l : list jsstring) :
  Sorted (fun a b => (index_of a <= index_of b)%N) (index_sorted l).
Proof.
  induction l as [|x l IH] using rev_ind; [constructor|].
  rewrite index_sorted_snoc.
  destruct (array_index x) as [i|] eqn:E; [|assumption].
  apply insert_key_ascending; [assumption | apply index_sorted_Forall | assumption].
Qed.

Lemma topSymbols_plain (a : analytics) :
  plain_symbols a ->
  topSymbols a = ranking (key_order (distinct (all_symbols a))) (all_symbols a).
Proof.
  intros H. rewrite topSymbols_firstn, symbolCounts_flat.
  now rewrite (counts_tally (all_symbols a) H).
Qed.

(** C6 (amended). When no symbol names a member of [Object.prototype],
    [topSymbols] holds the frequency of every symbol across the symbol
    sequences of all spins, at most ten (symbol, count) pairs, in
    descending order of count; ties between equal counts keep the order in
    which the object lists its keys: the integer-like symbols first, in
    ascending numeric order, then the other symbols in the order in which
    they were first seen.  Without integer-like symbols that is the
    first-seen order. *)
Theorem top_symbols_ranking (a : analytics) :
  plain_symbols a ->
  let syms := all_symbols a in
  let keys := key_order (distinct syms) in
  let entries := map (fun k => (k, Count (occurrences k syms))) keys in
  topSymbols a = firstn 10 (sort by_count_desc entries)
  /\ (forall k, In k keys <-> In k syms)
  /\ keys = index_sorted (filter is_index (distinct syms))
            ++ filter (fun k => negb (is_index k)) (distinct syms)
  /\ Sorted (fun x y => (index_of x <= index_of y)%N)
       (index_sorted (filter is_index (distinct syms)))
  /\ (List.length (topSymbols a) <= 10)%nat
  /\ descending (topSymbols a)
  /\ (forall c, filter (has_count c) (sort by_count_desc entries)
                = filter (has_count c) entries)
  /\ (Forall (fun k => is_index k = false) syms ->
      topSymbols a = topSymbols_as_described a).
Proof.
  intros H syms keys entries.
  assert (Htop : topSymbols a = firstn 10 (sort by_count_desc entries))
    by now apply topSymbols_plain.
  assert (Hc : Forall is_count entries) by apply tally_is_count.
  split; [exact Htop|].
  split; [intros k; unfold keys; now rewrite key_order_In, distinct_In|].
  split; [reflexivity|].
  split; [apply index_sorted_ascending|].
  split; [apply topSymbols_length|].
  split; [rewrite Htop; apply firstn_Sorted; now apply sort_descending|].
  split; [intros c; now apply sort_stable|].
  intros Hplain. rewrite Htop. unfold topSymbols_as_described, ranking, tally.
  fold syms. unfold entries, keys. rewrite key_order_plain; [reflexivity|].
  apply Forall_forall. intros k Hk.
  apply (proj1 (distinct_In syms k)) in Hk.
  rewrite Forall_forall in Hplain. exact (Hplain k Hk).
Qed.

Lemma top_symbols_ranking_witness :
  topSymbols (one_spin ["cherry"; "7"; "bar"; "3"; "bar"])
  = [(js "bar", Count 2); (js "3", Count 1); (js "7", Count 1);
     (js "cherry", Count 1)].
Proof.
  refine (eq_trans
            (proj1 (top_symbols_ranking
                      (one_spin ["cherry"; "7"; "bar"; "3"; "bar"]) _)) _).
  - unfold plain_symbols. vm_compute. repeat constructor.
  - vm_compute. reflexivity.
Defined.

(** Counterexample to C6 as stated: an integer-like symbol; "7" is seen after
    "cherry", both once, and is listed before it. *)
Lemma integer_symbol_listed_first :
  topSymbols (one_spin ["cherry"; "7"])
  = [(js "7", Count 1); (js "cherry", Count 1)]
  /\ topSymbols_as_described (one_spin ["cherry"; "7"])
     = [(js "cherry", Count 1); (js "7", Count 1)]
  /\ topSymbols (one_spin ["cherry"; "7"])
     <> topSymbols_as_described (one_spin ["cherry"; "7"]).
Proof. repeat split; try reflexivity. vm_compute. discriminate. Qed.

(** A symbol that names a member of [Object.prototype] is not counted:
    the inherited member is read in place of the missing count. *)
Lemma inherited_name_not_counted :
  topSymbols (one_spin ["constructor"; "__proto__"; "constructor"])
  = [(js "constructor", Text (js "function Object() { [native code] }11"))].
Proof. vm_compute. reflexivity. Qed.

(* ------------------------------------------------------------------ *)
(** ** Worked requests *)

(** A visit whose [sessionId] carries markup is stored without the angle
    brackets. *)
Lemma script_tag_stripped :
  map visit_sessionId
    (visits (readData
       (snd (track (request "visit" [("sessionId", VStr (js "a<script>"))])
               noon fresh_disk))))
  = [js "ascript"].
Proof. vm_compute. reflexivity. Qed.

(** An event type that names a member of [Object.prototype] passes the
    schema lookup: with an empty [data] it is acknowledged and nothing is
    appended, with any key in [data] the key check throws. *)
Lemma inherited_event_type :
  track (request "constructor" []) noon fresh_disk
  = (Success, mkFilesystem (Document empty_analytics) true)
  /\ track (request "constructor" [("a", VNull)]) noon fresh_disk
     = (Error 500 (js "Server error"), fresh_disk).
Proof. split; vm_compute; reflexivity. Qed.

(** Numbers print and parse as the language prescribes. *)
Lemma number_conversions :
  map (fun s => NumberToString.to_string (StringToNumber.parseFloat_string (js s)))
    ["0.1"; "1e21"; "12px"; "-0"; "1e-7"; "abc"; "1e400"; ".5e1"]
  = map js ["0.1"; "1e+21"; "12"; "0"; "1e-7"; "NaN"; "Infinity"; "5"]
  /\ map (fun s => NumberToString.toFixed
                     (StringToNumber.parseFloat_string (js s)) 2)
       ["1.005"; "8.345"; "-150"; "0"]
     = map js ["1.00"; "8.35"; "-150.00"; "0.00"].
Proof. split; vm_compute; reflexivity. Qed.

(** The spins query for the first fifty pages and every limit of
    [1, 200]: page [P] holds the spins [(P-1)*L, P*L) of the
    most-recent-first order. *)
Lemma spins_page_small_integers (P L : Z) (fs : filesystem) :
  1 <= P <= 50 -> 1 <= L <= 200 ->
  let all := spins (readData fs) in
  get_spins (numeral P) (numeral L) fs
  = Json (mkSpinsPage
            (firstn (Z.to_nat L) (skipn (Z.to_nat ((P - 1) * L)) (rev all)))
            (of_Z P) (of_Z L) (List.length all)
            (Math_ceil (div (of_nat (List.length all)) (of_Z L)))).
Proof.
  intros HP HL all.
  assert (Hall : forallb (fun P => forallb (exact_page P) (Zrange 1 200))
                   (Zrange 1 50) = true) by (vm_compute; reflexivity).
  rewrite forallb_forall in Hall.
  specialize (Hall P (Zrange_In 1 50 P ltac:(lia))).
  rewrite forallb_forall in Hall.
  specialize (Hall L (Zrange_In 1 200 L ltac:(lia))).
  unfold exact_page in Hall.
  destruct (query_page (numeral P)) as [p|] eqn:Ep; [|discriminate Hall].
  destruct (query_limit (numeral L)) as [l|] eqn:El; [|discriminate Hall].
  rewrite (get_spins_parsed (numeral P) (numeral L) fs p l Ep El). fold all.
  destruct (ToIntegerOrInfinity (mul (sub p (of_Z 1)) l)) as [|a|];
    try (rewrite andb_false_r in Hall; discriminate Hall).
  destruct (ToIntegerOrInfinity (add _ l)) as [|b|];
    try (rewrite andb_false_r in Hall; discriminate Hall).
  apply andb_true_iff in Hall as [Hpl Hab].
  apply andb_true_iff in Hpl as [Hp Hl].
  apply andb_true_iff in Hab as [Ha Hb].
  apply eqb_struct_eq in Hp, Hl. apply Z.eqb_eq in Ha, Hb. subst p l a b.
  replace ((P - 1) * L) with (Z.of_nat (Z.to_nat ((P - 1) * L))) at 1 by nia.
  replace (P * L) with (Z.of_nat (Z.to_nat (P * L))) by nia.
  rewrite slice_window by nia.
  do 3 f_equal. nia.
Qed.

(* ================================================================== *)
(** * Further properties of the ingestion handler *)

Lemma In_lastn {A : Type} (n : Z) (l : list A) (x : A) :
  In x (lastn n l) -> In x l.
Proof.
  unfold lastn. intros H.
  rewrite <- (firstn_skipn (List.length l - Z.to_nat n) l).
  apply in_or_app. now right.
Qed.

Lemma In_push_capped {A : Type} (cap : Z) (arr : list A) (r x : A) :
  0 < cap -> In x (push_capped cap arr r) -> In x arr \/ x = r.
Proof.
  intros Hc H. rewrite push_capped_lastn in H by assumption.
  apply In_lastn, in_app_or in H as [H|[H|[]]]; [now left | now right].
Qed.

Lemma last_lastn_snoc {A : Type} (n : Z) (l : list A) (r d : A) :
  0 < n -> last (lastn n (l ++ [r])) d = r.
Proof.
  intros Hn. unfold lastn. rewrite length_app. simpl List.length.
  replace (List.length l + 1 - Z.to_nat n)%nat
    with (List.length l - (Z.to_nat n - 1))%nat by lia.
  rewrite skipn_app.
  replace (List.length l - (Z.to_nat n - 1) - List.length l)%nat with 0%nat
    by lia.
  simpl skipn. apply last_last.
Qed.

Lemma sanitize_tidy (v : value) (m : nat) : tidy m (sanitize v m).
Proof.
  split; [apply sanitize_length|].
  destruct v; try (intros c []).
  intros c H. rewrite sanitize_string in H.
  apply filter_In in H as [_ H]. now apply clean_denylisted.
Qed.

(** The number [validateNumber] returns is the parsed one, finite and
    within the bounds. *)
Lemma validateNumber_range (v : value) (lo hi x : number) :
  isNaN lo = false -> isNaN hi = false ->
  validateNumber v lo hi = Some (Some x) ->
  parseFloat v = Some x
  /\ isFinite x = true /\ SFleb lo x = true /\ SFleb x hi = true.
Proof.
  intros Hlo Hhi H. unfold validateNumber in H.
  destruct (parseFloat v) as [n|]; [|discriminate H].
  destruct (isNaN n) eqn:E1; [discriminate H|].
  destruct (isFinite n) eqn:E2; [|discriminate H].
  destruct (ltb n lo) eqn:E3; [discriminate H|].
  destruct (gtb n hi) eqn:E4; [discriminate H|].
  injection H as <-. repeat split; try assumption; now apply not_ltb_leb.
Qed.

Lemma validateNumber_amount (v : value) (hi : Z) (x : number) :
  validateNumber v zero (of_Z hi) = Some (Some x) ->
  isNaN (of_Z hi) = false ->
  amount_within hi x.
Proof.
  intros H Hhi.
  apply validateNumber_range in H as (_ & H1 & H2 & H3);
    [now repeat split | reflexivity | assumption].
Qed.

Lemma json_number_amount (hi : Z) (x : number) :
  SFleb zero (of_Z hi) = true ->
  amount_within hi x -> amount_within hi (json_number x).
Proof.
  intros Hhi (H1 & H2 & H3). destruct x; try (now repeat split).
Qed.

Lemma or_zero_amount (c : option number) :
  (forall n, c = Some n -> amount_within 100 n) ->
  amount_within 100 (or_zero c).
Proof.
  intros H. destruct c as [n|]; [|now repeat split].
  unfold or_zero. destruct (is_zero n || isNaN n); [now repeat split|].
  now apply H.
Qed.

Lemma sequence_Forall2 {A : Type} (l : list (throws A)) (r : list A) :
  sequence l = Some r -> Forall2 (fun o x => o = Some x) l r.
Proof.
  revert r. induction l as [|[a|] l IH]; intros r H; simpl in H.
  - injection H as <-. constructor.
  - destruct (sequence l) as [r'|]; [|discriminate H].
    injection H as <-. constructor; [reflexivity | now apply IH].
  - discriminate H.
Qed.

(** The symbols of a stored spin: at most 18, each sanitized to 20. *)
Lemma spin_symbols_tidy (elems : list value) (syms : list jsstring) :
  sequence (map (fun s => option_map (fun t => sanitize (VStr t) 20)
                            (ToString s))
              (slice (Fin 0) (Some (Fin 18)) elems)) = Some syms ->
  (List.length syms <= 18)%nat /\ Forall (tidy 20) syms.
Proof.
  intros H. apply sequence_Forall2 in H.
  change 18 with (Z.of_nat 18) in H. rewrite slice_prefix in H.
  split.
  - rewrite <- (Forall2_length H), length_map, length_firstn. lia.
  - assert (HF : Forall (fun o => forall x, o = Some x -> tidy 20 x)
                   (map (fun s => option_map (fun t => sanitize (VStr t) 20)
                                    (ToString s)) (firstn 18 elems))).
    { apply Forall_forall. intros o Hin.
      apply in_map_iff in Hin as (s & <- & _). intros x Hx.
      destruct (ToString s) as [t|]; [|discriminate Hx].
      injection Hx as <-. exact (sanitize_tidy (VStr t) 20). }
    induction H as [|o x l r Ho _ IH]; constructor;
      inversion HF as [|? ? Hhd Htl]; subst; [now apply Hhd | now apply IH].
Qed.

Lemma valid_store_push_record (r : record) (a : analytics) :
  valid_store a -> valid_record r -> valid_store (push_record r a).
Proof.
  intros Ha Hr k x Hin.
  destruct r as [v|s|f|w], k;
    cbn [push_record log visits spins freeSpins bigWins] in Hin;
    try exact (Ha KVisit x Hin); try exact (Ha KSpin x Hin);
    try exact (Ha KFreeSpins x Hin); try exact (Ha KBigWin x Hin);
    apply in_map_iff in Hin as (y & <- & Hy);
    (apply In_push_capped in Hy as [Hy| ->]; [|exact Hr|lia]).
  - apply (Ha KVisit). now apply in_map.
  - apply (Ha KSpin). now apply in_map.
  - apply (Ha KFreeSpins). now apply in_map.
  - apply (Ha KBigWin). now apply in_map.
Qed.

Ltac split_fields :=
  repeat match goal with
         | |- tidy _ _ /\ _ => split
         | |- amount_within _ _ /\ _ => split
         | |- (_ <= _)%nat /\ _ => split
         | |- In _ _ /\ _ => split
         | |- (_ \/ _) /\ _ => split
         end.

Lemma json_record_valid (r : record) :
  valid_record r -> valid_record (json_record r).
Proof.
  destruct r as [v|s|f|w]; simpl; [tauto| | |].
  - intros (H1 & H2 & H3 & H4 & H5).
    split_fields; try assumption; now apply json_number_amount.
  - intros (H1 & H2 & H3 & H4).
    split_fields; try assumption; now apply json_number_amount.
  - intros (H1 & H2 & H3).
    split_fields; try assumption; now apply json_number_amount.
Qed.

Lemma valid_store_json (a : analytics) :
  valid_store a -> valid_store (json_roundtrip a).
Proof.
  intros H k r Hin. rewrite log_json_roundtrip in Hin.
  apply in_map_iff in Hin as (y & <- & Hy).
  apply json_record_valid. now apply (H k).
Qed.

(** What the [switch] appends is a valid record. *)
Lemma append_event_valid (name : jsstring) (data : value)
  (timestamp : jsstring) (a a' : analytics) :
  append_event name data timestamp a = Continue a' ->
  valid_store a -> valid_store a'.
Proof.
  intros H Ha. unfold append_event in H.
  destruct (jsstring_eqb name (js "visit")).
  { unfold bind, reject_if in H.
    destruct (negb _); [discriminate H|]. injection H as <-.
    apply (valid_store_push_record (RVisit _) a Ha).
    cbn [valid_record visit_sessionId userAgent screenSize referrer].
    split_fields; apply sanitize_tidy. }
  destruct (jsstring_eqb name (js "spin")).
  { unfold bind at 1, try at 1 in H.
    destruct (validateNumber _ _ _) as [b|] eqn:Eb; [|discriminate H].
    unfold bind at 1, try at 1 in H.
    destruct (validateNumber (get data "win") _ _) as [w|] eqn:Ew;
      [|discriminate H].
    destruct b as [b|]; [|discriminate H].
    destruct w as [w|]; [|discriminate H].
    unfold bind, try in H.
    assert (Hb := validateNumber_amount _ _ _ Eb eq_refl).
    assert (Hw := validateNumber_amount _ _ _ Ew eq_refl).
    destruct (get data "symbols") as [| | | | |elems|];
      try (injection H as <-;
           apply (valid_store_push_record (RSpin _) a Ha);
           cbn [valid_record spin_sessionId bet win symbols];
           split_fields; try assumption; try apply sanitize_tidy;
           [simpl; lia | constructor]).
    destruct (sequence _) as [syms|] eqn:Es; [|discriminate H].
    injection H as <-. apply spin_symbols_tidy in Es as [Hl Ht].
    apply (valid_store_push_record (RSpin _) a Ha).
    cbn [valid_record spin_sessionId bet win symbols].
    split_fields; try assumption; apply sanitize_tidy. }
  destruct (jsstring_eqb name (js "freeSpins")).
  { unfold bind at 1, try at 1 in H.
    destruct (validateNumber _ _ _) as [[fsWin|]|] eqn:Ew; try discriminate H.
    unfold bind, try in H.
    destruct (validateNumber (get data "spinsCount") _ _) as [count|] eqn:Ec;
      [|discriminate H].
    injection H as <-.
    apply (valid_store_push_record (RFreeSpins _) a Ha).
    cbn [valid_record freeSpins_sessionId mode totalWin spinsCount].
    split_fields; try apply sanitize_tidy.
    - apply (validateNumber_amount _ _ _ Ew eq_refl).
    - apply or_zero_amount. intros n ->.
      apply (validateNumber_amount _ _ _ Ec eq_refl). }
  destruct (jsstring_eqb name (js "bigWin")).
  { unfold bind, try in H.
    destruct (validateNumber _ _ _) as [[amt|]|] eqn:Ew; try discriminate H.
    injection H as <-.
    apply (valid_store_push_record (RBigWin _) a Ha).
    cbn [valid_record bigWin_sessionId tier amount].
    split_fields; try apply sanitize_tidy.
    - destruct (get data "tier") as [| | | |t| |]; try (now left).
      change (jsstring_eqb t (js "big")
              || (jsstring_eqb t (js "mega")
                  || (jsstring_eqb t (js "epic") || false)))
        with (includes (map js ["big"; "mega"; "epic"]) t).
      destruct (includes (map js ["big"; "mega"; "epic"]) t) eqn:Et;
        [now apply includes_In in Et | now left].
    - apply (validateNumber_amount _ _ _ Ew eq_refl). }
  now injection H as <-.
Qed.

(** One request, whatever its outcome, keeps the records valid. *)
Lemma track_keeps_valid_store (body : value) (timestamp : jsstring)
  (fs : filesystem) :
  valid_store (readData fs) ->
  valid_store (readData (snd (track body timestamp fs))).
Proof.
  intros H. unfold track.
  destruct (track_body body timestamp fs) as [|fs1] eqn:E; [exact H|].
  apply track_body_continue in E
    as (name & schema & a' & _ & _ & _ & _ & Ha & ->).
  unfold writeData. destruct (writable fs); [|exact H].
  apply valid_store_json. now apply (append_event_valid _ _ _ _ _ Ha).
Qed.

Lemma ingest_invariant (P : analytics -> Prop)
  (reqs : list (value * jsstring)) (fs : filesystem) :
  (forall body timestamp fs,
     P (readData fs) -> P (readData (snd (track body timestamp fs)))) ->
  P (readData fs) -> P (readData (ingest reqs fs)).
Proof.
  intros Hstep. revert fs. unfold ingest.
  induction reqs as [|[body t] reqs IH]; intros fs H; [exact H|].
  simpl. apply IH. now apply Hstep.
Qed.

(** X1. Whatever requests arrive and however they are answered, every
    record of the store stays valid: text fields sanitized and within
    their lengths, amounts finite and within their ranges, at most 18
    symbols of at most 20 characters, a tier of big, mega or epic.  A
    store that starts from a file that cannot be loaded is such a store. *)
Theorem ingest_keeps_valid_store (reqs : list (value * jsstring))
  (fs : filesystem) :
  valid_store (readData fs) \/ unloadable fs ->
  valid_store (readData (ingest reqs fs)).
Proof.
  intros H. apply ingest_invariant; [apply track_keeps_valid_store|].
  destruct H as [H|H]; [exact H|].
  assert (E : readData fs = empty_analytics).
  { unfold readData. now destruct H as [-> | [-> | ->]]. }
  rewrite E. intros k r Hin. now destruct k.
Qed.

Lemma ingest_keeps_valid_store_witness :
  valid_store (readData (ingest [(sample_visit, noon);
                                 (spin_with_text_bet, noon);
                                 (spin_of 10 100, noon)] fresh_disk)).
Proof. apply ingest_keeps_valid_store. right. now left. Defined.

(** X2. Whatever requests arrive and however they are answered, the four
    logs stay within their caps (10000 visits, 50000 spins, 5000 free-spin
    rounds, 5000 big wins). *)
Theorem ingest_within_caps (reqs : list (value * jsstring))
  (fs : filesystem) :
  within_caps (readData fs) \/ unloadable fs ->
  within_caps (readData (ingest reqs fs)).
Proof.
  intros H. apply ingest_invariant; [apply track_within_caps|].
  destruct H as [H|H]; [exact H|].
  assert (E : readData fs = empty_analytics).
  { unfold readData. now destruct H as [-> | [-> | ->]]. }
  rewrite E. intros k. now destruct k.
Qed.

Lemma ingest_within_caps_witness :
  within_caps (readData (ingest [(sample_visit, noon);
                                 (spin_of 10 100, noon)] fresh_disk)).
Proof. apply ingest_within_caps. right. now left. Defined.

(** X3. An accepted event of one kind, once written, leaves a loadable
    document in which the logs of the other kinds hold the records they
    held, in the same order. *)
Theorem track_touches_one_log (k : kind) (body : value)
  (timestamp : jsstring) (fs fs' : filesystem) :
  track body timestamp fs = (Success, fs') ->
  get body "eventType" = VStr (kind_name k) ->
  writable fs = true ->
  (exists a, file fs' = Document a)
  /\ forall k', k' <> k ->
       log k' (readData fs') = map json_record (log k' (readData fs)).
Proof.
  intros H Hk Hw. split.
  - unfold track in H.
    destruct (track_body body timestamp fs) as [|fs1] eqn:E; [discriminate H|].
    injection H as <-.
    apply track_body_continue in E as (name & schema & a' & _ & _ & _ & _ & _ & ->).
    unfold writeData. rewrite Hw. eexists. reflexivity.
  - now destruct (track_append k _ _ _ _ H Hk Hw) as (_ & r & _ & _ & _ & Ho).
Qed.

Lemma track_touches_one_log_witness :
  log KSpin (readData (snd (track sample_visit noon fresh_disk))) = [].
Proof.
  refine (proj2 (track_touches_one_log KVisit sample_visit noon fresh_disk
                   (snd (track sample_visit noon fresh_disk)) _ eq_refl eq_refl)
            KSpin _).
  - vm_compute. reflexivity.
  - discriminate.
Defined.

Ltac eval_eqb :=
  repeat match goal with
  | |- context [jsstring_eqb (js ?a) (js ?b)] =>
      let v := eval vm_compute in (jsstring_eqb (js a) (js b)) in
      change (jsstring_eqb (js a) (js b)) with v
  end.

Lemma push_capped_map {A B : Type} (f : A -> B) (c : Z) (l : list A) (x : A) :
  0 < c -> map f (push_capped c l x) = push_capped c (map f l) (f x).
Proof.
  intros Hc. rewrite !push_capped_lastn by assumption.
  now rewrite <- lastn_map, map_app.
Qed.

(** The record the [switch] pushes: the handler's timestamp and the
    sanitized [sessionId] of the request. *)
Lemma append_event_record (k : kind) (data : value) (timestamp : jsstring)
  (a a' : analytics) :
  append_event (kind_name k) data timestamp a = Continue a' ->
  exists r,
    a' = push_record r a
    /\ log k (push_record r a) = push_capped (cap k) (log k a) r
    /\ record_timestamp r = timestamp
    /\ record_sessionId r = sanitize (get data "sessionId") 50.
Proof.
  intros H. unfold append_event in H.
  destruct k; unfold kind_name in H; eval_eqb_in H; cbv iota in H.
  - unfold bind, reject_if in H.
    destruct (negb _); [discriminate H|]. injection H as <-.
    eexists (RVisit (mkVisit timestamp _ _ _ _)).
    split; [reflexivity|]. split; [|split; reflexivity].
    cbn [push_record log visits cap]. now apply push_capped_map.
  - unfold bind at 1, try at 1 in H.
    destruct (validateNumber _ _ _) as [b|]; [|discriminate H].
    unfold bind at 1, try at 1 in H.
    destruct (validateNumber _ _ _) as [w|]; [|discriminate H].
    destruct b as [b|]; [|discriminate H].
    destruct w as [w|]; [|discriminate H].
    unfold bind, try in H.
    match type of H with
    | match match ?x with _ => _ end with _ => _ end = _ =>
        destruct x as [syms|]; [|discriminate H]
    end.
    injection H as <-.
    eexists (RSpin (mkSpin timestamp _ _ _ _)).
    split; [reflexivity|]. split; [|split; reflexivity].
    cbn [push_record log spins cap]. now apply push_capped_map.
  - unfold bind at 1, try at 1 in H.
    destruct (validateNumber _ _ _) as [fsWin|]; [|discriminate H].
    destruct fsWin as [fsWin|]; [|discriminate H].
    unfold bind, try in H.
    destruct (validateNumber _ _ _) as [count|]; [|discriminate H].
    injection H as <-.
    eexists (RFreeSpins (mkFreeSpins timestamp _ _ _ _)).
    split; [reflexivity|]. split; [|split; reflexivity].
    cbn [push_record log freeSpins cap]. now apply push_capped_map.
  - unfold bind, try in H.
    destruct (validateNumber _ _ _) as [amt|]; [|discriminate H].
    destruct amt as [amt|]; [|discriminate H].
    injection H as <-.
    eexists (RBigWin (mkBigWin timestamp _ _ _)).
    split; [reflexivity|]. split; [|split; reflexivity].
    cbn [push_record log bigWins cap]. now apply push_capped_map.
Qed.

Lemma json_record_sessionId (r : record) :
  record_sessionId (json_record r) = record_sessionId r.
Proof. now destruct r. Qed.

Lemma cap_positive (k : kind) : 0 < cap k.
Proof. now destruct k. Qed.

(** X4. Every accepted event is stored as the newest record of the log of
    its kind, with the time the request arrived at and with
    [sanitize(data.sessionId, 50)] as [sessionId]; it is the empty string
    when the request has no [sessionId], which only the visit branch
    refuses. *)
Theorem accepted_event_is_newest_record (k : kind) (body : value)
  (timestamp : jsstring) (fs fs' : filesystem) (d : record) :
  track body timestamp fs = (Success, fs') ->
  get body "eventType" = VStr (kind_name k) ->
  writable fs = true ->
  let r := last (log k (readData fs')) d in
  log k (readData fs') <> []
  /\ record_timestamp r = timestamp
  /\ record_sessionId r = sanitize (get (get body "data") "sessionId") 50
  /\ (get (get body "data") "sessionId" = VUndefined ->
      record_sessionId r = [] /\ k <> KVisit).
Proof.
  intros H Hk Hw r. unfold track in H.
  destruct (track_body body timestamp fs) as [|fs1] eqn:E; [discriminate H|].
  injection H as <-.
  apply track_body_continue in E
    as (name & schema & a' & Hn & _ & _ & _ & Ha & ->).
  rewrite Hk in Hn. injection Hn as <-.
  destruct (readData_writeData fs a' Hw) as [Hr _].
  assert (Hvisit : get (get body "data") "sessionId" = VUndefined ->
                   k <> KVisit).
  { intros Hs ->. unfold append_event, kind_name in Ha.
    rewrite jsstring_eqb_refl, Hs in Ha. discriminate Ha. }
  apply append_event_record in Ha as (x & -> & Hl & Ht & Hs).
  assert (Hlog : log k (readData (snd (writeData fs (push_record x (readData fs)))))
                 = lastn (cap k)
                     (map json_record (log k (readData fs)) ++ [json_record x])).
  { rewrite Hr, log_json_roundtrip, Hl.
    rewrite push_capped_lastn by apply cap_positive.
    now rewrite <- lastn_map, map_app. }
  unfold r. rewrite Hlog.
  rewrite last_lastn_snoc by apply cap_positive.
  rewrite json_record_timestamp, json_record_sessionId.
  split.
  - intros E. apply (f_equal (@List.length record)) in E.
    rewrite lastn_length, length_app in E. simpl in E.
    pose proof (cap_positive k). lia.
  - split; [assumption|]. split; [assumption|].
    intros Hu. split; [|now apply Hvisit]. rewrite Hs, Hu. reflexivity.
Qed.

Lemma accepted_event_is_newest_record_witness :
  record_sessionId
    (last (log KSpin (readData (snd (track (spin_of 10 0) noon fresh_disk))))
       (RSpin (mkSpin [] [] zero zero [])))
  = [].
Proof.
  refine (proj1 (proj2 (proj2 (proj2
            (accepted_event_is_newest_record KSpin (spin_of 10 0) noon
               fresh_disk (snd (track (spin_of 10 0) noon fresh_disk))
               (RSpin (mkSpin [] [] zero zero [])) _ eq_refl eq_refl))) eq_refl)).
  vm_compute. reflexivity.
Defined.

Lemma track_well_formed (k : kind) (body : value) (timestamp : jsstring)
  (fs : filesystem) :
  well_formed k body ->
  track body timestamp fs
  = match append_event (kind_name k) (get body "data") timestamp
            (readData fs) with
    | Return status error => (Error status error, fs)
    | Continue a' => (Success, snd (writeData fs a'))
    end.
Proof.
  intros Hwf. unfold track.
  rewrite (track_body_well_formed k body timestamp fs Hwf).
  unfold bind. now destruct (append_event _ _ _ _).
Qed.

Lemma In_prefix {A : Type} (n : nat) (l : list A) (x : A) :
  In x (firstn n l) -> In x l.
Proof.
  intros H. rewrite <- (firstn_skipn n l). apply in_or_app. now left.
Qed.

(** X5. A well-formed visit is accepted exactly when [data.sessionId] is
    truthy, and is otherwise refused with 400 "Missing sessionId".  The
    test is made before sanitization: the stored record holds the four
    sanitized fields, and its [sessionId] is empty when the given one only
    had characters that are stripped. *)
Theorem visit_needs_truthy_session (body : value) (timestamp : jsstring)
  (fs : filesystem) :
  well_formed KVisit body ->
  let data := get body "data" in
  (truthy (get data "sessionId") = false ->
   track body timestamp fs = (Error 400 (js "Missing sessionId"), fs))
  /\ (truthy (get data "sessionId") = true ->
      track body timestamp fs
      = (Success,
         snd (writeData fs
                (push_record
                   (RVisit (mkVisit timestamp
                              (sanitize (get data "sessionId") 50)
                              (sanitize (get data "userAgent") 300)
                              (sanitize (get data "screenSize") 20)
                              (sanitize (get data "referrer") 200)))
                   (readData fs)))))
  /\ (forall s, get data "sessionId" = VStr s ->
      (forall c, In c s -> denylisted c) ->
      sanitize (get data "sessionId") 50 = []).
Proof.
  intros Hwf data. rewrite (track_well_formed KVisit body timestamp fs Hwf).
  fold data. unfold append_event, kind_name. rewrite jsstring_eqb_refl.
  split; [|split].
  - intros ->. reflexivity.
  - intros ->. reflexivity.
  - intros s -> Hs. rewrite sanitize_string.
    apply filter_none. apply Forall_forall. intros c Hc.
    apply In_prefix in Hc.
    destruct (clean c) eqn:E; [|reflexivity].
    apply clean_denylisted in E. exfalso. now apply E, Hs.
Qed.

Lemma visit_needs_truthy_session_witness :
  track (request "visit" [("sessionId", VStr (js "<>"))]) noon fresh_disk
  = (Success,
     mkFilesystem
       (Document (mkAnalytics [mkVisit noon [] [] [] []] [] [] [])) true).
Proof.
  refine (eq_trans
            (proj1 (proj2 (visit_needs_truthy_session
                             (request "visit" [("sessionId", VStr (js "<>"))])
                             noon fresh_disk _)) eq_refl) _).
  - repeat split; reflexivity.
  - vm_compute. reflexivity.
Defined.

(** X6. A well-formed big-win event is decided by [amount] alone: 500
    when its conversion throws, 400 "Invalid amount" when it does not
    parse to a finite number of [0, 10000000], accepted otherwise.  The
    tier never refuses an event: the stored tier is the given one when it
    is the string big, mega or epic, and big in every other case. *)
Theorem big_win_decided_by_amount (body : value) (timestamp : jsstring)
  (fs : filesystem) :
  well_formed KBigWin body ->
  let data := get body "data" in
  let checked := validateNumber (get data "amount") zero (of_Z 10000000) in
  (checked = None ->
   track body timestamp fs = (Error 500 (js "Server error"), fs))
  /\ (checked = Some None ->
      track body timestamp fs = (Error 400 (js "Invalid amount"), fs))
  /\ (forall x, checked = Some (Some x) ->
      exists t,
        track body timestamp fs
        = (Success,
           snd (writeData fs
                  (push_record
                     (RBigWin (mkBigWin timestamp
                                 (sanitize (get data "sessionId") 50) t x))
                     (readData fs))))
        /\ In t (map js ["big"; "mega"; "epic"])
        /\ (forall t', get data "tier" = VStr t' ->
            In t' (map js ["big"; "mega"; "epic"]) -> t = t')
        /\ ((forall t', get data "tier" = VStr t' ->
             ~ In t' (map js ["big"; "mega"; "epic"])) -> t = js "big")).
Proof.
  intros Hwf data checked.
  rewrite (track_well_formed KBigWin body timestamp fs Hwf). fold data.
  unfold append_event, kind_name. eval_eqb. cbv iota. fold checked.
  split; [|split].
  - intros ->. reflexivity.
  - intros ->. reflexivity.
  - intros x ->. cbn [try bind]. cbv zeta.
    eexists. split; [reflexivity|].
    destruct (get data "tier") as [| | | |t| |];
      try (split; [now left|]; split; [discriminate | reflexivity]).
    destruct (includes (map js ["big"; "mega"; "epic"]) t) eqn:Et.
    + apply includes_In in Et. split; [assumption|]. split.
      * intros t' E _. now injection E.
      * intros H. exfalso. now apply (H t eq_refl).
    + split; [now left|]. split; [|reflexivity].
      intros t' E H. injection E as ->.
      apply includes_In in H. congruence.
Qed.

Lemma big_win_decided_by_amount_witness :
  exists t,
    track (big_win_of "s1" (VStr (js "jackpot")) 500) noon fresh_disk
    = (Success,
       snd (writeData fresh_disk
              (push_record
                 (RBigWin (mkBigWin noon (js "s1") t (of_Z 500)))
                 (readData fresh_disk))))
    /\ t = js "big".
Proof.
  destruct (proj2 (proj2 (big_win_decided_by_amount
                            (big_win_of "s1" (VStr (js "jackpot")) 500)
                            noon fresh_disk
                            ltac:(repeat split; reflexivity)))
              (of_Z 500) eq_refl) as (t & Ht & _ & _ & Hd).
  exists t. split; [exact Ht|]. apply Hd.
  intros t' E. injection E as <-. vm_compute. intuition discriminate.
Defined.

(** X7. A well-formed free-spins event is decided by [totalWin]: 400
    "Invalid totalWin" when it does not parse to a finite number of
    [0, 10000000].  A [spinsCount] that is absent, does not parse or is
    outside [0, 100] never refuses the event: 0 is stored in its place;
    only a [spinsCount] whose conversion throws gives the 500 reply. *)
Theorem free_spins_count_defaults (body : value) (timestamp : jsstring)
  (fs : filesystem) :
  well_formed KFreeSpins body ->
  let data := get body "data" in
  let checked := validateNumber (get data "totalWin") zero (of_Z 10000000) in
  let count := validateNumber (get data "spinsCount") zero (of_Z 100) in
  (checked = Some None ->
   track body timestamp fs = (Error 400 (js "Invalid totalWin"), fs))
  /\ (forall x, checked = Some (Some x) ->
      (count = None ->
       track body timestamp fs = (Error 500 (js "Server error"), fs))
      /\ (forall c, count = Some c ->
          exists n,
            track body timestamp fs
            = (Success,
               snd (writeData fs
                      (push_record
                         (RFreeSpins
                            (mkFreeSpins timestamp
                               (sanitize (get data "sessionId") 50)
                               (sanitize (get data "mode") 20) x n))
                         (readData fs))))
            /\ amount_within 100 n
            /\ (c = None -> n = zero)
            /\ (forall m, c = Some m -> is_zero m = false -> n = m))).
Proof.
  intros Hwf data checked count.
  rewrite (track_well_formed KFreeSpins body timestamp fs Hwf). fold data.
  unfold append_event, kind_name. eval_eqb. cbv iota. fold checked count.
  split.
  - intros ->. reflexivity.
  - intros x ->. cbn [try bind]. split.
    + intros ->. reflexivity.
    + intros c Hc. rewrite Hc. cbn [try bind].
      eexists. split; [reflexivity|]. split; [|split].
      * apply or_zero_amount. intros m ->.
        apply (validateNumber_amount _ _ _ Hc eq_refl).
      * intros ->. reflexivity.
      * intros m -> Hz. unfold or_zero. rewrite Hz.
        apply validateNumber_range in Hc as (_ & Hf & _); try reflexivity.
        now destruct m.
Qed.

Lemma free_spins_count_defaults_witness :
  exists n,
    track (request "freeSpins" [("totalWin", VNum (of_Z 40));
                                ("spinsCount", VStr (js "many"))])
      noon fresh_disk
    = (Success,
       snd (writeData fresh_disk
              (push_record
                 (RFreeSpins (mkFreeSpins noon [] [] (of_Z 40) n))
                 (readData fresh_disk))))
    /\ n = zero.
Proof.
  destruct (proj2 (proj2 (free_spins_count_defaults
                            (request "freeSpins"
                               [("totalWin", VNum (of_Z 40));
                                ("spinsCount", VStr (js "many"))])
                            noon fresh_disk
                            ltac:(repeat split; reflexivity))
                     (of_Z 40) eq_refl) None eq_refl)
    as (n & Hn & _ & Hz & _).
  exists n. split; [exact Hn | now apply Hz].
Defined.

Lemma EVENT_SCHEMAS_inherited (name : jsstring) (s : jsstring) :
  assoc name Object_prototype = Some s ->
  EVENT_SCHEMAS name = Some NotAnArray
  /\ forall data timestamp a,
       append_event name data timestamp a = Continue a.
Proof.
  intros H.
  assert (Hk : forall k, jsstring_eqb name (kind_name k) = false).
  { intros k. apply jsstring_eqb_neq. intros ->. now destruct k. }
  pose proof (Hk KVisit : jsstring_eqb name (js "visit") = false) as H1.
  pose proof (Hk KSpin : jsstring_eqb name (js "spin") = false) as H2.
  pose proof (Hk KFreeSpins : jsstring_eqb name (js "freeSpins") = false) as H3.
  pose proof (Hk KBigWin : jsstring_eqb name (js "bigWin") = false) as H4.
  unfold EVENT_SCHEMAS, append_event.
  rewrite H1, H2, H3, H4, H.
  now split.
Qed.

(** X8. An event type that names a member of [Object.prototype] (such as
    "constructor" or "toString") is not refused as unknown.  With a [data]
    object without keys the request is acknowledged, nothing is appended,
    and the document that was read is written back; with any key in
    [data] the key check throws and the reply is the generic 500. *)
Theorem inherited_event_type_passes (body : value) (timestamp : jsstring)
  (fs : filesystem) (name member : jsstring) :
  validateKeys body (KeyList (map js ["eventType"; "data"])) = Some true ->
  get body "eventType" = VStr name ->
  assoc name Object_prototype = Some member ->
  truthy (get body "data") = true ->
  typeof_object (get body "data") = true ->
  (Object_keys (get body "data") = [] ->
   track body timestamp fs = (Success, snd (writeData fs (readData fs))))
  /\ (Object_keys (get body "data") <> [] ->
      track body timestamp fs = (Error 500 (js "Server error"), fs)).
Proof.
  intros Hv Hn Hm Ht Ho.
  destruct (EVENT_SCHEMAS_inherited name member Hm) as [Hs Ha].
  assert (Hne : name <> []) by (intros ->; discriminate Hm).
  unfold track.
  rewrite (track_body_envelope body timestamp fs name NotAnArray
             Hv Hn Hne Ht Ho Hs).
  unfold validateKeys. rewrite Ht, Ho. cbn [negb orb].
  split.
  - intros ->. cbn [try bind negb reject_if]. now rewrite Ha.
  - intros H. destruct (Object_keys (get body "data")); [contradiction|].
    reflexivity.
Qed.

Lemma inherited_event_type_passes_witness :
  track (request "toString" []) noon (mkFilesystem Corrupt true)
  = (Success, mkFilesystem (Document empty_analytics) true).
Proof.
  refine (eq_trans
            (proj1 (inherited_event_type_passes (request "toString" []) noon
                      (mkFilesystem Corrupt true) (js "toString")
                      (js "function toString() { [native code] }")
                      eq_refl eq_refl eq_refl eq_refl eq_refl) eq_refl) _).
  reflexivity.
Defined.

(** X9. A data file that cannot be loaded is replaced, not repaired: after
    the first accepted event is written, the log of its kind holds that
    one record and the other logs are empty. *)
Theorem unloadable_file_is_replaced (k : kind) (body : value)
  (timestamp : jsstring) (fs fs' : filesystem) :
  unloadable fs ->
  writable fs = true ->
  track body timestamp fs = (Success, fs') ->
  get body "eventType" = VStr (kind_name k) ->
  (exists r, log k (readData fs') = [r] /\ record_timestamp r = timestamp)
  /\ forall k', k' <> k -> log k' (readData fs') = [].
Proof.
  intros Hu Hw H Hk.
  assert (E : readData fs = empty_analytics).
  { unfold readData. now destruct Hu as [-> | [-> | ->]]. }
  destruct (track_append k _ _ _ _ H Hk Hw) as (_ & r & Ht & _ & Hl & Ho).
  rewrite E in Hl, Ho. split.
  - exists r. split; [|assumption]. rewrite Hl.
    replace (map json_record (log k empty_analytics)) with (@nil record)
      by now destruct k.
    apply lastn_all. simpl. pose proof (cap_positive k). lia.
  - intros k' Hk'. rewrite (Ho k' Hk'). now destruct k'.
Qed.

Lemma unloadable_file_is_replaced_witness :
  log KSpin (readData (snd (track sample_visit noon
                              (mkFilesystem Corrupt true)))) = [].
Proof.
  refine (proj2 (unloadable_file_is_replaced KVisit sample_visit noon
                   (mkFilesystem Corrupt true)
                   (snd (track sample_visit noon (mkFilesystem Corrupt true)))
                   _ eq_refl _ eq_refl) KSpin _).
  - right. now right.
  - vm_compute. reflexivity.
  - discriminate.
Defined.

(* ------------------------------------------------------------------ *)
(** ** Validation and sanitization helpers *)

(** X11. [validateNumber] returns a number exactly when the value converts
    and parses to a finite number that is neither below [min] nor above
    [max], and the number it returns is the parsed one. *)
Theorem validateNumber_exact (v : value) (lo hi x : number) :
  isNaN lo = false -> isNaN hi = false ->
  validateNumber v lo hi = Some (Some x)
  <-> parseFloat v = Some x
      /\ isFinite x = true /\ SFleb lo x = true /\ SFleb x hi = true.
Proof.
  intros Hlo Hhi. split; [now apply validateNumber_range|].
  intros (E & Hf & H1 & H2). unfold validateNumber. rewrite E.
  unfold ltb, gtb.
  rewrite (leb_not_ltb lo x H1), (leb_not_ltb x hi H2), Hf.
  now destruct x.
Qed.

Lemma validateNumber_exact_witness :
  validateNumber (VStr (js "12.5px")) zero (of_Z 10000)
  = Some (Some (of_decimal false 125 (-1))).
Proof.
  apply (validateNumber_exact (VStr (js "12.5px")) zero (of_Z 10000)
           (of_decimal false 125 (-1)) eq_refl eq_refl).
  repeat split; reflexivity.
Defined.

(** X12. [sanitize] only removes: it returns a string unchanged exactly
    when the string is no longer than the maximum and has no denylisted
    character. *)
Theorem sanitize_fixed_points (s : jsstring) (m : nat) :
  sanitize (VStr s) m = s
  <-> (List.length s <= m)%nat /\ forall c, In c s -> ~ denylisted c.
Proof.
  rewrite sanitize_string. split.
  - intros E. split.
    + rewrite <- E. etransitivity; [apply filter_length_le|].
      rewrite length_firstn. lia.
    + intros c Hc. rewrite <- E in Hc.
      apply filter_In in Hc as [_ Hc]. now apply clean_denylisted.
  - intros [Hl Hc]. rewrite firstn_all2 by assumption.
    apply filter_all. apply Forall_forall. intros c Hin.
    apply clean_denylisted. now apply Hc.
Qed.

(* ================================================================== *)
(** * Further properties of the statistics *)

Lemma count_tier_valid (nb nm ne : N) (t : jsstring) :
  In t (map js ["big"; "mega"; "epic"]) ->
  count_tier [(js "big", Wins nb); (js "mega", Wins nm); (js "epic", Wins ne)] t
  = [(js "big", Wins (nb + if jsstring_eqb (js "big") t then 1 else 0));
     (js "mega", Wins (nm + if jsstring_eqb (js "mega") t then 1 else 0));
     (js "epic", Wins (ne + if jsstring_eqb (js "epic") t then 1 else 0))].
Proof.
  intros [<-|[<-|[<-|[]]]]; unfold count_tier; cbn [assoc]; eval_eqb;
    cbv iota; cbn [replace increment]; eval_eqb; cbv iota;
    now rewrite !N.add_0_r.
Qed.

Lemma bigWinCounts_valid (l : list BigWin) (nb nm ne : N) :
  Forall (fun w => In (tier w) (map js ["big"; "mega"; "epic"])) l ->
  fold_left (fun o w => count_tier o (tier w)) l
    [(js "big", Wins nb); (js "mega", Wins nm); (js "epic", Wins ne)]
  = [(js "big", Wins (nb + occurrences (js "big") (map tier l)));
     (js "mega", Wins (nm + occurrences (js "mega") (map tier l)));
     (js "epic", Wins (ne + occurrences (js "epic") (map tier l)))].
Proof.
  intros H. revert nb nm ne.
  induction H as [|w l Hw _ IH]; intros nb nm ne.
  - simpl. now rewrite !N.add_0_r.
  - cbn [fold_left map occurrences]. rewrite (count_tier_valid _ _ _ _ Hw).
    rewrite IH. now rewrite !N.add_assoc.
Qed.

Lemma occurrences_three (l : list jsstring) :
  Forall (fun t => In t (map js ["big"; "mega"; "epic"])) l ->
  (occurrences (js "big") l + occurrences (js "mega") l
   + occurrences (js "epic") l)%N = N.of_nat (List.length l).
Proof.
  induction 1 as [|t l Ht _ IH]; [reflexivity|].
  cbn [occurrences List.length]. rewrite Nat2N.inj_succ, <- IH.
  destruct Ht as [<-|[<-|[<-|[]]]];
    eval_eqb; cbv iota; lia.
Qed.

(** X13. When every stored big win has the tier big, mega or epic (as the
    ingestion handler stores them), [bigWinCounts] has exactly these
    three counters, each the number of big wins of its tier, and they add
    up to the number of big wins. *)
Theorem bigWinCounts_per_tier (a : analytics) :
  Forall (fun t => In t (map js ["big"; "mega"; "epic"])) (tiers a) ->
  bigWinCounts a
  = [(js "big", Wins (occurrences (js "big") (tiers a)));
     (js "mega", Wins (occurrences (js "mega") (tiers a)));
     (js "epic", Wins (occurrences (js "epic") (tiers a)))]
  /\ (occurrences (js "big") (tiers a) + occurrences (js "mega") (tiers a)
      + occurrences (js "epic") (tiers a))%N
     = N.of_nat (List.length (bigWins a)).
Proof.
  intros H. split.
  - unfold bigWinCounts. rewrite bigWinCounts_valid; [reflexivity|].
    unfold tiers in H. now rewrite Forall_map in H.
  - rewrite (occurrences_three _ H). unfold tiers. now rewrite length_map.
Qed.

Lemma bigWinCounts_per_tier_witness :
  bigWinCounts
    (readData (ingest [(big_win_of "s1" (VStr (js "mega")) 900, noon);
                       (big_win_of "s2" (VStr (js "jackpot")) 50, noon);
                       (big_win_of "s3" VNull 70, noon)] fresh_disk))
  = [(js "big", Wins 2); (js "mega", Wins 1); (js "epic", Wins 0)].
Proof.
  refine (eq_trans (proj1 (bigWinCounts_per_tier _ _)) _).
  - vm_compute. repeat constructor; tauto.
  - vm_compute. reflexivity.
Defined.

(** A tier that names a member of [Object.prototype], which only a file
    written by hand can hold, adds a NaN counter under that name. *)
Lemma inherited_tier_counter :
  bigWinCounts (mkAnalytics [] [] []
                  [mkBigWin noon [] (js "valueOf") (of_Z 5);
                   mkBigWin noon [] (js "big") (of_Z 5)])
  = [(js "big", Wins 1); (js "mega", Wins 0); (js "epic", Wins 0);
     (js "valueOf", NotANumber)].
Proof. vm_compute. reflexivity. Qed.

Lemma distinct_length (l : list jsstring) :
  (List.length (distinct l) <= List.length l)%nat.
Proof.
  apply NoDup_incl_length; [apply distinct_NoDup|].
  intros x H. exact (proj1 (distinct_In l x) H).
Qed.

(** X14. [uniqueSessions] counts every session id of the visits once: it
    is the length of a duplicate-free list of exactly the session ids that
    occur, so it is at most [totalVisits], and it equals [totalVisits]
    exactly when no two visits share their session id. *)
Theorem uniqueSessions_counts_once (fs : filesystem) :
  let ids := map visit_sessionId (visits (readData fs)) in
  (exists once, NoDup once
                /\ (forall x, In x once <-> In x ids)
                /\ stats_uniqueSessions (stats fs) = List.length once)
  /\ (stats_uniqueSessions (stats fs) <= stats_totalVisits (stats fs))%nat
  /\ (stats_uniqueSessions (stats fs) = stats_totalVisits (stats fs)
      <-> NoDup ids).
Proof.
  intros ids. cbn [stats stats_uniqueSessions stats_totalVisits]. fold ids.
  assert (Hlen : List.length (visits (readData fs)) = List.length ids)
    by (unfold ids; now rewrite length_map).
  rewrite Hlen. split; [|split].
  - exists (distinct ids). split; [apply distinct_NoDup|].
    split; [intros x; apply distinct_In | reflexivity].
  - apply distinct_length.
  - assert (Hincl : incl ids (distinct ids))
      by (intros x Hx; exact (proj2 (distinct_In ids x) Hx)).
    split.
    + intros E. apply (NoDup_incl_NoDup (distinct_NoDup ids)); [lia|].
      intros x Hx. exact (proj1 (distinct_In ids x) Hx).
    + intros Hnd. apply Nat.le_antisymm; [apply distinct_length|].
      now apply NoDup_incl_length.
Qed.

(* ================================================================== *)
(** * Further properties of the queries *)

Lemma firstn_add {A : Type} (a b : nat) (l : list A) :
  firstn (a + b) l = firstn a l ++ firstn b (skipn a l).
Proof.
  revert l. induction a as [|a IH]; intros l; [reflexivity|].
  destruct l as [|x l]; [now rewrite !firstn_nil|].
  simpl. f_equal. apply IH.
Qed.

Lemma Zrange_succ (lo : Z) (n : nat) :
  Zrange lo (S n) = Zrange lo n ++ [lo + Z.of_nat n].
Proof. unfold Zrange. now rewrite seq_S, map_app. Qed.

Lemma page_of_small_integers (P L : Z) (fs : filesystem) :
  1 <= P <= 50 -> 1 <= L <= 200 ->
  page_of P L fs
  = firstn (Z.to_nat L)
      (skipn (Z.to_nat ((P - 1) * L)) (rev (spins (readData fs)))).
Proof.
  intros HP HL. unfold page_of.
  now rewrite (spins_page_small_integers P L fs HP HL).
Qed.

(** X15. The spins query pages the spins, most recent first, in
    consecutive blocks: for a limit [L] of [1, 200], page [P] (up to page
    50) holds the spins [(P-1)*L, P*L) of that order, so the first [k]
    pages together are the [k*L] most recent spins, each once, and all the
    spins when there are no more than that.  Without page and limit the
    query returns the 50 most recent spins. *)
Theorem spins_pages_are_consecutive (L : Z) (k : nat) (fs : filesystem) :
  1 <= L <= 200 -> (k <= 50)%nat ->
  let recent := rev (spins (readData fs)) in
  (forall P, 1 <= P <= 50 ->
     page_of P L fs
     = firstn (Z.to_nat L) (skipn (Z.to_nat ((P - 1) * L)) recent))
  /\ List.concat (map (fun P => page_of P L fs) (Zrange 1 k))
     = firstn (k * Z.to_nat L) recent
  /\ ((List.length recent <= k * Z.to_nat L)%nat ->
      List.concat (map (fun P => page_of P L fs) (Zrange 1 k)) = recent)
  /\ get_spins VUndefined VUndefined fs
     = Json (mkSpinsPage (firstn 50 recent) (of_Z 1) (of_Z 50)
               (List.length (spins (readData fs)))
               (Math_ceil (div (of_nat (List.length (spins (readData fs))))
                             (of_Z 50)))).
Proof.
  intros HL Hk recent.
  assert (Hcat : List.concat (map (fun P => page_of P L fs) (Zrange 1 k))
                 = firstn (k * Z.to_nat L) recent).
  { induction k as [|k IH]; [reflexivity|].
    rewrite Zrange_succ, map_app, concat_app, IH by lia.
    cbn [map List.concat]. rewrite app_nil_r.
    rewrite (page_of_small_integers (1 + Z.of_nat k) L fs) by lia.
    fold recent.
    replace (Z.to_nat ((1 + Z.of_nat k - 1) * L)) with (k * Z.to_nat L)%nat
      by nia.
    replace (S k * Z.to_nat L)%nat with (k * Z.to_nat L + Z.to_nat L)%nat
      by lia.
    symmetry. apply firstn_add. }
  split; [intros P HP; now apply page_of_small_integers|].
  split; [exact Hcat|]. split.
  - intros Hlen. rewrite Hcat. now apply firstn_all2.
  - rewrite (get_spins_parsed VUndefined VUndefined fs (of_Z 1) (of_Z 50)
               eq_refl eq_refl).
    change (ToIntegerOrInfinity (mul (sub (of_Z 1) (of_Z 1)) (of_Z 50)))
      with (Fin (Z.of_nat 0)).
    change (ToIntegerOrInfinity
              (add (mul (sub (of_Z 1) (of_Z 1)) (of_Z 50)) (of_Z 50)))
      with (Fin (Z.of_nat 50)).
    now rewrite slice_window by lia.
Qed.

Lemma spins_pages_are_consecutive_witness :
  List.concat (map (fun P => page_of P 3 (snd (serve four_spins fresh_disk)))
            (Zrange 1 2))
  = rev (spins (readData (snd (serve four_spins fresh_disk)))).
Proof.
  refine (proj1 (proj2 (proj2 (spins_pages_are_consecutive 3 2
                                 (snd (serve four_spins fresh_disk)) _ _))) _).
  - lia.
  - lia.
  - vm_compute. lia.
Defined.

(** X16. For a limit [L] of [1, 200] and a store of at most 100 spins, the
    [totalPages] of the spins query is the number of pages that hold a
    spin: the ceiling of the number of spins over [L]. *)
Theorem spins_total_pages (P L : Z) (fs : filesystem) :
  1 <= P <= 50 -> 1 <= L <= 200 ->
  (List.length (spins (readData fs)) <= 100)%nat ->
  exists r,
    get_spins (numeral P) (numeral L) fs = Json r
    /\ page_total r = List.length (spins (readData fs))
    /\ page_totalPages r
       = of_Z ((Z.of_nat (List.length (spins (readData fs))) + L - 1) / L).
Proof.
  intros HP HL Hn.
  rewrite (spins_page_small_integers P L fs HP HL).
  eexists. split; [reflexivity|]. split; [reflexivity|].
  cbn [page_totalPages].
  assert (Hall : forallb (fun n => forallb (exact_page_count n) (Zrange 1 200))
                   (Zrange 0 101) = true) by (vm_compute; reflexivity).
  rewrite forallb_forall in Hall.
  assert (Hin : In (Z.of_nat (List.length (spins (readData fs))))
                   (Zrange 0 101)) by (apply Zrange_In; lia).
  specialize (Hall _ Hin).
  rewrite forallb_forall in Hall.
  assert (HinL : In L (Zrange 1 200)) by (apply Zrange_In; lia).
  specialize (Hall L HinL).
  now apply eqb_struct_eq in Hall.
Qed.

Lemma spins_total_pages_witness :
  exists r,
    get_spins (numeral 1) (numeral 3) (snd (serve four_spins fresh_disk))
    = Json r
    /\ page_total r = 4%nat /\ page_totalPages r = of_Z 2.
Proof.
  destruct (spins_total_pages 1 3 (snd (serve four_spins fresh_disk))
              ltac:(lia) ltac:(lia) ltac:(vm_compute; lia))
    as (r & Hr & Ht & Hp).
  exists r. split; [exact Hr|]. split; [exact Ht | exact Hp].
Defined.

(** X17. The big-wins query returns the most recent big wins first: the
    first 50 without a limit, and for an integer limit the first [n],
    where [n] is 50 for the limit 0 and otherwise the limit clamped to
    [1, 200]. *)
Theorem bigwins_most_recent_first (z : Z) (fs : filesystem) :
  -1000 <= z <= 1000 ->
  let recent := rev (bigWins (readData fs)) in
  get_bigwins (numeral z) fs
  = Json (firstn (Z.to_nat (if z =? 0 then 50 else Z.max 1 (Z.min z 200)))
            recent)
  /\ get_bigwins VUndefined fs = Json (firstn 50 recent).
Proof.
  intros Hz recent. split.
  - unfold get_bigwins. rewrite (query_limit_small_integers z Hz).
    cbn [bind_throws catch]. rewrite slice_copy. fold recent.
    set (c := if z =? 0 then 50 else Z.max 1 (Z.min z 200)).
    assert (Hc : 1 <= c <= 200) by (unfold c; destruct (z =? 0); lia).
    assert (Hall : forallb exact_limit (Zrange 1 200) = true)
      by (vm_compute; reflexivity).
    rewrite forallb_forall in Hall.
    assert (Hin : In c (Zrange 1 200)) by (apply Zrange_In; lia).
    specialize (Hall c Hin).
    unfold exact_limit in Hall.
    destruct (ToIntegerOrInfinity (of_Z c)) as [|n|]; try discriminate Hall.
    apply Z.eqb_eq in Hall. subst n.
    replace c with (Z.of_nat (Z.to_nat c)) at 1 by lia.
    now rewrite slice_prefix.
  - unfold get_bigwins.
    change (query_limit VUndefined) with (Some (of_Z 50)).
    cbn [bind_throws catch]. rewrite slice_copy.
    change (ToIntegerOrInfinity (of_Z 50)) with (Fin (Z.of_nat 50)).
    now rewrite slice_prefix.
Qed.

Lemma bigwins_most_recent_first_witness :
  get_bigwins (numeral 0) fresh_disk = Json [].
Proof.
  exact (proj1 (bigwins_most_recent_first 0 fresh_disk ltac:(lia))).
Defined.

(* ================================================================== *)
(** * Further properties of the sessions query *)

Lemma assoc_None_keys {A : Type} (k : jsstring) (o : list (jsstring * A)) :
  assoc k o = None <-> ~ In k (map fst o).
Proof.
  induction o as [|[k' v] o IH]; cbn [assoc map fst In]; [tauto|].
  destruct (jsstring_eqb k k') eqn:E.
  - apply jsstring_eqb_eq in E. subst k'. split; [discriminate | tauto].
  - apply jsstring_eqb_neq in E. rewrite IH. intuition congruence.
Qed.

Lemma assoc_app_absent {A : Type} (k x : jsstring) (v : A)
  (o : list (jsstring * A)) :
  assoc x o = None ->
  assoc k (o ++ [(x, v)]) = if jsstring_eqb k x then Some v else assoc k o.
Proof.
  induction o as [|[k' v'] o IH]; cbn [assoc app]; intros Hx.
  - reflexivity.
  - destruct (jsstring_eqb x k') eqn:Exk; [discriminate Hx|].
    destruct (jsstring_eqb k k') eqn:Ekk.
    + apply jsstring_eqb_eq in Ekk. subst k'.
      destruct (jsstring_eqb k x) eqn:Ekx; [|reflexivity].
      apply jsstring_eqb_eq in Ekx. subst x.
      rewrite jsstring_eqb_refl in Exk. discriminate Exk.
    + now apply IH.
Qed.

Lemma assoc_insert_property {A : Type} (i : N) (k x : jsstring) (v : A)
  (o : list (jsstring * A)) :
  assoc x o = None ->
  assoc k (insert_property i x v o)
  = if jsstring_eqb k x then Some v else assoc k o.
Proof.
  induction o as [|[k' v'] o IH]; cbn [assoc insert_property]; intros Hx.
  - reflexivity.
  - destruct (jsstring_eqb x k') eqn:Exk; [discriminate Hx|].
    destruct (array_index k') as [j|]; [destruct (j <? i)%N|];
      cbn [assoc]; try reflexivity.
    destruct (jsstring_eqb k k') eqn:Ekk.
    + apply jsstring_eqb_eq in Ekk. subst k'.
      destruct (jsstring_eqb k x) eqn:Ekx; [|reflexivity].
      apply jsstring_eqb_eq in Ekx. subst x.
      rewrite jsstring_eqb_refl in Exk. discriminate Exk.
    + now apply IH.
Qed.

Lemma insert_property_keys {A : Type} (i : N) (k : jsstring) (v : A)
  (o : list (jsstring * A)) :
  map fst (insert_property i k v o) = insert_key i k (map fst o).
Proof.
  induction o as [|[k' v'] o IH]; cbn [insert_property insert_key map fst];
    [reflexivity|].
  destruct (array_index k') as [j|]; [destruct (j <? i)%N|];
    cbn [map fst]; try reflexivity.
  now rewrite IH.
Qed.

Lemma insert_key_app (i : N) (k : jsstring) (J S : list jsstring) :
  Forall (fun k => is_index k = true) J ->
  Forall (fun k => is_index k = false) S ->
  insert_key i k (J ++ S) = insert_key i k J ++ S.
Proof.
  intros HJ HS. induction J as [|x J IH]; cbn [app insert_key].
  - destruct S as [|s S]; [reflexivity|].
    inversion HS as [|? ? Hs _]; subst. cbn [insert_key].
    unfold is_index in Hs. destruct (array_index s); [discriminate|reflexivity].
  - inversion HJ as [|? ? Hx HJ']; subst.
    destruct (array_index x) as [j|]; [|reflexivity].
    destruct (j <? i)%N; [|reflexivity].
    cbn [app]. f_equal. now apply IH.
Qed.

Lemma replace_keys {A : Type} (k : jsstring) (v : A) (o : list (jsstring * A)) :
  map fst (replace k v o) = map fst o.
Proof.
  induction o as [|[k' v'] o IH]; cbn [replace map fst]; [reflexivity|].
  destruct (jsstring_eqb k k'); cbn [map fst]; [reflexivity|].
  now rewrite IH.
Qed.

Lemma assoc_replace {A : Type} (x k : jsstring) (v : A)
  (o : list (jsstring * A)) :
  assoc x (replace k v o)
  = if jsstring_eqb x k then option_map (fun _ => v) (assoc k o)
    else assoc x o.
Proof.
  induction o as [|[k' v'] o IH]; cbn [replace assoc option_map].
  - now destruct (jsstring_eqb x k).
  - destruct (jsstring_eqb k k') eqn:Ekk; cbn [assoc option_map].
    + apply jsstring_eqb_eq in Ekk. subst k'.
      now destruct (jsstring_eqb x k).
    + destruct (jsstring_eqb x k') eqn:Exk.
      * destruct (jsstring_eqb x k) eqn:Exk'; [|reflexivity].
        apply jsstring_eqb_eq in Exk, Exk'. subst.
        rewrite jsstring_eqb_refl in Ekk. discriminate Ekk.
      * apply IH.
Qed.

Lemma find_snoc {A : Type} (f : A -> bool) (l : list A) (x : A) :
  find f (l ++ [x])
  = match find f l with
    | Some y => Some y
    | None => if f x then Some x else None
    end.
Proof.
  induction l as [|y l IH]; cbn [app find]; [reflexivity|].
  destruct (f y); [reflexivity | exact IH].
Qed.

Lemma inherited_assoc (k : jsstring) :
  inherited k = false <-> assoc k Object_prototype = None.
Proof.
  unfold inherited. destruct (assoc k Object_prototype); split;
    congruence.
Qed.

Lemma first_visit_snoc (vs : list Visit) (v : Visit) (id : jsstring) :
  first_visit (vs ++ [v]) id
  = match first_visit vs id with
    | Some y => Some y
    | None => if jsstring_eqb (visit_sessionId v) id then Some v else None
    end.
Proof. unfold first_visit. now rewrite find_snoc. Qed.

(** What the first loop builds: one entry for every session id of the
    visits that is not an inherited name, holding its first visit. *)
Lemma open_sessions_assoc (vs : list Visit) (id : jsstring) :
  assoc id (fold_left open_session vs [])
  = if inherited id then None else option_map new_session (first_visit vs id).
Proof.
  revert id. induction vs as [|v vs IH] using rev_ind; intros id.
  - cbn. now destruct (inherited id).
  - rewrite fold_left_app. cbn [fold_left].
    set (m := fold_left open_session vs []) in *.
    rewrite first_visit_snoc. unfold open_session.
    pose proof (IH (visit_sessionId v)) as Hv.
    assert (Hother : jsstring_eqb id (visit_sessionId v) = false ->
                     jsstring_eqb (visit_sessionId v) id = false).
    { intros H. apply jsstring_eqb_neq in H. apply jsstring_eqb_neq.
      congruence. }
    destruct (assoc (visit_sessionId v) m) as [x|] eqn:Em.
    + rewrite IH. destruct (inherited id) eqn:Ei; [reflexivity|].
      destruct (first_visit vs id) as [y|] eqn:Ef; [reflexivity|].
      destruct (jsstring_eqb (visit_sessionId v) id) eqn:E; [|reflexivity].
      apply jsstring_eqb_eq in E. rewrite E, Ei, Ef in Hv. discriminate Hv.
    + destruct (assoc (visit_sessionId v) Object_prototype) as [p|] eqn:Ep.
      * rewrite IH. destruct (inherited id) eqn:Ei; [reflexivity|].
        destruct (first_visit vs id) as [y|] eqn:Ef; [reflexivity|].
        destruct (jsstring_eqb (visit_sessionId v) id) eqn:E; [|reflexivity].
        apply jsstring_eqb_eq in E. apply inherited_assoc in Ei.
        rewrite E in Ep. congruence.
      * assert (Hnew : assoc id
                  match array_index (visit_sessionId v) with
                  | Some i => insert_property i (visit_sessionId v)
                                (new_session v) m
                  | None => m ++ [(visit_sessionId v, new_session v)]
                  end
                = if jsstring_eqb id (visit_sessionId v)
                  then Some (new_session v) else assoc id m).
        { destruct (array_index (visit_sessionId v)).
          - now apply assoc_insert_property.
          - now apply assoc_app_absent. }
        rewrite Hnew. clear Hnew.
        apply inherited_assoc in Ep. rewrite Ep in Hv.
        destruct (jsstring_eqb id (visit_sessionId v)) eqn:E.
        -- apply jsstring_eqb_eq in E. subst id. rewrite Ep.
           destruct (first_visit vs (visit_sessionId v)); [discriminate Hv|].
           now rewrite jsstring_eqb_refl.
        -- rewrite IH, (Hother eq_refl).
           destruct (inherited id); [reflexivity|].
           now destruct (first_visit vs id).
Qed.

Lemma open_sessions_keys (vs : list Visit) :
  map fst (fold_left open_session vs []) = session_ids vs.
Proof.
  induction vs as [|v vs IH] using rev_ind; [reflexivity|].
  rewrite fold_left_app. cbn [fold_left].
  set (m := fold_left open_session vs []) in *.
  unfold session_ids in *. rewrite map_app, filter_app. cbn [map filter].
  set (F := filter (fun k => negb (inherited k)) (map visit_sessionId vs)) in *.
  unfold open_session.
  destruct (assoc (visit_sessionId v) m) as [x|] eqn:Em.
  - assert (Hin : In (visit_sessionId v) (map fst m)).
    { destruct (in_dec (list_eq_dec N.eq_dec) (visit_sessionId v) (map fst m))
        as [H|H]; [exact H|].
      apply assoc_None_keys in H. congruence. }
    rewrite IH, key_order_In, distinct_In in Hin.
    assert (Hplain : inherited (visit_sessionId v) = false).
    { unfold F in Hin. apply filter_In in Hin as [_ Hin].
      now destruct (inherited (visit_sessionId v)). }
    rewrite Hplain. cbn [negb]. rewrite distinct_snoc.
    apply includes_In in Hin. now rewrite Hin.
  - destruct (assoc (visit_sessionId v) Object_prototype) as [p|] eqn:Ep.
    + assert (Hinh : inherited (visit_sessionId v) = true)
        by (unfold inherited; now rewrite Ep).
      rewrite Hinh. cbn [negb]. now rewrite app_nil_r.
    + apply inherited_assoc in Ep. rewrite Ep. cbn [negb].
      rewrite distinct_snoc.
      apply assoc_None_keys in Em. rewrite IH, key_order_In, distinct_In in Em.
      destruct (includes F (visit_sessionId v)) eqn:Einc.
      { apply includes_In in Einc. contradiction. }
      rewrite key_order_snoc.
      destruct (array_index (visit_sessionId v)) as [i|].
      * rewrite insert_property_keys, IH. unfold key_order.
        apply insert_key_app.
        -- apply index_sorted_Forall.
        -- apply Forall_forall. intros k Hk. apply filter_In in Hk as [_ Hk].
           now destruct (is_index k).
      * rewrite map_app, IH. reflexivity.
Qed.

Lemma add_spin_keys (m : list (jsstring * Session)) (s : Spin) :
  map fst (add_spin m s) = map fst m.
Proof.
  unfold add_spin. destruct (assoc (spin_sessionId s) m); [|reflexivity].
  apply replace_keys.
Qed.

Lemma add_spins_keys (ss : list Spin) (m : list (jsstring * Session)) :
  map fst (fold_left add_spin ss m) = map fst m.
Proof.
  revert m. induction ss as [|s ss IH]; intros m; [reflexivity|].
  cbn [fold_left]. now rewrite IH, add_spin_keys.
Qed.

Lemma add_spin_assoc (m : list (jsstring * Session)) (s : Spin)
  (id : jsstring) :
  assoc id (add_spin m s)
  = option_map (fun x => if jsstring_eqb (spin_sessionId s) id
                         then add_to_session x s else x)
      (assoc id m).
Proof.
  unfold add_spin. destruct (assoc (spin_sessionId s) m) as [x|] eqn:Em.
  - rewrite assoc_replace, Em. cbn [option_map].
    destruct (jsstring_eqb id (spin_sessionId s)) eqn:E.
    + apply jsstring_eqb_eq in E. subst id. rewrite Em, jsstring_eqb_refl.
      reflexivity.
    + destruct (jsstring_eqb (spin_sessionId s) id) eqn:E'.
      * apply jsstring_eqb_eq in E'. subst id.
        rewrite jsstring_eqb_refl in E. discriminate E.
      * now destruct (assoc id m).
  - destruct (jsstring_eqb (spin_sessionId s) id) eqn:E.
    + apply jsstring_eqb_eq in E. subst id. now rewrite Em.
    + now destruct (assoc id m).
Qed.

Lemma add_spins_assoc (ss : list Spin) (m : list (jsstring * Session))
  (id : jsstring) :
  assoc id (fold_left add_spin ss m)
  = option_map
      (fun x => fold_left add_to_session
                  (filter (fun s => jsstring_eqb (spin_sessionId s) id) ss) x)
      (assoc id m).
Proof.
  revert m. induction ss as [|s ss IH]; intros m; cbn [fold_left filter].
  - now destruct (assoc id m).
  - rewrite IH, add_spin_assoc.
    destruct (assoc id m) as [x|]; [|reflexivity]. cbn [option_map].
    now destruct (jsstring_eqb (spin_sessionId s) id).
Qed.

Lemma add_to_session_fold (l : list Spin) (x : Session) :
  fold_left add_to_session l x
  = mkSession (session_sessionId x) (startTime x) (session_userAgent x)
      (session_screenSize x)
      (fold_left (fun n _ => add n (of_Z 1)) l (session_spins x))
      (fold_left add (map bet l) (wagered x))
      (fold_left add (map win l) (won x)).
Proof.
  revert x. induction l as [|s l IH]; intros x; cbn [fold_left map].
  - now destruct x.
  - now rewrite IH.
Qed.

Lemma exact_successors_below (k : nat) (n z : Z) :
  exact_successors k n = true -> n <= z < n + Z.of_nat k ->
  add (of_Z z) (of_Z 1) = of_Z (z + 1).
Proof.
  revert n. induction k as [|k IH]; intros n Hall Hz; [lia|].
  cbn [exact_successors] in Hall. apply andb_true_iff in Hall as [Hn Hall].
  destruct (Z.eq_dec z n) as [->|Hne].
  - now apply eqb_struct_eq.
  - apply (IH (n + 1) Hall). lia.
Qed.

Lemma count_exact {A : Type} (l : list A) :
  Z.of_nat (List.length l) <= cap KSpin ->
  fold_left (fun n _ => add n (of_Z 1)) l zero = of_nat (List.length l).
Proof.
  assert (Hall : exact_successors (Z.to_nat (cap KSpin)) 0 = true)
    by (vm_compute; reflexivity).
  induction l as [|x l IH] using rev_ind; intros Hlen; [reflexivity|].
  rewrite length_app in Hlen. cbn [List.length] in Hlen.
  rewrite fold_left_app. cbn [fold_left]. rewrite IH by lia.
  rewrite length_app. cbn [List.length]. unfold of_nat.
  rewrite (exact_successors_below _ 0 (Z.of_nat (List.length l)) Hall).
  - f_equal. lia.
  - rewrite Z2Nat.id by (cbn; lia). lia.
Qed.

Lemma assoc_In_NoDup {A : Type} (k : jsstring) (x : A)
  (o : list (jsstring * A)) :
  NoDup (map fst o) -> In (k, x) o -> assoc k o = Some x.
Proof.
  induction o as [|[k' v] o IH]; cbn [map fst In assoc]; intros Hnd Hin;
    [contradiction|].
  inversion Hnd as [|? ? Hk' Hnd']; subst.
  destruct Hin as [Heq|Hin].
  - inversion Heq; subst. now rewrite jsstring_eqb_refl.
  - destruct (jsstring_eqb k k') eqn:E; [|now apply IH].
    apply jsstring_eqb_eq in E. subst k'.
    exfalso. apply Hk'. apply in_map_iff. now exists (k, x).
Qed.

Lemma first_visit_found (vs : list Visit) (id : jsstring) (v : Visit) :
  first_visit vs id = Some v -> In v vs /\ visit_sessionId v = id.
Proof.
  intros H. apply find_some in H as [Hin Heq].
  split; [exact Hin | now apply jsstring_eqb_eq].
Qed.

(** An entry of [sessionMap]: the session its first visit opened, with
    the spins of that session added one by one. *)
Lemma sessionMap_assoc (a : analytics) (id : jsstring) :
  assoc id (sessionMap a)
  = if inherited id then None
    else option_map
           (fun v => fold_left add_to_session (spins_of a id) (new_session v))
           (first_visit (visits a) id).
Proof.
  unfold sessionMap. rewrite add_spins_assoc, open_sessions_assoc.
  destruct (inherited id); [reflexivity|].
  now destruct (first_visit (visits a) id).
Qed.

Lemma sessionMap_keys (a : analytics) :
  map fst (sessionMap a) = session_ids (visits a).
Proof. unfold sessionMap. now rewrite add_spins_keys, open_sessions_keys. Qed.

Lemma session_ids_NoDup (vs : list Visit) : NoDup (session_ids vs).
Proof. apply key_order_NoDup, distinct_NoDup. Qed.

Lemma sessionMap_startTime (a : analytics) (x : Session) :
  In x (map snd (sessionMap a)) ->
  exists v, In v (visits a) /\ startTime x = visit_timestamp v.
Proof.
  intros Hin. apply in_map_iff in Hin as ([id y] & Hy & Hin).
  cbn [snd] in Hy. subst y.
  apply assoc_In_NoDup in Hin;
    [|rewrite sessionMap_keys; apply session_ids_NoDup].
  rewrite sessionMap_assoc in Hin.
  destruct (inherited id); [discriminate Hin|].
  destruct (first_visit (visits a) id) as [v|] eqn:Ev; [|discriminate Hin].
  cbn [option_map] in Hin. inversion Hin as [Hx].
  exists v. split; [now apply first_visit_found in Ev|].
  now rewrite add_to_session_fold.
Qed.

(** X18. [sessionMap] has one entry for every distinct session id of the
    visits that is not a name inherited from [Object.prototype], in the
    order in which an object lists its keys.  The entry carries the start
    time, user agent and screen size of the first visit of the session,
    the number of the spins stored under that session id and the sums of
    their bets and wins; spins of a session no visit opened are left
    out.  (The store holds no more spins than the ingestion cap.) *)
Theorem sessions_rollup (a : analytics) :
  Z.of_nat (List.length (spins a)) <= cap KSpin ->
  map fst (sessionMap a) = session_ids (visits a)
  /\ forall id,
       assoc id (sessionMap a)
       = if inherited id then None
         else option_map (rollup a) (first_visit (visits a) id).
Proof.
  intros Hcap. split; [apply sessionMap_keys|].
  intros id. rewrite sessionMap_assoc.
  destruct (inherited id); [reflexivity|].
  destruct (first_visit (visits a) id) as [v|] eqn:Ev; [|reflexivity].
  cbn [option_map]. f_equal.
  apply first_visit_found in Ev as [_ Hid].
  rewrite add_to_session_fold. unfold rollup, new_session. rewrite Hid.
  cbn [session_sessionId startTime session_userAgent session_screenSize
       session_spins wagered won].
  f_equal. apply count_exact.
  pose proof (filter_length_le
                (fun s => jsstring_eqb (spin_sessionId s) id) (spins a)) as Hle.
  unfold spins_of. lia.
Qed.

Lemma sessions_rollup_witness :
  map fst (sessionMap (readData (ingest two_sessions fresh_disk)))
  = [js "7"; js "s1"]
  /\ option_map (fun x => (session_spins x, wagered x, won x))
       (assoc (js "s1")
          (sessionMap (readData (ingest two_sessions fresh_disk))))
     = Some (of_Z 3, of_Z 25, of_Z 25).
Proof.
  assert (Hcap : Z.of_nat (List.length
                   (spins (readData (ingest two_sessions fresh_disk))))
                 <= cap KSpin) by (vm_compute; discriminate).
  destruct (sessions_rollup _ Hcap) as [Hkeys Hentry].
  split.
  - rewrite Hkeys. vm_compute. reflexivity.
  - rewrite (Hentry (js "s1")). vm_compute. reflexivity.
Defined.

(** A session id that names a member of [Object.prototype] has no entry,
    whatever was stored under it. *)
Lemma inherited_session_not_listed :
  sessionMap
    (mkAnalytics [mkVisit noon (js "constructor") [] [] [];
                  mkVisit noon (js "__proto__") [] [] []]
       [mkSpin noon (js "__proto__") (of_Z 1) zero []] [] [])
  = [].
Proof. vm_compute. reflexivity. Qed.

Lemma by_startTime_desc_dated (time : jsstring -> option Z) (x y : Session) :
  time (startTime x) <> None -> time (startTime y) <> None ->
  by_startTime_desc time x y = started time y - started time x.
Proof.
  intros Hx Hy. unfold by_startTime_desc, started.
  destruct (time (startTime y)); [|contradiction].
  destruct (time (startTime x)); [reflexivity | contradiction].
Qed.

Lemma insert_sorted_Permutation {A : Type} (cmp : A -> A -> Z) (x : A)
  (l : list A) :
  Permutation (insert_sorted cmp x l) (x :: l).
Proof.
  induction l as [|y l IH]; cbn [insert_sorted]; [apply Permutation_refl|].
  destruct (0 <? cmp x y); [|apply Permutation_refl].
  eapply Permutation_trans; [apply perm_skip, IH | apply perm_swap].
Qed.

Lemma sort_Permutation {A : Type} (cmp : A -> A -> Z) (l : list A) :
  Permutation (sort cmp l) l.
Proof.
  induction l as [|x l IH]; [apply Permutation_refl|].
  cbn [sort fold_right]. fold (sort cmp l).
  eapply Permutation_trans; [apply insert_sorted_Permutation|].
  now apply perm_skip.
Qed.

Lemma insert_sorted_recent (time : jsstring -> option Z) (x : Session)
  (l : list Session) :
  dated time x -> Forall (dated time) l ->
  most_recent_first time l ->
  most_recent_first time (insert_sorted (by_startTime_desc time) x l).
Proof.
  unfold most_recent_first.
  intros Hx Hl Hs. induction l as [|y l IH]; cbn [insert_sorted].
  - repeat constructor.
  - inversion Hl as [|? ? Hy Hl']; subst.
    inversion Hs as [|? ? Hs' Hd]; subst.
    rewrite (by_startTime_desc_dated time x y Hx Hy).
    destruct (0 <? started time y - started time x) eqn:E.
    + apply Z.ltb_lt in E. constructor; [now apply IH|].
      apply insert_sorted_HdRel; [lia | assumption].
    + apply Z.ltb_ge in E. constructor; [assumption|].
      constructor. lia.
Qed.

Lemma sort_recent (time : jsstring -> option Z) (l : list Session) :
  Forall (dated time) l -> most_recent_first time (sort (by_startTime_desc time) l).
Proof.
  induction l as [|x l IH]; intros H; [constructor|].
  inversion H as [|? ? Hx Hl]; subst. cbn [sort fold_right].
  fold (sort (by_startTime_desc time) l).
  apply insert_sorted_recent; [assumption| |now apply IH].
  apply Forall_forall. intros e He. apply sort_In in He.
  rewrite Forall_forall in Hl. now apply Hl.
Qed.

Lemma insert_sorted_same_start (time : jsstring -> option Z) (t : Z)
  (x : Session) (l : list Session) :
  dated time x -> Forall (dated time) l ->
  filter (started_at time t) (insert_sorted (by_startTime_desc time) x l)
  = filter (started_at time t) (x :: l).
Proof.
  intros Hx Hl. induction l as [|y l IH]; [reflexivity|].
  inversion Hl as [|? ? Hy Hl']; subst.
  cbn [insert_sorted]. rewrite (by_startTime_desc_dated time x y Hx Hy).
  destruct (0 <? started time y - started time x) eqn:E; [|reflexivity].
  apply Z.ltb_lt in E. cbn [filter]. rewrite (IH Hl'). cbn [filter].
  unfold started_at.
  destruct (started time x =? t) eqn:Ex; [|reflexivity].
  apply Z.eqb_eq in Ex.
  destruct (started time y =? t) eqn:Ey; [|reflexivity].
  apply Z.eqb_eq in Ey. lia.
Qed.

Lemma sort_same_start (time : jsstring -> option Z) (t : Z)
  (l : list Session) :
  Forall (dated time) l ->
  filter (started_at time t) (sort (by_startTime_desc time) l)
  = filter (started_at time t) l.
Proof.
  induction l as [|x l IH]; intros H; [reflexivity|].
  inversion H as [|? ? Hx Hl]; subst. cbn [sort fold_right].
  fold (sort (by_startTime_desc time) l).
  rewrite insert_sorted_same_start; [| assumption |].
  - cbn [filter]. now rewrite (IH Hl).
  - apply Forall_forall. intros e He. apply sort_In in He.
    rewrite Forall_forall in Hl. now apply Hl.
Qed.

Lemma limit_read_back (n : Z) :
  1 <= n <= 200 -> ToIntegerOrInfinity (of_Z n) = Fin n.
Proof.
  intros Hn.
  assert (Hall : forallb exact_limit (Zrange 1 200) = true)
    by (vm_compute; reflexivity).
  rewrite forallb_forall in Hall.
  assert (Hin : In n (Zrange 1 200)) by (apply Zrange_In; lia).
  apply Hall in Hin. unfold exact_limit in Hin.
  destruct (ToIntegerOrInfinity (of_Z n)) as [|z|]; try discriminate Hin.
  apply Z.eqb_eq in Hin. now subst z.
Qed.

(** X19. The sessions query lists the sessions of [sessionMap] by their
    start, the most recent first, sessions of equal start in the order of
    [sessionMap], and cuts the list after the limit: for a limit that
    reads as [n] in [1, 200] (50 when none is given) and visits whose
    timestamps are all dates, the reply holds the first [n] of that order,
    or all when there are fewer. *)
Theorem sessions_most_recent_first (time : jsstring -> option Z)
  (q : value) (n : Z) (fs : filesystem) :
  1 <= n <= 200 ->
  sessions_limit q = Some (of_Z n) ->
  Forall (fun v => time (visit_timestamp v) <> None) (visits (readData fs)) ->
  let sessions := map snd (sessionMap (readData fs)) in
  exists rows rest,
    get_sessions time q fs = Json (map finish rows)
    /\ List.length rows = Nat.min (Z.to_nat n) (List.length sessions)
    /\ Permutation (rows ++ rest) sessions
    /\ most_recent_first time (rows ++ rest)
    /\ forall t, filter (started_at time t) (rows ++ rest)
                 = filter (started_at time t) sessions.
Proof.
  intros Hn Hq Hdated sessions.
  assert (Hall : Forall (fun x => time (startTime x) <> None) sessions).
  { apply Forall_forall. intros x Hx.
    apply sessionMap_startTime in Hx as (v & Hv & ->).
    rewrite Forall_forall in Hdated. now apply Hdated. }
  set (sorted := sort (by_startTime_desc time) sessions).
  exists (firstn (Z.to_nat n) sorted), (skipn (Z.to_nat n) sorted).
  rewrite firstn_skipn. split; [|split; [|split; [|split]]].
  - unfold get_sessions. rewrite Hq. cbn [bind_throws catch].
    fold sessions. fold sorted. rewrite (limit_read_back n Hn).
    replace n with (Z.of_nat (Z.to_nat n)) at 1 by lia.
    now rewrite slice_prefix.
  - rewrite length_firstn. f_equal.
    apply Permutation_length, sort_Permutation.
  - apply sort_Permutation.
  - now apply sort_recent.
  - intros t. now apply sort_same_start.
Qed.

Lemma sessions_most_recent_first_witness :
  exists rows rest,
    get_sessions digits_clock VUndefined (ingest two_sessions fresh_disk)
    = Json (map finish rows)
    /\ List.length rows = 2%nat
    /\ Permutation (rows ++ rest)
         (map snd (sessionMap (readData (ingest two_sessions fresh_disk)))).
Proof.
  destruct (sessions_most_recent_first digits_clock VUndefined 50
              (ingest two_sessions fresh_disk))
    as (rows & rest & Hreply & Hlen & Hperm & _).
  - lia.
  - vm_compute. reflexivity.
  - apply Forall_forall. intros v _. unfold digits_clock. discriminate.
  - exists rows, rest. split; [exact Hreply|]. split; [|exact Hperm].
    rewrite Hlen. vm_compute. reflexivity.
Defined.

(** The reply to the two visitors: the phone first, as it came later. *)
Lemma two_sessions_listed :
  match get_sessions digits_clock VUndefined (ingest two_sessions fresh_disk)
  with
  | Json rows =>
      map (fun r => (session_sessionId (row_session r), netResult r, device r))
        rows
  | Failed _ _ => []
  end
  = [(js "7", js "0.00", js "Mobile"); (js "s1", js "0.00", js "Desktop")].
Proof. vm_compute. reflexivity. Qed.
